(** * Time-Warped Edit Distance: the three engines of the repository

    Shallow embedding of

      - [src/timeWarpedEditDistance_TWED.py]   (class [TWED], full matrix),
      - [src/TWED/memoryEfficient_TWED.py]     (class [memTWED], two rows),
      - [src/TWED/multiInput_TWED.py]          (class [multiTWED], batch),

    followed by the properties of the specification that concern them.

    Numbers.  [_lambda], [_nu] and the finite costs are exact rationals in
    canonical form ([Qc], whose Leibniz equality is numeric equality); a
    cost is such a rational or [np.inf].  Rounding of binary floating point
    is therefore not part of the model, and neither is NaN.  A sample is a
    NumPy scalar of dtype [int64] or [float64], the dtypes NumPy gives to
    an array of Python integers and to an array of Python floats: the
    difference of two [int64] samples wraps around modulo [2^64], [np.abs]
    of the least [int64] is that same negative number, and a [float64]
    sample is an exact rational.

    Errors.  A Python exception is a value [Raise e] of the [result] type.
    Indexing a NumPy array from interpreted code is modelled with its
    bounds check: an index outside an axis raises [IndexError], a negative
    index counts from the end.

    Compiled code.  [memTWED._calculateCosts] is decorated with numba's
    [@jit].  The compiled function gets the buffer as a data pointer with
    a shape, adds the size of the axis to a negative index and compares no
    index with the shape: [matrix[r, c]] is the cell [r * shape[1] + c]
    counted from the data pointer, inside the buffer or behind it.  A local
    variable that was never assigned reads as [0].  The cells behind the
    buffer are a parameter of the model, [heap]; the model follows the
    address arithmetic and leaves out whatever else the process keeps in
    the memory that a write behind the buffer destroys. *)

From Stdlib Require Import ZArith QArith Qcanon Qcabs Lia String.
From stdpp Require Import base list numbers functions.

Open Scope Qc_scope.
Open Scope list_scope.

(** ** Costs *)

Inductive cost : Type :=
| Fin (q : Qc)
| Inf.

Definition Z2Qc (z : Z) : Qc := Q2Qc (inject_Z z).

(** [c + q] for a matrix cell [c] and a finite term [q]. *)
Definition cost_add (c : cost) (q : Qc) : cost :=
  match c with
  | Fin x => Fin (x + q)
  | Inf => Inf
  end.

Definition cost_ltb (a b : cost) : bool :=
  match a, b with
  | Fin x, Fin y => bool_decide (x < y)
  | Fin _, Inf => true
  | Inf, _ => false
  end.

Definition cost_leb (a b : cost) : bool :=
  match a, b with
  | Fin x, Fin y => bool_decide (x ≤ y)
  | _, Inf => true
  | Inf, Fin _ => false
  end.

Definition cost_le (a b : cost) : Prop :=
  match a, b with
  | Fin x, Fin y => x ≤ y
  | _, Inf => True
  | Inf, Fin _ => False
  end.

(** Python's builtin [min(a, b, c)]: the running minimum is replaced only by
    a strictly smaller item. *)
Definition py_min3 (a b c : cost) : cost :=
  let r := if cost_ltb b a then b else a in
  if cost_ltb c r then c else r.

(** [np.minimum] as a reduction over three stacked values: the running
    minimum is kept when it is less than or equal to the next item. *)
Definition np_min3 (a b c : cost) : cost :=
  let r := if cost_leb a b then a else b in
  if cost_leb r c then r else c.

(** ** Samples *)

(** What indexing a series returns: [np.int64(z)] or [np.float64(q)].  In a
    NumPy array all entries have the dtype of the array. *)
Inductive scalar : Type :=
| I64 (z : Z)
| F64 (q : Qc).

(** The array [np.array(l)] of Python integers, and of Python floats. *)
Definition int64 (l : list Z) : list scalar := I64 <$> l.
Definition float64 (l : list Qc) : list scalar := F64 <$> l.

(** The value of a 64-bit pattern read as a signed integer. *)
Definition wrap64 (z : Z) : Z := ((z + 2 ^ 63) mod 2 ^ 64 - 2 ^ 63)%Z.

(** The conversion to [float64] that a sum with a [float64] applies. *)
Definition to_float (x : scalar) : Qc :=
  match x with
  | I64 z => Z2Qc z
  | F64 q => q
  end.

(** [x - y]: two [int64] give an [int64], anything else a [float64]. *)
Definition np_sub (x y : scalar) : scalar :=
  match x, y with
  | I64 a, I64 b => I64 (wrap64 (a - b))
  | _, _ => F64 (to_float x - to_float y)
  end.

(** [np.abs(x)], of the dtype of [x]. *)
Definition np_abs (x : scalar) : scalar :=
  match x with
  | I64 a => I64 (wrap64 (Z.abs a))
  | F64 q => F64 (Qcabs q)
  end.

(** The term [_abs(x - y)] as it enters a sum of [float64] costs. *)
Definition absdiff (x y : scalar) : Qc := to_float (np_abs (np_sub x y)).

(** ** Exceptions and results *)

Inductive assertion : Type :=
| NuNegative        (* "Error: Set _nu >= 0!" *)
| LengthsDiffer     (* "Error, n != m!: ..." *)
| NotAMatrix.       (* "Error: Pass t2 as matrix with shape (2, x)! ..." *)

Inductive exn : Type :=
| AssertionError (a : assertion)
| IndexError
| UnboundLocalError.

Inductive result (A : Type) : Type :=
| Ok (a : A)
| Raise (e : exn).
Arguments Ok {A} a.
Arguments Raise {A} e.

#[global] Instance result_bind : MBind result :=
  λ A B f r, match r with Ok a => f a | Raise e => Raise e end.
#[global] Instance result_ret : MRet result := @Ok.
#[global] Instance result_fmap : FMap result :=
  λ A B f r, match r with Ok a => Ok (f a) | Raise e => Raise e end.

Definition is_Ok {A} (r : result A) : Prop := ∃ a, r = Ok a.

(** [assert b, msg] *)
Definition py_assert (b : bool) (msg : assertion) : result unit :=
  if b then Ok tt else Raise (AssertionError msg).

(** ** Loops and arrays *)

(** [for x in xs: s = body(x, s)] *)
Fixpoint for_each {S : Type} (xs : list nat) (body : nat → S → result S)
    (s : S) : result S :=
  match xs with
  | [] => Ok s
  | x :: xs' => s' ← body x s; for_each xs' body s'
  end.

(** [range(a, b)] *)
Definition range (a b : nat) : list nat := seq a (b - a).

(** [np.arange(a, b, 1)] *)
Definition arange (a b : nat) : list Z := Z.of_nat <$> range a b.

(** Every element of a list in turn, stopping at the first exception. *)
Fixpoint map_result {A B : Type} (f : A → result B) (l : list A)
    : result (list B) :=
  match l with
  | [] => Ok []
  | x :: l' => y ← f x; ys ← map_result f l'; Ok (y :: ys)
  end.

(** [l[i]] for an index that is not negative. *)
Definition getitem {A : Type} (l : list A) (i : nat) : result A :=
  match l !! i with
  | Some x => Ok x
  | None => Raise IndexError
  end.

(** [l[i] = x] for an index that is not negative. *)
Definition setitem {A : Type} (l : list A) (i : nat) (x : A)
    : result (list A) :=
  if decide (i < length l)%nat then Ok (<[i:=x]> l) else Raise IndexError.

(** An index that may be negative, on an axis of [size] entries. *)
Definition py_index (size : nat) (z : Z) : result nat :=
  if decide (0 ≤ z < Z.of_nat size)%Z then Ok (Z.to_nat z)
  else if decide (- Z.of_nat size ≤ z < 0)%Z
       then Ok (Z.to_nat (Z.of_nat size + z))
  else Raise IndexError.

Definition getitem_int {A : Type} (l : list A) (z : Z) : result A :=
  i ← py_index (length l) z; getitem l i.

Abbreviation array2 := (list (list cost)).

(** [np.zeros((rows, cols))] *)
Definition zeros (rows cols : nat) : array2 :=
  replicate rows (replicate cols (Fin 0)).

(** [mat[i][j]], also written [mat[i, j]]. *)
Definition get2 (mat : array2) (i j : nat) : result cost :=
  row ← getitem mat i; getitem row j.

(** [mat[i][j] = x] *)
Definition set2 (mat : array2) (i j : nat) (x : cost) : result array2 :=
  row ← getitem mat i; row' ← setitem row j x; setitem mat i row'.

(** [mat[i, j]] where both indices may be negative. *)
Definition get2_int (mat : array2) (i j : Z) : result cost :=
  row ← getitem_int mat i; getitem_int row j.

(** [mat[i, :] = x] *)
Definition set_row (mat : array2) (i : nat) (x : cost) : result array2 :=
  row ← getitem mat i; setitem mat i (replicate (length row) x).

(** [mat[:, j] = x] *)
Definition set_col (mat : array2) (j : nat) (x : cost) : result array2 :=
  map_result (λ row, setitem row j x) mat.

(** ** The naive full-matrix engine, [class TWED] *)

Module TWED.

Record t : Type := Build {
  t1 : list scalar;
  t2 : list scalar;
  _lambda : Qc;
  _nu : Qc;
  n : nat;
  m : nat
}.

Definition __init__ (t1 t2 : list scalar) (_lambda _nu : Qc) : result t :=
  _ ← py_assert (bool_decide (0 ≤ _nu)) NuNegative;
  Ok (Build t1 t2 _lambda _nu (length t1) (length t2)).

Definition _init_matrix (n m : nat) : result array2 :=
  let matrix := zeros n m in
  matrix ← for_each (range 0 (length matrix)) (λ i matrix,
      matrix ← set2 matrix i 0 Inf;
      set2 matrix 0 i Inf) matrix;
  set2 matrix 0 0 (Fin 0).

(** The body of the inner loop, at row [i] and column [j].  The source
    reads the four samples and the four time stamps of [_match] a second
    time; nothing has been written in between, so the model reuses the
    values read for the two deletions. *)
Definition cell (nu lam : Qc) (t1_data t2_data : list scalar)
    (t1_time t2_time : list Z) (i j : nat) (matrix : array2)
    : result array2 :=
  a ← get2 matrix (i - 1) j;
  x0 ← getitem t1_data (i - 1);
  x1 ← getitem t1_data i;
  s1 ← getitem t1_time i;
  s0 ← getitem t1_time (i - 1);
  let _deleteA :=
    cost_add (cost_add (cost_add a (absdiff x0 x1))
                       (nu * Z2Qc (s1 - s0))) lam in
  b ← get2 matrix i (j - 1);
  y0 ← getitem t2_data (j - 1);
  y1 ← getitem t2_data j;
  u1 ← getitem t2_time j;
  u0 ← getitem t2_time (j - 1);
  let _deleteB :=
    cost_add (cost_add (cost_add b (absdiff y0 y1))
                       (nu * Z2Qc (u1 - u0))) lam in
  c ← get2 matrix (i - 1) (j - 1);
  let _match :=
    cost_add (cost_add (cost_add c (absdiff x1 y1))
                       (absdiff x0 y0))
             (nu * Z2Qc (Z.abs (s1 - u1) + Z.abs (s0 - u0))) in
  set2 matrix i j (py_min3 _deleteA _deleteB _match).

Definition calculateCosts (self : t) : result cost :=
  matrix ← _init_matrix (n self) (m self);
  let nu := _nu self in
  let lam := _lambda self in
  let t1_data := t1 self in
  let t2_data := t2 self in
  let t1_time := arange 1 (n self + 1) in
  let t2_time := arange 1 (m self + 1) in
  matrix ← for_each (range 1 (n self)) (λ i,
      for_each (range 1 (m self))
        (cell nu lam t1_data t2_data t1_time t2_time i)) matrix;
  get2_int matrix (Z.of_nat (n self) - 1) (Z.of_nat (m self) - 1).

(** [TWED(t1, t2, _lambda, _nu).calculateCosts()] *)
Definition run (t1 t2 : list scalar) (_lambda _nu : Qc) : result cost :=
  self ← __init__ t1 t2 _lambda _nu; calculateCosts self.

End TWED.


(** ** Arrays in compiled code *)

(** A two-dimensional [float64] array as the code numba compiles sees it:
    the shape, and the cells counted from the data pointer.  The cells of
    the array come first, row after row; the cells behind them are not
    part of the array. *)
Record carray : Type := CArray {
  shape0 : nat;
  shape1 : nat;
  cells : nat → cost
}.

(** The array [matrix] handed to compiled code, with [heap] behind it. *)
Definition to_carray (matrix : array2) (heap : nat → cost) : carray :=
  let flat := concat matrix in
  CArray (length matrix)
    (match matrix with row :: _ => length row | [] => 0%nat end)
    (λ k, default (heap (k - length flat)%nat) (flat !! k)).

(** [a[r, c]] for indices that are not negative: no bounds check. *)
Definition jit_get (a : carray) (r c : nat) : cost :=
  cells a (r * shape1 a + c)%nat.

(** [a[r, c] = x] for indices that are not negative: no bounds check. *)
Definition jit_set (a : carray) (r c : nat) (x : cost) : carray :=
  CArray (shape0 a) (shape1 a) (<[(r * shape1 a + c)%nat := x]> (cells a)).

(** An index that may be negative, on an axis of [size] entries: compiled
    code adds [size] to a negative index and checks nothing. *)
Definition jit_index (size : nat) (z : Z) : nat :=
  Z.to_nat (if decide (z < 0)%Z then z + Z.of_nat size else z)%Z.

(** [a[r, c]] where both indices may be negative. *)
Definition jit_get_int (a : carray) (r c : Z) : cost :=
  jit_get a (jit_index (shape0 a) r) (jit_index (shape1 a) c).

(** ** The rolling two-row engine, [class memTWED] *)

Module memTWED.

Record t : Type := Build {
  t1 : list scalar;
  t2 : list scalar;
  _lambda : Qc;
  _nu : Qc;
  n : nat;
  m : nat
}.

Definition warning : string :=
  "Warning: n < m will result in long runtimes!".

(** The constructor prints; its outcome is what it wrote to standard
    output together with the object or the exception. *)
Definition __init__ (t1 t2 : list scalar) (_lambda _nu : Qc)
    (failOnDifferingLengths : bool) : list string * result t :=
  match py_assert (bool_decide (0 ≤ _nu)) NuNegative with
  | Raise e => ([], Raise e)
  | Ok _ =>
      let self := Build t1 t2 _lambda _nu (length t1) (length t2) in
      if failOnDifferingLengths then
        ([], _ ← py_assert (bool_decide (n self = m self)) LengthsDiffer;
             Ok self)
      else if bool_decide (n self < m self)%nat then
        ([warning], Ok self)
      else
        ([], Ok self)
  end.

(** Interpreted code: NumPy checks the indices. *)
Definition _init_matrix (self : t) : result array2 :=
  let matrix := zeros 2 (n self) in
  matrix ← set_row matrix 0 Inf;
  matrix ← set_col matrix 0 Inf;
  set2 matrix 0 0 (Fin 0).

(** The body of the inner loop, compiled: [mi] is the row being written,
    [ai] the row of the previous outer iteration.  As in [TWED.cell], the
    samples of [_match] are those already read for the two deletions.
    The loops keep [i] below [n] and [j] below [m]; [calculateCosts]
    passes the lengths of the two series for [n] and [m], so the samples
    are read inside their arrays, and the model reads them with
    [getitem]. *)
Definition cell (nu lam : Qc) (t1_data t2_data : list scalar)
    (mi ai i j : nat) (matrix : carray) : result carray :=
  let iz := Z.of_nat i in
  let jz := Z.of_nat j in
  let a := jit_get matrix ai j in
  x0 ← getitem t1_data (i - 1);
  x1 ← getitem t1_data i;
  let _deleteA :=
    cost_add (cost_add (cost_add a (absdiff x0 x1))
                       (nu * Z2Qc (iz - (iz - 1)))) lam in
  let b := jit_get matrix mi (j - 1) in
  y0 ← getitem t2_data (j - 1);
  y1 ← getitem t2_data j;
  let _deleteB :=
    cost_add (cost_add (cost_add b (absdiff y0 y1))
                       (nu * Z2Qc (jz - (jz - 1)))) lam in
  let c := jit_get matrix ai (j - 1) in
  let _match :=
    cost_add (cost_add (cost_add c (absdiff x1 y1))
                       (absdiff x0 y0))
             (nu * Z2Qc (Z.abs (iz - jz) + Z.abs ((iz - 1) - (jz - 1)))) in
  Ok (jit_set matrix mi j (py_min3 _deleteA _deleteB _match)).

Definition row_of (i : nat) : nat := i mod 2.
Definition other_row (mi : nat) : nat := Z.to_nat (Z.abs (Z.of_nat mi - 1)).

(** The inner loop of outer iteration [i], over the columns [js]. *)
Definition inner (nu lam : Qc) (t1_data t2_data : list scalar) (i : nat)
    (js : list nat) (matrix : carray) : result carray :=
  let mi := row_of i in
  let ai := other_row mi in
  for_each js (cell nu lam t1_data t2_data mi ai i) matrix.

(** One outer iteration.  The state is the buffer and the local variable
    [mi].  The [else] branch of the inner [for] runs whenever that loop
    ends, since the loop has no [break]. *)
Definition outer (m : nat) (nu lam : Qc) (t1_data t2_data : list scalar)
    (i : nat) (st : carray * nat) : result (carray * nat) :=
  matrix ← inner nu lam t1_data t2_data i (range 1 m) st.1;
  Ok (jit_set matrix 0 0 Inf, row_of i).

(** The outer loop over the rows [rows]; [mi] reads [0] as long as no
    iteration has assigned it. *)
Definition sweep (m : nat) (nu lam : Qc) (t1_data t2_data : list scalar)
    (rows : list nat) (matrix : carray) : result (carray * nat) :=
  for_each rows (outer m nu lam t1_data t2_data) (matrix, 0%nat).

Definition _calculateCosts (matrix : carray) (n m : nat) (nu lam : Qc)
    (t1_data t2_data : list scalar) : result cost :=
  st ← sweep m nu lam t1_data t2_data (range 1 n) matrix;
  Ok (jit_get_int st.1 (Z.of_nat st.2) (Z.of_nat m - 1)).

Definition calculateCosts (heap : nat → cost) (self : t) : result cost :=
  matrix ← _init_matrix self;
  _calculateCosts (to_carray matrix heap) (n self) (m self) (_nu self)
    (_lambda self) (t1 self) (t2 self).

(** [memTWED(t1, t2, _lambda, _nu, failOnDifferingLengths).calculateCosts()]
    in a process where [heap] lies behind the buffer. *)
Definition run (heap : nat → cost) (t1 t2 : list scalar) (_lambda _nu : Qc)
    (failOnDifferingLengths : bool) : list string * result cost :=
  let (out, r) := __init__ t1 t2 _lambda _nu failOnDifferingLengths in
  (out, self ← r; calculateCosts heap self).

End memTWED.


(** ** The batch engine, [class multiTWED] *)

(** The argument [t2] of the batch engine is a NumPy array.  From rows of
    one common length NumPy builds a two-dimensional array, whose shape is
    [(len rows, ncols)]; from rows of differing lengths it builds a
    one-dimensional array holding one object per row.  Arrays of another
    number of dimensions are not part of the model. *)
Inductive ndarray : Type :=
| Array1D (items : list (list scalar))
| Array2D (ncols : nat) (rows : list (list scalar)).

(** [len(a)] *)
Definition np_len (a : ndarray) : nat :=
  match a with
  | Array1D items => length items
  | Array2D _ rows => length rows
  end.

(** [a.shape] *)
Definition np_shape (a : ndarray) : list nat :=
  match a with
  | Array1D items => [length items]
  | Array2D ncols rows => [length rows; ncols]
  end.

(** An index [i] on an axis of [size] entries, for [i] not negative. *)
Definition check_axis (size i : nat) : result unit :=
  if decide (i < size)%nat then Ok tt else Raise IndexError.

(** [a[:, j]]: one index too many for a one-dimensional array. *)
Definition np_column (a : ndarray) (j : nat) : result (list scalar) :=
  match a with
  | Array1D _ => Raise IndexError
  | Array2D ncols rows =>
      _ ← check_axis ncols j; map_result (λ row, getitem row j) rows
  end.

(** The three-dimensional buffer of shape [(numSeries, 2, n)]: one two-row
    buffer per target series. *)
Abbreviation array3 := (list (list (list cost))).

(** [np.zeros((k, rows, cols))] *)
Definition zeros3 (k rows cols : nat) : array3 :=
  replicate k (zeros rows cols).

(** [mat[:, r, j]] on a buffer with [n] columns. *)
Definition get_slice (n : nat) (mat : array3) (r j : nat)
    : result (list cost) :=
  _ ← check_axis 2 r; _ ← check_axis n j;
  map_result (λ buf, get2 buf r j) mat.

(** [mat[:, r, j] = v] for a vector [v] with one entry per series. *)
Definition set_slice (n : nat) (mat : array3) (r j : nat) (v : list cost)
    : result array3 :=
  _ ← check_axis 2 r; _ ← check_axis n j;
  map_result (λ bx, set2 bx.1 r j bx.2) (zip mat v).

Module multiTWED.

Record t : Type := Build {
  t1 : list scalar;
  t2 : ndarray;
  _lambda : Qc;
  _nu : Qc;
  n : nat;
  m : nat;
  numSeries : nat
}.

Definition __init__ (t1 : list scalar) (t2 : ndarray) (_lambda _nu : Qc)
    : result t :=
  _ ← py_assert (bool_decide (0 ≤ _nu)) NuNegative;
  let self :=
    Build t1 t2 _lambda _nu (length t1) (length t1) (np_len t2) in
  _ ← py_assert (bool_decide (length (np_shape t2) = 2%nat)) NotAMatrix;
  Ok self.

Definition _init_matrix (self : t) : result array3 :=
  let matrix := zeros3 (numSeries self) 2 (n self) in
  (* matrix[:, 0, :] = np.inf *)
  matrix ← map_result (λ buf, set_row buf 0 Inf) matrix;
  (* matrix[:, :, 0] = np.inf *)
  _ ← check_axis (n self) 0;
  matrix ← map_result (λ buf, set_col buf 0 Inf) matrix;
  (* matrix[:, 0, 0] = 0 *)
  set_slice (n self) matrix 0 0 (replicate (length matrix) (Fin 0)).

(** The body of the inner loop; every cell is a vector with one cost per
    target series. *)
Definition cell (n : nat) (nu lam : Qc) (t1_data : list scalar)
    (t2_data : ndarray) (mi ai i j : nat) (matrix : array3)
    : result array3 :=
  let iz := Z.of_nat i in
  let jz := Z.of_nat j in
  a ← get_slice n matrix ai j;
  x0 ← getitem t1_data (i - 1);
  x1 ← getitem t1_data i;
  let _deleteA :=
    (λ a, cost_add (cost_add (cost_add a (absdiff x0 x1))
                             (nu * Z2Qc (iz - (iz - 1)))) lam) <$> a in
  b ← get_slice n matrix mi (j - 1);
  y0 ← np_column t2_data (j - 1);
  y1 ← np_column t2_data j;
  let _deleteB :=
    zip_with (λ b d, cost_add (cost_add (cost_add b d)
                                        (nu * Z2Qc (jz - (jz - 1)))) lam)
      b (zip_with (λ y0 y1, absdiff y0 y1) y0 y1) in
  c ← get_slice n matrix ai (j - 1);
  let _match :=
    (λ ce, cost_add ce
             (nu * Z2Qc (Z.abs (iz - jz) + Z.abs ((iz - 1) - (jz - 1)))))
    <$> (zip_with cost_add
         (zip_with cost_add c ((λ y1, absdiff x1 y1) <$> y1))
         ((λ y0, absdiff x0 y0) <$> y0)) in
  (* np.min(np.stack((_deleteA, _deleteB, _match), axis=1), axis=1) *)
  let least :=
    zip_with (λ a bc, np_min3 a bc.1 bc.2) _deleteA (zip _deleteB _match) in
  set_slice n matrix mi j least.

Definition row_of (i : nat) : nat := i mod 2.
Definition other_row (mi : nat) : nat := Z.to_nat (Z.abs (Z.of_nat mi - 1)).

Definition inner (n : nat) (nu lam : Qc) (t1_data : list scalar)
    (t2_data : ndarray) (i : nat) (js : list nat) (matrix : array3)
    : result array3 :=
  let mi := row_of i in
  let ai := other_row mi in
  for_each js (cell n nu lam t1_data t2_data mi ai i) matrix.

Definition outer (n m : nat) (nu lam : Qc) (t1_data : list scalar)
    (t2_data : ndarray) (i : nat) (st : array3 * option nat)
    : result (array3 * option nat) :=
  matrix ← inner n nu lam t1_data t2_data i (range 1 m) st.1;
  (* else: matrix[:, 0, 0] = np.inf *)
  matrix ← set_slice n matrix 0 0 (replicate (length matrix) Inf);
  Ok (matrix, Some (row_of i)).

Definition sweep (n m : nat) (nu lam : Qc) (t1_data : list scalar)
    (t2_data : ndarray) (rows : list nat) (matrix : array3)
    : result (array3 * option nat) :=
  for_each rows (outer n m nu lam t1_data t2_data) (matrix, None).

Definition calculateCosts (self : t) : result (list cost) :=
  matrix ← _init_matrix self;
  st ← sweep (n self) (m self) (_nu self) (_lambda self) (t1 self)
         (t2 self) (range 1 (n self)) matrix;
  match st.2 with
  | None => Raise UnboundLocalError
  | Some mi =>
      (* matrix[:, mi, self.m-1] *)
      r ← py_index 2 (Z.of_nat mi);
      j ← py_index (n self) (Z.of_nat (m self) - 1);
      map_result (λ buf, get2 buf r j) st.1
  end.

(** [multiTWED(t1, t2, _lambda, _nu).calculateCosts()] *)
Definition run (t1 : list scalar) (t2 : ndarray) (_lambda _nu : Qc)
    : result (list cost) :=
  self ← __init__ t1 t2 _lambda _nu; calculateCosts self.

End multiTWED.


(** * Reading the model *)

#[global] Instance assertion_eq_dec : EqDecision assertion.
Proof. solve_decision. Defined.
#[global] Instance exn_eq_dec : EqDecision exn.
Proof. solve_decision. Defined.
#[global] Instance string_eq_dec : EqDecision string := String.string_dec.
#[global] Instance cost_eq_dec : EqDecision cost.
Proof. solve_decision. Defined.
#[global] Instance result_eq_dec {A : Type} `{EqDecision A}
  : EqDecision (result A).
Proof. solve_decision. Defined.

(** The rational [z], for costs and parameters that are whole numbers. *)
Definition q (z : Z) : Qc := Z2Qc z.

(** The class constants [_LAMBDA = 0.001] and [_NU = 0.5], the default
    parameters of the three constructors. *)
Definition _LAMBDA : Qc := Q2Qc (1 # 1000).
Definition _NU : Qc := Q2Qc (1 # 2).

(** The cell [(i, j)] of a matrix, when it exists. *)
Definition at2 (mat : array2) (i j : nat) : option cost :=
  row ← mat !! i; row !! j.

(** The matrix with cell [(i, j)] replaced. *)
Definition upd2 (mat : array2) (i j : nat) (x : cost) : array2 :=
  alter (<[j:=x]>) i mat.

(** A matrix of [r] rows that all have [c] entries. *)
Definition shape2 (r c : nat) (mat : array2) : Prop :=
  length mat = r ∧ Forall (λ row, length row = c) mat.

(** [l[i]] as a total function. *)
Definition sample (l : list scalar) (i : nat) : scalar :=
  default (F64 0) (l !! i).

(** A sample whose differences with other such samples do not leave the
    range of its dtype. *)
Definition small (x : scalar) : Prop :=
  match x with
  | I64 z => (- 2 ^ 62 ≤ z < 2 ^ 62)%Z
  | F64 _ => True
  end.

(** The value the inner loop body stores, from the three cells it reads:
    [up] in the previous row, [left] in the current row, [diag] in the
    previous row one column to the left.  With the default time stamps
    [1, 2, ...] each time gap of a deletion is [1] and both time gaps of a
    match are [|i - j|]. *)
Definition cell_value (nu lam : Qc) (x0 x1 y0 y1 : scalar) (i j : nat)
    (up left diag : cost) : cost :=
  py_min3
    (cost_add (cost_add (cost_add up (absdiff x0 x1)) (nu * Z2Qc 1)) lam)
    (cost_add (cost_add (cost_add left (absdiff y0 y1)) (nu * Z2Qc 1)) lam)
    (cost_add (cost_add (cost_add diag (absdiff x1 y1)) (absdiff x0 y0))
       (nu * Z2Qc (2 * Z.abs (Z.of_nat i - Z.of_nat j)))).

(** ** The recurrence of the specification

    The conceptual full matrix: the origin is [0], the rest of row [0] and
    of column [0] is infinite, every other entry is the least of the three
    candidates. *)
Section Recurrence.

Variables (nu lam : Qc) (A B : list scalar).

Definition entry (i j : nat) (up left diag : cost) : cost :=
  cell_value nu lam (sample A (i - 1)) (sample A i)
    (sample B (j - 1)) (sample B j) i j up left diag.

Fixpoint twed_row (i : nat) (prev : nat → cost) (j : nat) : cost :=
  match j with
  | O => Inf
  | S j' => entry i (S j') (prev (S j')) (twed_row i prev j') (prev j')
  end.

Fixpoint twed (i : nat) : nat → cost :=
  match i with
  | O => λ j, match j with O => Fin 0 | S _ => Inf end
  | S i' => twed_row (S i') (twed i')
  end.

End Recurrence.

(** ** Invariants of the sweeps *)

(** A two-row buffer with checked indices, as each plane of the batch
    engine is, in outer iteration [i], before column [j] is written: the
    previous row holds row [i - 1] of the conceptual matrix, the current
    row holds row [i] up to column [j], and column [0] of physical row [1]
    is still infinite. *)
Definition mem_inv (nu lam : Qc) (A B : list scalar) (i j : nat)
    (buf : array2) : Prop :=
  shape2 2 (length A) buf ∧
  (∀ b, (b < length B)%nat →
     at2 buf (memTWED.other_row (memTWED.row_of i)) b
     = Some (twed nu lam A B (i - 1) b)) ∧
  (∀ b, (b < j)%nat →
     at2 buf (memTWED.row_of i) b = Some (twed nu lam A B i b)) ∧
  at2 buf 1 0 = Some Inf.

(** The same for the buffer of the rolling engine in compiled code, whose
    two rows are the cells [0 .. n-1] and [n .. 2n-1]. *)
Definition jit_inv (nu lam : Qc) (A B : list scalar) (i j : nat)
    (a : carray) : Prop :=
  shape0 a = 2%nat ∧ shape1 a = length A ∧
  (∀ b, (b < length B)%nat →
     jit_get a (memTWED.other_row (memTWED.row_of i)) b
     = twed nu lam A B (i - 1) b) ∧
  (∀ b, (b < j)%nat →
     jit_get a (memTWED.row_of i) b = twed nu lam A B i b) ∧
  jit_get a 1 0 = Inf.

(** The state of the outer loop when iteration [i] starts: the buffer and
    the local variable [mi]. *)
Definition jit_outer_inv (nu lam : Qc) (A B : list scalar) (i : nat)
    (st : carray * nat) : Prop :=
  jit_inv nu lam A B i 1 st.1 ∧
  st.2 = if decide (i = 1)%nat then 0%nat else memTWED.row_of (i - 1).

(** The cells behind a buffer of [size] cells are those of [heap]. *)
Definition heap_intact (size : nat) (heap : nat → cost) (a : carray)
    : Prop :=
  ∀ k, cells a (size + k)%nat = heap k.

(** A cell of the full matrix after [k] rounds of the loop of
    [TWED._init_matrix]: round [i] has written [(i, 0)] and [(0, i)]. *)
Definition TWED_init_cell (k a b : nat) : cost :=
  if decide ((b = 0 ∧ a < k) ∨ (a = 0 ∧ b < k))%nat then Inf else Fin 0.

(** A cell of the matrix [TWED._init_matrix(n, m)] returns. *)
Definition TWED_sentinel (n a b : nat) : cost :=
  if decide (a = 0 ∧ b = 0)%nat then Fin 0 else TWED_init_cell n a b.

Definition TWED_init_inv (n m k : nat) (mat : array2) : Prop :=
  shape2 n m mat ∧
  ∀ a b, (a < n)%nat → (b < m)%nat →
    at2 mat a b = Some (TWED_init_cell k a b).

(** The full matrix in outer iteration [i], before column [j] is written:
    the boundary, the rows above [i] and row [i] up to column [j] hold the
    conceptual matrix. *)
Definition naive_inv (nu lam : Qc) (A B : list scalar) (i j : nat)
    (mat : array2) : Prop :=
  shape2 (length A) (length B) mat ∧
  ∀ a b, (a < length A)%nat → (b < length B)%nat →
    (a = 0 ∨ b = 0 ∨ a < i ∨ (a = i ∧ b < j))%nat →
    at2 mat a b = Some (twed nu lam A B a b).

(** Plane [p] of the batch buffer is the rolling buffer of the pair
    [(A, rows[p])], for target series as long as the reference series. *)
Definition plane_inv (nu lam : Qc) (A : list scalar) (i j : nat)
    (B : list scalar) (buf : array2) : Prop :=
  length B = length A ∧ mem_inv nu lam A B i j buf.

(** The state of the batch engine when outer iteration [i] starts. *)
Definition multi_outer_inv (nu lam : Qc) (A : list scalar)
    (rows : list (list scalar)) (i : nat)
    (st : array3 * option nat) : Prop :=
  Forall2 (plane_inv nu lam A i 1) rows st.1 ∧
  st.2 = if decide (i = 1)%nat then None else Some (memTWED.row_of (i - 1)).

(** ** Comparing two runs *)





(** Two buffers of one shape that hold the same costs in the cells below
    [limit]. *)
Definition agree_below (limit : nat) (a1 a2 : carray) : Prop :=
  shape0 a1 = shape0 a2 ∧ shape1 a1 = shape1 a2 ∧
  ∀ k, (k < limit)%nat → cells a1 k = cells a2 k.

(** The cells the compiled sweep over [A] and [B] can reach: the buffer,
    and [len(B) - len(A)] cells behind it when [B] is the longer one. *)
Definition reach (A B : list scalar) : nat :=
  Nat.max (2 * length A) (length A + length B).

(** A cost that is not [np.inf]. *)
Definition finite (c : cost) : Prop := ∃ x, c = Fin x.

(** Every cell from [lo] up to [hi], not included, holds a finite cost. *)
Definition finite_from (lo hi : nat) (a : carray) : Prop :=
  ∀ k, (lo ≤ k < hi)%nat → finite (cells a k).

(** What [matrix[0, m-1]] reads on the buffer of a reference series of one
    sample, whose two cells are [0] and [np.inf]: the index [-1] is the
    last column, which is column [0], and from [m = 3] on the cell lies
    behind the buffer. *)
Definition one_sample_cost (heap : nat → cost) (m : nat) : cost :=
  match m with
  | 0%nat | 1%nat => Fin 0
  | 2%nat => Inf
  | S (S (S k)) => heap k
  end.

(** * Lemmas *)

(** ** Results and array access *)

Ltac rsimpl :=
  cbn [mbind result_bind mret result_ret fmap result_fmap option_bind] in *.

Lemma bind_Ok {A B : Type} (r : result A) (f : A → result B) (b : B) :
  r ≫= f = Ok b ↔ ∃ a, r = Ok a ∧ f a = Ok b.
Proof.
  destruct r as [a|e]; simpl; split.
  - intros H. by exists a.
  - by intros (a' & [= ->] & H).
  - done.
  - by intros (a' & [=] & _).
Qed.

Lemma getitem_Ok {A : Type} (l : list A) (i : nat) (x : A) :
  getitem l i = Ok x ↔ l !! i = Some x.
Proof. unfold getitem. destruct (l !! i); naive_solver. Qed.

Lemma getitem_lookup {A : Type} (l : list A) (i : nat) (x : A) :
  l !! i = Some x → getitem l i = Ok x.
Proof. apply getitem_Ok. Qed.

Lemma get2_at2 (mat : array2) (i j : nat) :
  get2 mat i j =
  match at2 mat i j with Some x => Ok x | None => Raise IndexError end.
Proof.
  unfold get2, at2, getitem. destruct (mat !! i) as [row|]; rsimpl; [|done].
  by destruct (row !! j).
Qed.

Lemma set2_at2 (mat : array2) (i j : nat) (x : cost) :
  set2 mat i j x =
  match at2 mat i j with
  | Some _ => Ok (upd2 mat i j x)
  | None => Raise IndexError
  end.
Proof.
  unfold set2, at2, upd2, getitem, setitem.
  destruct (mat !! i) as [row|] eqn:Hrow; rsimpl; [|done].
  destruct (row !! j) as [y|] eqn:Hy.
  - apply lookup_lt_Some in Hy as Hlt. rewrite decide_True by done. rsimpl.
    apply lookup_lt_Some in Hrow as Hi. rewrite decide_True by done.
    f_equal. symmetry. apply list_eq. intros k.
    destruct (decide (k = i)) as [->|Hne].
    + rewrite list_lookup_alter_eq, list_lookup_insert_eq by done. by rewrite Hrow.
    + by rewrite list_lookup_alter_ne, list_lookup_insert_ne by done.
  - apply lookup_ge_None in Hy. rewrite decide_False by lia. done.
Qed.

Lemma at2_upd2_eq (mat : array2) (i j : nat) (x : cost) :
  is_Some (at2 mat i j) → at2 (upd2 mat i j x) i j = Some x.
Proof.
  unfold at2, upd2. intros [y Hy]. rewrite list_lookup_alter_eq.
  destruct (mat !! i) as [row|]; simpl in *; [|done].
  apply list_lookup_insert_eq. by eapply lookup_lt_Some.
Qed.

Lemma at2_upd2_ne (mat : array2) (i j a b : nat) (x : cost) :
  (a ≠ i ∨ b ≠ j) → at2 (upd2 mat i j x) a b = at2 mat a b.
Proof.
  unfold at2, upd2. intros H. destruct (decide (a = i)) as [->|Hne].
  - rewrite list_lookup_alter_eq. destruct (mat !! i) as [row|]; simpl; [|done].
    apply list_lookup_insert_ne. by destruct H.
  - by rewrite list_lookup_alter_ne.
Qed.

Lemma shape2_upd2 (r c : nat) (mat : array2) (i j : nat) (x : cost) :
  shape2 r c mat → shape2 r c (upd2 mat i j x).
Proof.
  unfold shape2, upd2. intros [Hr Hc]. split.
  - by rewrite length_alter.
  - apply Forall_alter; [done|]. intros row _ <-. apply length_insert.
Qed.

Lemma shape2_at2 (r c : nat) (mat : array2) (i j : nat) :
  shape2 r c mat → is_Some (at2 mat i j) ↔ (i < r ∧ j < c)%nat.
Proof.
  unfold shape2, at2. intros [Hr Hc]. split.
  - intros [y Hy]. destruct (mat !! i) as [row|] eqn:Hrow; simpl in *; [|done].
    split; [rewrite <- Hr; by eapply lookup_lt_Some|].
    rewrite Forall_lookup in Hc. rewrite <- (Hc _ _ Hrow). by eapply lookup_lt_Some.
  - intros [Hi Hj]. destruct (lookup_lt_is_Some_2 mat i) as [row Hrow]; [lia|].
    rewrite Hrow. simpl. apply lookup_lt_is_Some_2.
    rewrite Forall_lookup in Hc. by rewrite (Hc _ _ Hrow).
Qed.

(** ** The two physical rows *)

Lemma row_of_lt (i : nat) : (memTWED.row_of i < 2)%nat.
Proof. unfold memTWED.row_of. apply Nat.mod_upper_bound. lia. Qed.

Lemma other_row_spec (mi : nat) :
  (mi < 2)%nat → memTWED.other_row mi = (1 - mi)%nat.
Proof. unfold memTWED.other_row. lia. Qed.

Lemma row_of_S (i : nat) : memTWED.row_of (S i) = (1 - memTWED.row_of i)%nat.
Proof.
  unfold memTWED.row_of.
  pose proof (Nat2Z.inj_mod i 2). pose proof (Nat2Z.inj_mod (S i) 2).
  Z.to_euclidean_division_equations. lia.
Qed.

(** ** Loops *)

Lemma for_each_app {S : Type} (xs ys : list nat)
    (body : nat → S → result S) (s : S) :
  for_each (xs ++ ys) body s = s' ← for_each xs body s; for_each ys body s'.
Proof.
  revert s. induction xs as [|x xs IH]; intros s; simpl; [done|].
  destruct (body x s) as [s'|e]; rsimpl; [apply IH|done].
Qed.

Lemma range_S (a b : nat) : (a ≤ b)%nat → range a (S b) = range a b ++ [b].
Proof.
  intros H. unfold range. replace (S b - a)%nat with (S (b - a)) by lia.
  rewrite seq_S. do 2 f_equal. lia.
Qed.

Lemma range_nil (a b : nat) : (b ≤ a)%nat → range a b = [].
Proof. intros H. unfold range. by replace (b - a)%nat with 0%nat by lia. Qed.

Lemma range_cons (a b : nat) : (a < b)%nat → range a b = a :: range (S a) b.
Proof.
  intros H. unfold range. replace (b - a)%nat with (S (b - S a)) by lia. done.
Qed.

(** Loop invariant rule for [for k in range(a, b)]. *)
Lemma for_range_inv {S : Type} (P : nat → S → Prop)
    (body : nat → S → result S) (a b : nat) (s : S) :
  (a ≤ b)%nat →
  P a s →
  (∀ k s, (a ≤ k < b)%nat → P k s →
     ∃ s', body k s = Ok s' ∧ P (Datatypes.S k) s') →
  ∃ s', for_each (range a b) body s = Ok s' ∧ P b s'.
Proof.
  intros Hab H0 Hstep. induction b as [|b IH].
  - assert (a = 0)%nat as -> by lia. exists s. by rewrite range_nil.
  - destruct (decide (a = Datatypes.S b)) as [->|Hne].
    { exists s. by rewrite range_nil. }
    destruct IH as (s1 & Hs1 & HP1); [lia| |].
    { intros k s0 Hk. apply Hstep. lia. }
    destruct (Hstep b s1) as (s2 & Hs2 & HP2); [lia|done|].
    exists s2. rewrite range_S, for_each_app, Hs1 by lia. rsimpl.
    simpl. rewrite Hs2. done.
Qed.

(** ** Reads that stay inside the arrays *)

Lemma getitem_sample (l : list scalar) (i : nat) :
  (i < length l)%nat → getitem l i = Ok (sample l i).
Proof.
  intros H. destruct (lookup_lt_is_Some_2 l i H) as [x Hx].
  unfold getitem, sample. by rewrite Hx.
Qed.

Lemma py_index_nat (size i : nat) :
  (i < size)%nat → py_index size (Z.of_nat i) = Ok i.
Proof.
  intros H. unfold py_index. rewrite decide_True by lia. by rewrite Nat2Z.id.
Qed.

Lemma get2_int_at2 (mat : array2) (i j : nat) (x : cost) :
  at2 mat i j = Some x → get2_int mat (Z.of_nat i) (Z.of_nat j) = Ok x.
Proof.
  unfold at2, get2_int, getitem_int. intros H.
  destruct (mat !! i) as [row|] eqn:Hrow; simpl in H; [|done].
  rewrite py_index_nat by (by eapply lookup_lt_Some). rsimpl.
  rewrite (getitem_lookup _ _ _ Hrow). rsimpl.
  rewrite py_index_nat by (by eapply lookup_lt_Some). rsimpl.
  by apply getitem_lookup.
Qed.

(** ** The recurrence *)

Section Recurrence_facts.

Variables (nu lam : Qc) (A B : list scalar).

Lemma twed_col0 (i : nat) : (1 ≤ i)%nat → twed nu lam A B i 0 = Inf.
Proof. by destruct i; [lia|]. Qed.

Lemma twed_row0 (j : nat) : (1 ≤ j)%nat → twed nu lam A B 0 j = Inf.
Proof. by destruct j; [lia|]. Qed.

Lemma twed_unfold (i j : nat) :
  (1 ≤ i)%nat → (1 ≤ j)%nat →
  twed nu lam A B i j
  = entry nu lam A B i j (twed nu lam A B (i - 1) j)
      (twed nu lam A B i (j - 1)) (twed nu lam A B (i - 1) (j - 1)).
Proof.
  destruct i as [|i]; [lia|]. destruct j as [|j]; [lia|]. intros _ _.
  simpl. by rewrite !Nat.sub_0_r.
Qed.

End Recurrence_facts.

(** ** Samples *)

Lemma Z2Qc_nonneg (z : Z) : (0 ≤ z)%Z → 0 ≤ Z2Qc z.
Proof.
  intros Hz. unfold Z2Qc, Qcle. cbn [this Q2Qc]. rewrite !Qred_correct.
  unfold Qle. cbn. lia.
Qed.

Lemma Z2Qc_opp (z : Z) : Z2Qc (- z) = - Z2Qc z.
Proof.
  unfold Z2Qc, Qcopp. apply Q2Qc_eq_iff. cbn [this Q2Qc].
  rewrite Qred_correct. by rewrite inject_Z_opp.
Qed.

Lemma Z2Qc_sub (a b : Z) : Z2Qc (a - b) = Z2Qc a - Z2Qc b.
Proof.
  unfold Z2Qc, Qcminus, Qcplus, Qcopp. apply Q2Qc_eq_iff. cbn [this Q2Qc].
  rewrite !Qred_correct. unfold Z.sub.
  by rewrite inject_Z_plus, inject_Z_opp.
Qed.

Lemma Z2Qc_abs (z : Z) : Z2Qc (Z.abs z) = Qcabs (Z2Qc z).
Proof.
  destruct (Z.abs_spec z) as [[Hz ->]|[Hz ->]].
  - symmetry. apply Qcabs_pos. by apply Z2Qc_nonneg.
  - rewrite Z2Qc_opp. symmetry. apply Qcabs_neg.
    rewrite <- (Qcopp_involutive (Z2Qc z)), <- Z2Qc_opp.
    change 0 with (- 0). apply Qcopp_le_compat. apply Z2Qc_nonneg. lia.
Qed.

Lemma wrap64_small (z : Z) : (- 2 ^ 63 ≤ z < 2 ^ 63)%Z → wrap64 z = z.
Proof. unfold wrap64. intros H. Z.to_euclidean_division_equations. lia. Qed.

Lemma wrap64_abs_swap (a b : Z) :
  wrap64 (Z.abs (wrap64 (a - b))) = wrap64 (Z.abs (wrap64 (b - a))).
Proof.
  assert ((wrap64 (b - a) = - wrap64 (a - b))%Z
          ∨ (wrap64 (a - b) = - 2 ^ 63 ∧ wrap64 (b - a) = - 2 ^ 63)%Z)
    as [->|[-> ->]]; [|by rewrite Z.abs_opp|done].
  unfold wrap64. Z.to_euclidean_division_equations. lia.
Qed.

(** [|x - y| = |y - x|], also where the difference wraps around. *)
Lemma absdiff_sym (x y : scalar) : absdiff x y = absdiff y x.
Proof.
  unfold absdiff. destruct x as [a|p], y as [b|r]; cbn.
  - by rewrite wrap64_abs_swap.
  - apply Qcabs_Qcminus.
  - apply Qcabs_Qcminus.
  - apply Qcabs_Qcminus.
Qed.

Lemma absdiff_self (x : scalar) : absdiff x x = 0.
Proof.
  unfold absdiff. destruct x as [a|p]; cbn.
  - by rewrite Z.sub_diag.
  - replace (p - p) with (0 : Qc) by ring. by apply Qcabs_pos.
Qed.

(** For samples inside the bound the distance is the exact one. *)
Lemma absdiff_exact (x y : scalar) :
  small x → small y → absdiff x y = Qcabs (to_float x - to_float y).
Proof.
  unfold absdiff. destruct x as [a|p], y as [b|r]; cbn; try done.
  intros Ha Hb. rewrite (wrap64_small (a - b)) by lia.
  rewrite wrap64_small by lia. by rewrite Z2Qc_abs, Z2Qc_sub.
Qed.

Lemma absdiff_nonneg (x y : scalar) : small x → small y → 0 ≤ absdiff x y.
Proof. intros Hx Hy. rewrite absdiff_exact by done. apply Qcabs_nonneg. Qed.

Lemma sample_small (l : list scalar) (i : nat) :
  Forall small l → small (sample l i).
Proof.
  intros Hl. unfold sample. destruct (l !! i) as [x|] eqn:Hx; [|done].
  rewrite Forall_lookup in Hl. by apply (Hl i).
Qed.

(** ** Arrays in compiled code *)

Lemma jit_get_set_eq (a : carray) (r c : nat) (x : cost) :
  jit_get (jit_set a r c x) r c = x.
Proof. unfold jit_get, jit_set. cbn. apply fn_lookup_insert. Qed.

Lemma jit_get_set_ne (a : carray) (r c r' c' : nat) (x : cost) :
  (r * shape1 a + c ≠ r' * shape1 a + c')%nat →
  jit_get (jit_set a r c x) r' c' = jit_get a r' c'.
Proof. intros H. unfold jit_get, jit_set. cbn. by apply fn_lookup_insert_ne. Qed.

Lemma cells_set_ne (a : carray) (r c k : nat) (x : cost) :
  (r * shape1 a + c ≠ k)%nat → cells (jit_set a r c x) k = cells a k.
Proof. intros H. unfold jit_set. cbn. by apply fn_lookup_insert_ne. Qed.

(** Row after row: cell [(r, c)] of a matrix with rows of [w] entries is
    entry [r * w + c] of the flattened matrix. *)
Lemma concat_lookup_rows (w r c : nat) (mat : array2) (x : cost) :
  Forall (λ row, length row = w) mat →
  at2 mat r c = Some x → concat mat !! (r * w + c)%nat = Some x.
Proof.
  intros Hmat. revert r. induction Hmat as [|row mat Hrow _ IH]; intros r.
  { by destruct r. }
  destruct r as [|r]; cbn.
  - intros Hc. by apply lookup_app_l_Some.
  - intros Hx. rewrite lookup_app_r by lia.
    replace (w + r * w + c - length row)%nat with (r * w + c)%nat by lia.
    by apply IH.
Qed.

Lemma concat_length_rows (h w : nat) (mat : array2) :
  shape2 h w mat → length (concat mat) = (h * w)%nat.
Proof.
  intros [<- Hmat]. induction Hmat as [|row mat Hrow _ IH]; [done|].
  cbn. rewrite length_app. lia.
Qed.

Lemma to_carray_shape (h w : nat) (mat : array2) (heap : nat → cost) :
  shape2 (S h) w mat →
  shape0 (to_carray mat heap) = S h ∧ shape1 (to_carray mat heap) = w.
Proof.
  intros [Hlen Hmat]. destruct mat as [|row mat]; [done|].
  split; [done|]. cbn. by inversion Hmat.
Qed.

Lemma to_carray_cells (h w r c : nat) (mat : array2) (heap : nat → cost)
    (x : cost) :
  shape2 h w mat → at2 mat r c = Some x →
  cells (to_carray mat heap) (r * w + c) = x.
Proof.
  intros Hshape Hx. cbn.
  by rewrite (concat_lookup_rows w r c mat x) by (done || apply Hshape).
Qed.

(** Inside the array the compiled code reads what the interpreter reads. *)
Lemma to_carray_at2 (h w r c : nat) (mat : array2) (heap : nat → cost)
    (x : cost) :
  shape2 (S h) w mat → at2 mat r c = Some x →
  jit_get (to_carray mat heap) r c = x.
Proof.
  intros Hshape Hx. unfold jit_get.
  rewrite (proj2 (to_carray_shape h w mat heap Hshape)).
  by apply (to_carray_cells (S h)).
Qed.

Lemma to_carray_heap (h w : nat) (mat : array2) (heap : nat → cost) :
  shape2 h w mat → heap_intact (h * w) heap (to_carray mat heap).
Proof.
  intros Hshape k. cbn.
  rewrite lookup_ge_None_2 by (rewrite (concat_length_rows h w) by done; lia).
  cbn. f_equal. rewrite (concat_length_rows h w) by done. lia.
Qed.

(** ** The rolling engine computes the recurrence *)

(** The inner loop body of the rolling engine reads three cells and writes
    one, wherever they lie. *)
Lemma jit_cell_entry (nu lam : Qc) (A B : list scalar) (mi ai i j : nat)
    (a : carray) :
  (1 ≤ i < length A)%nat → (1 ≤ j < length B)%nat →
  memTWED.cell nu lam A B mi ai i j a
  = Ok (jit_set a mi j
          (entry nu lam A B i j (jit_get a ai j) (jit_get a mi (j - 1))
             (jit_get a ai (j - 1)))).
Proof.
  intros Hi Hj. unfold memTWED.cell. cbv zeta.
  rewrite !getitem_sample by lia. rsimpl. do 2 f_equal.
  unfold entry, cell_value.
  replace (Z.of_nat i - (Z.of_nat i - 1))%Z with 1%Z by lia.
  replace (Z.of_nat j - (Z.of_nat j - 1))%Z with 1%Z by lia.
  replace (Z.abs (Z.of_nat i - Z.of_nat j)
           + Z.abs (Z.of_nat i - 1 - (Z.of_nat j - 1)))%Z
    with (2 * Z.abs (Z.of_nat i - Z.of_nat j))%Z by lia.
  done.
Qed.

Section JitSweep.

Variables (nu lam : Qc) (A B : list scalar).
Hypothesis Hwidth : (length B ≤ length A)%nat.

(** One step of the inner loop keeps the invariant. *)
Lemma jit_cell_inv (i j : nat) (a : carray) :
  (1 ≤ i < length A)%nat → (1 ≤ j < length B)%nat →
  jit_inv nu lam A B i j a →
  ∃ a', memTWED.cell nu lam A B (memTWED.row_of i)
          (memTWED.other_row (memTWED.row_of i)) i j a = Ok a'
        ∧ jit_inv nu lam A B i (S j) a'.
Proof.
  intros Hi Hj (Hrows & Hcols & Hprev & Hcur & Hcol).
  pose proof (row_of_lt i) as Hmi.
  pose proof (other_row_spec _ Hmi) as Hai.
  eexists. split; [by apply jit_cell_entry|].
  rewrite (Hprev j), (Hcur (j - 1)%nat), (Hprev (j - 1)%nat) by lia.
  rewrite <- twed_unfold by lia. split_and!; [done|done|..].
  - intros b Hb. rewrite jit_get_set_ne; [by apply Hprev|].
    rewrite Hai, Hcols. destruct (memTWED.row_of i) as [|[|?]]; lia.
  - intros b Hb. destruct (decide (b = j)) as [->|Hne].
    + apply jit_get_set_eq.
    + rewrite jit_get_set_ne by lia. apply Hcur. lia.
  - rewrite jit_get_set_ne; [done|].
    rewrite Hcols. destruct (memTWED.row_of i) as [|[|?]]; lia.
Qed.

(** The inner loop writes row [i] of the conceptual matrix. *)
Lemma jit_inner_inv (i : nat) (a : carray) :
  (1 ≤ i < length A)%nat →
  jit_inv nu lam A B i 1 a →
  ∃ a', memTWED.inner nu lam A B i (range 1 (length B)) a = Ok a'
        ∧ jit_inv nu lam A B i (Nat.max 1 (length B)) a'.
Proof.
  intros Hi Hinv. unfold memTWED.inner.
  destruct (decide (length B ≤ 1)%nat) as [Hle|Hgt].
  { exists a. rewrite range_nil by done. by rewrite Nat.max_l by done. }
  rewrite Nat.max_r by lia.
  apply (for_range_inv (λ j, jit_inv nu lam A B i j)); [lia|done|].
  intros j a1 Hj Hinv1. by apply jit_cell_inv.
Qed.

(** The [else] branch closes row [i] and opens row [i + 1]. *)
Lemma jit_else_inv (i : nat) (a : carray) :
  (1 ≤ i < length A)%nat →
  jit_inv nu lam A B i (Nat.max 1 (length B)) a →
  jit_inv nu lam A B (S i) 1 (jit_set a 0 0 Inf).
Proof.
  intros Hi (Hrows & Hcols & Hprev & Hcur & Hcol).
  pose proof (row_of_lt i) as Hlt. pose proof (row_of_S i) as HS.
  pose proof (other_row_spec _ Hlt) as Hai.
  pose proof (other_row_spec _ (row_of_lt (S i))) as Hai'.
  split_and!; [done|done|..].
  - intros b Hb. rewrite Hai', HS.
    replace (1 - (1 - memTWED.row_of i))%nat with (memTWED.row_of i) by lia.
    replace (S i - 1)%nat with i by lia.
    destruct (decide (memTWED.row_of i = 0 ∧ b = 0)%nat) as [[-> ->]|Hne].
    + rewrite jit_get_set_eq. by rewrite twed_col0 by lia.
    + rewrite jit_get_set_ne; [apply Hcur; lia|].
      rewrite Hcols. destruct (memTWED.row_of i) as [|[|?]]; lia.
  - intros b Hb. assert (b = 0)%nat as -> by lia.
    rewrite twed_col0 by lia.
    destruct (decide (memTWED.row_of (S i) = 0)%nat) as [->|Hne].
    + apply jit_get_set_eq.
    + replace (memTWED.row_of (S i)) with 1%nat by lia.
      rewrite jit_get_set_ne; [done|]. rewrite Hcols. lia.
  - rewrite jit_get_set_ne; [done|]. rewrite Hcols. lia.
Qed.

(** One outer iteration: the inner loop, then the [else] branch. *)
Lemma jit_outer_step (i : nat) (st : carray * nat) :
  (1 ≤ i < length A)%nat →
  jit_outer_inv nu lam A B i st →
  ∃ st', memTWED.outer (length B) nu lam A B i st = Ok st'
         ∧ jit_outer_inv nu lam A B (S i) st'.
Proof.
  intros Hi [Hinv Hmi]. unfold memTWED.outer.
  destruct (jit_inner_inv i st.1 Hi Hinv) as (a & -> & Hinv').
  rsimpl. eexists. split; [done|].
  split; cbn [fst snd].
  - by apply jit_else_inv.
  - rewrite decide_False by lia. by replace (S i - 1)%nat with i by lia.
Qed.

End JitSweep.

Lemma setitem_lt {A : Type} (l : list A) (i : nat) (x : A) :
  (i < length l)%nat → setitem l i x = Ok (<[i:=x]> l).
Proof. intros H. unfold setitem. by rewrite decide_True. Qed.

(** The buffer the rolling engine starts from, for a reference series of
    [S w] samples. *)
Lemma mem_init_matrix_eq (self : memTWED.t) (w : nat) :
  memTWED.n self = S w →
  memTWED._init_matrix self
  = Ok [Fin 0 :: replicate w Inf; Inf :: replicate w (Fin 0)].
Proof.
  intros Hn. unfold memTWED._init_matrix. rewrite Hn.
  cbn. rewrite !length_replicate.
  repeat first [rewrite setitem_lt by (cbn; lia) | progress cbn]. done.
Qed.

Lemma mem_init_matrix_empty (self : memTWED.t) :
  memTWED.n self = 0%nat → memTWED._init_matrix self = Raise IndexError.
Proof. intros Hn. unfold memTWED._init_matrix. by rewrite Hn. Qed.

Lemma init_buffer_shape (w : nat) :
  shape2 2 (S w) [Fin 0 :: replicate w Inf; Inf :: replicate w (Fin 0)].
Proof. split; [done|]. repeat constructor; cbn; by rewrite length_replicate. Qed.

(** The cells of the initial buffer. *)
Lemma init_buffer_at2 (w r c : nat) :
  (r < 2)%nat → (c < S w)%nat →
  at2 [Fin 0 :: replicate w Inf; Inf :: replicate w (Fin 0)] r c
  = Some (if decide (r = 0 ∧ c = 0)%nat then Fin 0
          else if decide (r = 0 ∨ c = 0)%nat then Inf else Fin 0).
Proof.
  intros Hr Hc. destruct r as [|[|?]]; [| |lia]; destruct c as [|c]; try done;
    cbn; apply lookup_replicate_2; lia.
Qed.

Section MemRun.

Variables (nu lam : Qc) (A B : list scalar) (heap : nat → cost).
Hypothesis Hwidth : (length B ≤ length A)%nat.

Lemma jit_init_inv (w : nat) :
  length A = S w →
  jit_outer_inv nu lam A B 1
    (to_carray [Fin 0 :: replicate w Inf; Inf :: replicate w (Fin 0)] heap,
     0%nat).
Proof.
  intros Hn. pose proof (init_buffer_shape w) as Hshape.
  destruct (to_carray_shape 1 (S w) _ heap Hshape) as [H0 H1].
  split; [|done]. cbn [fst]. split_and!; [done|congruence|..].
  - intros b Hb. change (memTWED.other_row (memTWED.row_of 1)) with 0%nat.
    apply (to_carray_at2 1 (S w)); [done|].
    rewrite init_buffer_at2 by lia. by destruct b.
  - intros b Hb. assert (b = 0)%nat as -> by lia.
    change (memTWED.row_of 1) with 1%nat.
    apply (to_carray_at2 1 (S w)); [done|]. by rewrite init_buffer_at2 by lia.
  - apply (to_carray_at2 1 (S w)); [done|]. by rewrite init_buffer_at2 by lia.
Qed.

Lemma jit_sweep_inv (w : nat) :
  length A = S w →
  ∃ st, memTWED.sweep (length B) nu lam A B (range 1 (length A))
          (to_carray [Fin 0 :: replicate w Inf; Inf :: replicate w (Fin 0)]
             heap) = Ok st
        ∧ jit_outer_inv nu lam A B (length A) st.
Proof.
  intros Hn. unfold memTWED.sweep.
  apply (for_range_inv (jit_outer_inv nu lam A B)); [lia| |].
  - by apply jit_init_inv.
  - intros i st Hi Hinv. by apply jit_outer_step.
Qed.

(** The rolling engine returns the corner of the conceptual matrix. *)
Lemma mem_calculateCosts_twed (self : memTWED.t) :
  memTWED.t1 self = A → memTWED.t2 self = B →
  memTWED._nu self = nu → memTWED._lambda self = lam →
  memTWED.n self = length A → memTWED.m self = length B →
  (2 ≤ length A)%nat → (1 ≤ length B)%nat →
  memTWED.calculateCosts heap self
  = Ok (twed nu lam A B (length A - 1) (length B - 1)).
Proof.
  intros Ht1 Ht2 Hnu Hlam Hn Hm HA HB. unfold memTWED.calculateCosts.
  assert (∃ w, length A = S w) as [w Hlen] by (exists (length A - 1)%nat; lia).
  rewrite (mem_init_matrix_eq self w) by congruence. rsimpl.
  unfold memTWED._calculateCosts. rewrite Hn, Hm, Hnu, Hlam, Ht1, Ht2.
  destruct (jit_sweep_inv w Hlen) as ([a mi] & Hsweep & Hinv & Hmi).
  rewrite Hsweep. rsimpl. cbn [fst snd] in *. f_equal.
  rewrite Hmi, decide_False by lia.
  destruct Hinv as (Hrows & Hcols & Hprev & _ & _).
  unfold jit_get_int, jit_index. rewrite Hrows, Hcols.
  rewrite !decide_False by lia. rewrite Nat2Z.id.
  replace (Z.to_nat (Z.of_nat (length B) - 1)) with (length B - 1)%nat by lia.
  pose proof (row_of_S (length A - 1)) as HS.
  replace (S (length A - 1)) with (length A) in HS by lia.
  pose proof (row_of_lt (length A - 1)) as Hlt.
  specialize (Hprev (length B - 1)%nat).
  rewrite other_row_spec, HS in Hprev by apply row_of_lt.
  replace (1 - (1 - memTWED.row_of (length A - 1)))%nat
    with (memTWED.row_of (length A - 1)) in Hprev by lia.
  apply Hprev. lia.
Qed.

End MemRun.

Lemma mem_run_twed (heap : nat → cost) (nu lam : Qc) (A B : list scalar)
    (strict : bool) :
  0 ≤ nu → (2 ≤ length A)%nat → (1 ≤ length B ≤ length A)%nat →
  (strict = true → length A = length B) →
  memTWED.run heap A B lam nu strict
  = ([], Ok (twed nu lam A B (length A - 1) (length B - 1))).
Proof.
  intros Hnu HA HB Hstrict. unfold memTWED.run, memTWED.__init__.
  rewrite bool_decide_eq_true_2 by done. cbn [py_assert].
  destruct strict.
  - cbn [memTWED.n memTWED.m]. rewrite bool_decide_eq_true_2 by auto.
    cbn [py_assert]. rsimpl. f_equal. apply mem_calculateCosts_twed; first [done | lia].
  - cbn [memTWED.n memTWED.m]. rewrite bool_decide_eq_false_2 by lia.
    rsimpl. f_equal. apply mem_calculateCosts_twed; first [done | lia].
Qed.

(** ** A two-row buffer with checked indices *)

Section PlaneSweep.

Variables (nu lam : Qc) (A B : list scalar).
Hypothesis Hwidth : (length B ≤ length A)%nat.

(** Writing entry [(i, j)] of the conceptual matrix keeps the
    invariant. *)
Lemma mem_inv_step (i j : nat) (buf : array2) :
  (1 ≤ i < length A)%nat → (1 ≤ j < length B)%nat →
  mem_inv nu lam A B i j buf →
  mem_inv nu lam A B i (S j)
    (upd2 buf (memTWED.row_of i) j (twed nu lam A B i j)).
Proof.
  intros Hi Hj (Hshape & Hprev & Hcur & Hcol).
  pose proof (row_of_lt i) as Hmi.
  pose proof (other_row_spec _ Hmi) as Hai.
  split_and!.
  - by apply shape2_upd2.
  - intros b Hb. rewrite at2_upd2_ne by lia. by apply Hprev.
  - intros b Hb. destruct (decide (b = j)) as [->|Hne].
    + apply at2_upd2_eq. apply (shape2_at2 _ _ _ _ _ Hshape). lia.
    + rewrite at2_upd2_ne by lia. apply Hcur. lia.
  - rewrite at2_upd2_ne by lia. done.
Qed.

(** The [else] branch closes row [i] and opens row [i + 1]. *)
Lemma mem_else_inv (i : nat) (buf : array2) :
  (1 ≤ i < length A)%nat →
  mem_inv nu lam A B i (Nat.max 1 (length B)) buf →
  mem_inv nu lam A B (S i) 1 (upd2 buf 0 0 Inf).
Proof.
  intros Hi (Hshape & Hprev & Hcur & Hcol).
  pose proof (row_of_lt i) as Hlt. pose proof (row_of_S i) as HS.
  pose proof (other_row_spec _ Hlt) as Hai.
  pose proof (other_row_spec _ (row_of_lt (S i))) as Hai'.
  split_and!.
  - by apply shape2_upd2.
  - intros b Hb. rewrite Hai', HS.
    replace (1 - (1 - memTWED.row_of i))%nat with (memTWED.row_of i) by lia.
    replace (S i - 1)%nat with i by lia.
    destruct (decide (memTWED.row_of i = 0 ∧ b = 0)%nat) as [[-> ->]|Hne].
    + rewrite at2_upd2_eq by (apply (shape2_at2 _ _ _ _ _ Hshape); lia).
      by rewrite twed_col0 by lia.
    + rewrite at2_upd2_ne by lia. apply Hcur. lia.
  - intros b Hb. assert (b = 0)%nat as -> by lia.
    rewrite twed_col0 by lia.
    destruct (decide (memTWED.row_of (S i) = 0)%nat) as [->|Hne].
    + apply at2_upd2_eq. apply (shape2_at2 _ _ _ _ _ Hshape). lia.
    + rewrite at2_upd2_ne by lia.
      by replace (memTWED.row_of (S i)) with 1%nat by lia.
  - rewrite at2_upd2_ne by lia. done.
Qed.

Lemma mem_init_inv (w : nat) :
  length A = S w →
  mem_inv nu lam A B 1 1
    [Fin 0 :: replicate w Inf; Inf :: replicate w (Fin 0)].
Proof.
  intros Hn. split_and!.
  - rewrite Hn. apply init_buffer_shape.
  - intros b Hb. change (memTWED.other_row (memTWED.row_of 1)) with 0%nat.
    rewrite init_buffer_at2 by lia. by destruct b.
  - intros b Hb. by assert (b = 0)%nat as -> by lia.
  - done.
Qed.

End PlaneSweep.

(** ** The recurrence is symmetric *)

Lemma cost_ltb_asym (a b : cost) : cost_ltb a b = true → cost_ltb b a = false.
Proof.
  destruct a as [x|], b as [y|]; cbn; try done.
  intros H%bool_decide_eq_true_1. apply bool_decide_eq_false_2.
  apply Qcle_not_lt. by apply Qclt_le_weak.
Qed.

Lemma cost_ltb_tie (a b : cost) :
  cost_ltb a b = false → cost_ltb b a = false → a = b.
Proof.
  destruct a as [x|], b as [y|]; cbn; try done.
  intros H1%bool_decide_eq_false_1 H2%bool_decide_eq_false_1.
  f_equal. apply Qcle_antisym; by apply Qcnot_lt_le.
Qed.

Lemma py_min3_swap (a b c : cost) : py_min3 a b c = py_min3 b a c.
Proof.
  unfold py_min3.
  destruct (cost_ltb b a) eqn:Hba, (cost_ltb a b) eqn:Hab; try done.
  - by rewrite (cost_ltb_asym _ _ Hba) in Hab.
  - by rewrite (cost_ltb_tie _ _ Hab Hba).
Qed.

Lemma entry_swap (nu lam : Qc) (A B : list scalar) (i j : nat)
    (up left diag : cost) :
  entry nu lam A B i j up left diag = entry nu lam B A j i left up diag.
Proof.
  unfold entry, cell_value. rewrite py_min3_swap.
  rewrite (absdiff_sym (sample A i) (sample B j)).
  rewrite (absdiff_sym (sample A (i - 1)) (sample B (j - 1))).
  replace (Z.abs (Z.of_nat i - Z.of_nat j))
    with (Z.abs (Z.of_nat j - Z.of_nat i)) by lia.
  done.
Qed.

(** The conceptual matrix of [(B, A)] is the transpose of that of [(A, B)]. *)
Lemma twed_transpose (nu lam : Qc) (A B : list scalar) (i j : nat) :
  twed nu lam A B i j = twed nu lam B A j i.
Proof.
  revert j. induction i as [|i IHi]; intros j.
  - destruct j; [done|]. by rewrite twed_row0, twed_col0 by lia.
  - induction j as [|j IHj].
    + by rewrite twed_row0, twed_col0 by lia.
    + rewrite (twed_unfold nu lam A B) by lia.
      rewrite (twed_unfold nu lam B A) by lia.
      rewrite entry_swap.
      replace (S i - 1)%nat with i by lia.
      replace (S j - 1)%nat with j by lia.
      by rewrite IHj, !IHi.
Qed.

(** ** The calls of the rolling engine, case by case *)

Lemma mem_run_nu_negative (heap : nat → cost) (A B : list scalar)
    (lam nu : Qc) (strict : bool) :
  nu < 0 →
  memTWED.run heap A B lam nu strict = ([], Raise (AssertionError NuNegative)).
Proof.
  intros Hnu. unfold memTWED.run, memTWED.__init__.
  rewrite bool_decide_eq_false_2; [done|]. by apply Qclt_not_le.
Qed.

(** A non-strict call: what the constructor prints, then the sweep. *)
Lemma mem_run_nonstrict (heap : nat → cost) (A B : list scalar)
    (lam nu : Qc) :
  0 ≤ nu →
  memTWED.run heap A B lam nu false
  = (if bool_decide (length A < length B)%nat then [memTWED.warning] else [],
     memTWED.calculateCosts heap
       (memTWED.Build A B lam nu (length A) (length B))).
Proof.
  intros Hnu. unfold memTWED.run, memTWED.__init__.
  rewrite bool_decide_eq_true_2 by done. cbn [py_assert memTWED.n memTWED.m].
  by destruct (bool_decide _).
Qed.

(** A strict call on series of one common length. *)
Lemma mem_run_strict (heap : nat → cost) (A B : list scalar) (lam nu : Qc) :
  0 ≤ nu → length A = length B →
  memTWED.run heap A B lam nu true
  = ([], memTWED.calculateCosts heap
           (memTWED.Build A B lam nu (length A) (length B))).
Proof.
  intros Hnu Hlen. unfold memTWED.run, memTWED.__init__.
  rewrite bool_decide_eq_true_2 by done. cbn [py_assert memTWED.n memTWED.m].
  by rewrite bool_decide_eq_true_2 by done.
Qed.

Lemma mem_calc_no_reference (heap : nat → cost) (self : memTWED.t) :
  memTWED.n self = 0%nat →
  memTWED.calculateCosts heap self = Raise IndexError.
Proof.
  intros Hn. unfold memTWED.calculateCosts.
  by rewrite mem_init_matrix_empty.
Qed.

(** A reference series of one sample: the outer loop is empty, [mi] reads
    [0], and the cell returned is [matrix[0, m-1]] of the initial
    buffer. *)
Lemma mem_calc_one_sample (heap : nat → cost) (self : memTWED.t) :
  memTWED.n self = 1%nat →
  memTWED.calculateCosts heap self
  = Ok (one_sample_cost heap (memTWED.m self)).
Proof.
  intros Hn. unfold memTWED.calculateCosts.
  rewrite (mem_init_matrix_eq self 0 Hn). rsimpl.
  unfold memTWED._calculateCosts. rewrite Hn. cbn [range seq Nat.sub].
  unfold memTWED.sweep. cbn [for_each]. rsimpl. cbn [fst snd]. f_equal.
  unfold jit_get_int, jit_get, jit_index. cbn [shape0 shape1 to_carray length].
  destruct (memTWED.m self) as [|[|[|k]]]; try reflexivity.
  rewrite decide_False by lia. rewrite decide_False by lia.
  replace (Z.to_nat (Z.of_nat (S (S (S k))) - 1)) with (S (S k)) by lia.
  rewrite Nat2Z.id. by destruct k.
Qed.

Lemma for_each_is_Ok {S : Type} (xs : list nat) (body : nat → S → result S)
    (s : S) :
  (∀ x s, x ∈ xs → is_Ok (body x s)) → is_Ok (for_each xs body s).
Proof.
  revert s. induction xs as [|x xs IH]; intros s Hbody; cbn; [by eexists|].
  destruct (Hbody x s) as [s' ->]; [by left|]. rsimpl.
  apply IH. intros y s0 Hy. apply Hbody. by right.
Qed.

Lemma elem_of_range (a b x : nat) : x ∈ range a b ↔ (a ≤ x < b)%nat.
Proof. unfold range. rewrite elem_of_seq. lia. Qed.

(** The compiled sweep raises nothing: no index is checked, and the
    samples it reads exist. *)
Lemma mem_sweep_is_Ok (nu lam : Qc) (A B : list scalar) (rows : list nat)
    (st : carray * nat) :
  (∀ i, i ∈ rows → (1 ≤ i < length A)%nat) →
  is_Ok (for_each rows (memTWED.outer (length B) nu lam A B) st).
Proof.
  intros Hrows. apply for_each_is_Ok. intros i st' Hi.
  unfold memTWED.outer, memTWED.inner.
  destruct (for_each_is_Ok (range 1 (length B))
              (memTWED.cell nu lam A B (memTWED.row_of i)
                 (memTWED.other_row (memTWED.row_of i)) i) st'.1) as [a ->].
  - intros j a Hj%elem_of_range. rewrite jit_cell_entry by auto.
    by eexists.
  - rsimpl. by eexists.
Qed.

Lemma mem_calc_is_Ok (heap : nat → cost) (A B : list scalar) (lam nu : Qc) :
  (1 ≤ length A)%nat →
  is_Ok (memTWED.calculateCosts heap
           (memTWED.Build A B lam nu (length A) (length B))).
Proof.
  intros HA. unfold memTWED.calculateCosts.
  rewrite (mem_init_matrix_eq _ (length A - 1)) by (cbn; lia). rsimpl.
  unfold memTWED._calculateCosts, memTWED.sweep.
  cbn [memTWED.n memTWED.m memTWED._nu memTWED._lambda memTWED.t1 memTWED.t2].
  match goal with |- is_Ok (?x ≫= _) =>
    assert (is_Ok x) as [st ->]; [|rsimpl; by eexists] end.
  apply mem_sweep_is_Ok. by intros i Hi%elem_of_range.
Qed.

(** An empty target series: no inner loop runs, each outer iteration only
    resets the origin. *)
Lemma mem_sweep_no_target (nu lam : Qc) (A B : list scalar) (n : nat)
    (a0 : carray) :
  (2 ≤ n)%nat →
  ∃ a, memTWED.sweep 0 nu lam A B (range 1 n) a0
       = Ok (a, memTWED.row_of (n - 1))
       ∧ shape0 a = shape0 a0 ∧ shape1 a = shape1 a0
       ∧ ∀ k, (1 ≤ k)%nat → cells a k = cells a0 k.
Proof.
  intros Hn. unfold memTWED.sweep.
  destruct (for_range_inv
              (λ k st,
                 st.2 = (if decide (k = 1)%nat then 0%nat
                         else memTWED.row_of (k - 1))
                 ∧ shape0 st.1 = shape0 a0 ∧ shape1 st.1 = shape1 a0
                 ∧ ∀ k', (1 ≤ k')%nat → cells st.1 k' = cells a0 k')
              (memTWED.outer 0 nu lam A B) 1 n (a0, 0%nat))
    as ([a mi] & -> & Hmi & H0 & H1 & Hcells); [lia|done| |].
  - intros k [a mi] Hk (Hmi & H0 & H1 & Hcells). cbn [fst snd] in *.
    eexists. split; [reflexivity|]. cbn [fst snd]. split_and!; [|done|done|].
    + rewrite decide_False by lia. by replace (S k - 1)%nat with k by lia.
    + intros k' Hk'. rewrite cells_set_ne by lia. by apply Hcells.
  - cbn [fst snd] in *. rewrite decide_False in Hmi by lia. subst mi.
    by exists a.
Qed.

Lemma mem_calc_no_target (heap : nat → cost) (self : memTWED.t) (w : nat) :
  memTWED.n self = S (S w) → memTWED.m self = 0%nat →
  memTWED.calculateCosts heap self
  = Ok (if decide (memTWED.n self mod 2 = 0)%nat then Fin 0 else Inf).
Proof.
  intros Hn Hm. unfold memTWED.calculateCosts.
  rewrite (mem_init_matrix_eq self (S w) Hn). rsimpl.
  unfold memTWED._calculateCosts. rewrite Hm.
  pose proof (init_buffer_shape (S w)) as Hshape.
  destruct (to_carray_shape 1 (S (S w)) _ heap Hshape) as [H0 H1].
  destruct (mem_sweep_no_target (memTWED._nu self) (memTWED._lambda self)
              (memTWED.t1 self) (memTWED.t2 self) (memTWED.n self)
              (to_carray [Fin 0 :: replicate (S w) Inf;
                          Inf :: replicate (S w) (Fin 0)] heap))
    as (a & -> & Ha0 & Ha1 & Hcells); [lia|].
  rsimpl. cbn [fst snd]. f_equal.
  pose proof (row_of_lt (memTWED.n self - 1)) as Hlt.
  pose proof (row_of_S (memTWED.n self - 1)) as HS.
  replace (S (memTWED.n self - 1)) with (memTWED.n self) in HS by lia.
  unfold memTWED.row_of in HS at 1.
  unfold jit_get_int, jit_index, jit_get. rewrite Ha0, Ha1, H0, H1.
  rewrite decide_False by lia. rewrite decide_True by lia. rewrite Nat2Z.id.
  replace (Z.to_nat (Z.of_nat 0 - 1 + Z.of_nat (S (S w)))) with (S w) by lia.
  rewrite Hcells by lia.
  rewrite (to_carray_cells 2 (S (S w)) _ (S w) _ heap _ Hshape
             (init_buffer_at2 (S w) _ (S w) Hlt ltac:(lia))).
  destruct (decide (memTWED.n self mod 2 = 0)%nat) as [Heven|Hodd].
  - replace (memTWED.row_of (memTWED.n self - 1)) with 1%nat by lia. done.
  - replace (memTWED.row_of (memTWED.n self - 1)) with 0%nat.
    2:{ pose proof (Nat.mod_upper_bound (memTWED.n self) 2). lia. }
    done.
Qed.

(** Series of one common length, one sample or more: the rolling engine
    returns the corner of the conceptual matrix. *)
Lemma mem_run_equal_lengths (heap : nat → cost) (A B : list scalar)
    (lam nu : Qc) (strict : bool) :
  0 ≤ nu → length A = length B → (1 ≤ length A)%nat →
  memTWED.run heap A B lam nu strict
  = ([], Ok (twed nu lam A B (length A - 1) (length B - 1))).
Proof.
  intros Hnu Hlen HA. destruct (decide (2 ≤ length A)%nat) as [Hbig|Hsmall].
  { apply mem_run_twed; (done || lia). }
  assert (length A = 1%nat) as Hone by lia.
  assert (memTWED.run heap A B lam nu strict
          = ([], memTWED.calculateCosts heap
                   (memTWED.Build A B lam nu (length A) (length B)))) as ->.
  { destruct strict; [by apply mem_run_strict|].
    rewrite mem_run_nonstrict by done.
    by rewrite bool_decide_eq_false_2 by lia. }
  rewrite mem_calc_one_sample by done. cbn [memTWED.m].
  by rewrite <- Hlen, Hone.
Qed.

Lemma mem_run_swap (heap1 heap2 : nat → cost) (A B : list scalar)
    (lam nu : Qc) (strict : bool) :
  length A = length B →
  memTWED.run heap1 A B lam nu strict = memTWED.run heap2 B A lam nu strict.
Proof.
  intros Hlen. destruct (Qclt_le_dec nu 0) as [Hneg|Hnu].
  { by rewrite !mem_run_nu_negative. }
  destruct (decide (1 ≤ length A)%nat) as [Hpos|Hzero].
  - rewrite !mem_run_equal_lengths by (done || lia).
    by rewrite twed_transpose, Hlen.
  - destruct A, B; try done; try (cbn in Hzero; lia).
    unfold memTWED.run, memTWED.__init__.
    rewrite bool_decide_eq_true_2 by done. by destruct strict.
Qed.

(** ** The full-matrix engine *)

Lemma shape2_zeros (r c : nat) : shape2 r c (zeros r c).
Proof.
  split; [apply length_replicate|].
  apply Forall_replicate, length_replicate.
Qed.

Lemma at2_zeros (r c a b : nat) :
  (a < r)%nat → (b < c)%nat → at2 (zeros r c) a b = Some (Fin 0).
Proof.
  intros Ha Hb. unfold at2, zeros. rewrite lookup_replicate_2 by done.
  cbn. by apply lookup_replicate_2.
Qed.

(** The first [k] rounds of the initialisation loop, while they stay
    inside both axes. *)
Lemma TWED_init_loop (n m k : nat) :
  (k ≤ n)%nat → (k ≤ m)%nat →
  ∃ mat, for_each (range 0 k) (λ i matrix,
             matrix ← set2 matrix i 0 Inf; set2 matrix 0 i Inf) (zeros n m)
         = Ok mat
         ∧ TWED_init_inv n m k mat.
Proof.
  intros Hkn Hkm.
  apply (for_range_inv (TWED_init_inv n m)); [lia| |].
  - split; [apply shape2_zeros|]. intros a b Ha Hb.
    rewrite at2_zeros by done. unfold TWED_init_cell.
    by rewrite decide_False by lia.
  - intros i mat Hi [Hshape Hcells].
    rewrite set2_at2.
    destruct (proj2 (shape2_at2 _ _ _ i 0 Hshape)) as [old ->]; [lia|].
    rsimpl. rewrite set2_at2.
    destruct (proj2 (shape2_at2 _ _ _ 0 i
                       (shape2_upd2 _ _ _ i 0 Inf Hshape))) as [old' ->]; [lia|].
    eexists. split; [done|]. split; [by do 2 apply shape2_upd2|].
    intros a b Ha Hb. unfold TWED_init_cell.
    destruct (decide (a = 0 ∧ b = i)%nat) as [[-> ->]|Hne1].
    { rewrite at2_upd2_eq.
      - by rewrite decide_True by lia.
      - apply (shape2_at2 n m); [by apply shape2_upd2|lia]. }
    rewrite at2_upd2_ne by lia.
    destruct (decide (a = i ∧ b = 0)%nat) as [[-> ->]|Hne2].
    { rewrite at2_upd2_eq.
      - by rewrite decide_True by lia.
      - apply (shape2_at2 n m); [done|lia]. }
    rewrite at2_upd2_ne by lia. rewrite Hcells by done.
    unfold TWED_init_cell. destruct (decide _), (decide _); try done; lia.
Qed.

(** [TWED._init_matrix(n, m)] for [1 <= n <= m]. *)
Lemma TWED_init_matrix_cells (n m : nat) :
  (1 ≤ n ≤ m)%nat →
  ∃ mat, TWED._init_matrix n m = Ok mat
         ∧ shape2 n m mat
         ∧ ∀ a b, (a < n)%nat → (b < m)%nat →
             at2 mat a b = Some (TWED_sentinel n a b).
Proof.
  intros Hnm. unfold TWED._init_matrix.
  replace (length (zeros n m)) with n by (symmetry; apply length_replicate).
  destruct (TWED_init_loop n m n) as (mat & -> & Hshape & Hcells); [lia..|].
  rsimpl. rewrite set2_at2.
  destruct (proj2 (shape2_at2 _ _ _ 0 0 Hshape)) as [old ->]; [lia|].
  eexists. split; [done|]. split; [by apply shape2_upd2|].
  intros a b Ha Hb. unfold TWED_sentinel.
  destruct (decide (a = 0 ∧ b = 0)%nat) as [[-> ->]|Hne].
  - apply at2_upd2_eq. apply (shape2_at2 n m); [done|lia].
  - rewrite at2_upd2_ne by lia. by apply Hcells.
Qed.

(** More reference samples than target samples: round [m] of the loop
    writes outside row [0]. *)
Lemma TWED_init_matrix_wide (n m : nat) :
  (m < n)%nat → TWED._init_matrix n m = Raise IndexError.
Proof.
  intros Hnm. unfold TWED._init_matrix.
  replace (length (zeros n m)) with n by (symmetry; apply length_replicate).
  assert (range 0 n = range 0 m ++ m :: range (S m) n) as ->.
  { unfold range. replace (n - 0)%nat with (m + S (n - S m))%nat by lia.
    rewrite seq_app. by rewrite Nat.sub_0_r. }
  rewrite for_each_app.
  destruct (TWED_init_loop n m m) as (mat & -> & Hshape & _); [lia..|].
  rsimpl. cbn [for_each]. rewrite set2_at2.
  destruct (at2 mat m 0) as [old|] eqn:Hold; rsimpl; [|done].
  rewrite set2_at2.
  destruct (at2 (upd2 mat m 0 Inf) 0 m) as [old'|] eqn:Hold'; [|done].
  assert (is_Some (at2 (upd2 mat m 0 Inf) 0 m)) as Hsome by done.
  apply (shape2_at2 n m) in Hsome; [lia|by apply shape2_upd2].
Qed.

Lemma TWED_init_matrix_empty (m : nat) :
  TWED._init_matrix 0 m = Raise IndexError.
Proof. done. Qed.

Lemma arange_getitem (n i : nat) :
  (i < n)%nat → getitem (arange 1 (n + 1)) i = Ok (Z.of_nat (S i)).
Proof.
  intros Hi. apply getitem_lookup. unfold arange, range.
  rewrite list_lookup_fmap, lookup_seq_lt by lia. done.
Qed.

(** The inner loop body of the full-matrix engine, when every cell it
    touches exists. *)
Lemma TWED_cell_entry (nu lam : Qc) (A B : list scalar) (i j : nat)
    (mat : array2) (up left diag : cost) :
  (1 ≤ i < length A)%nat → (1 ≤ j < length B)%nat →
  at2 mat (i - 1) j = Some up →
  at2 mat i (j - 1) = Some left →
  at2 mat (i - 1) (j - 1) = Some diag →
  is_Some (at2 mat i j) →
  TWED.cell nu lam A B (arange 1 (length A + 1)) (arange 1 (length B + 1))
    i j mat
  = Ok (upd2 mat i j (entry nu lam A B i j up left diag)).
Proof.
  intros Hi Hj Hup Hleft Hdiag [old Hold]. unfold TWED.cell.
  rewrite !get2_at2, Hup, Hleft, Hdiag. rsimpl.
  rewrite !getitem_sample by lia. rsimpl.
  rewrite !arange_getitem by lia. rsimpl.
  rewrite set2_at2, Hold. do 2 f_equal.
  unfold entry, cell_value.
  replace (Z.of_nat (S i) - Z.of_nat (S (i - 1)))%Z with 1%Z by lia.
  replace (Z.of_nat (S j) - Z.of_nat (S (j - 1)))%Z with 1%Z by lia.
  replace (Z.abs (Z.of_nat (S i) - Z.of_nat (S j))
           + Z.abs (Z.of_nat (S (i - 1)) - Z.of_nat (S (j - 1))))%Z
    with (2 * Z.abs (Z.of_nat i - Z.of_nat j))%Z by lia.
  done.
Qed.

Section NaiveSweep.

Variables (nu lam : Qc) (A B : list scalar).

Lemma naive_cell_inv (i j : nat) (mat : array2) :
  (1 ≤ i < length A)%nat → (1 ≤ j < length B)%nat →
  naive_inv nu lam A B i j mat →
  ∃ mat', TWED.cell nu lam A B (arange 1 (length A + 1))
            (arange 1 (length B + 1)) i j mat = Ok mat'
          ∧ naive_inv nu lam A B i (S j) mat'.
Proof.
  intros Hi Hj [Hshape Hcells]. eexists. split.
  - apply TWED_cell_entry; [done..| | | |].
    + apply Hcells; lia.
    + apply Hcells; lia.
    + apply Hcells; lia.
    + apply (shape2_at2 _ _ _ _ _ Hshape). lia.
  - rewrite <- twed_unfold by lia. split; [by apply shape2_upd2|].
    intros a b Ha Hb Hcond.
    destruct (decide (a = i ∧ b = j)%nat) as [[-> ->]|Hne].
    + apply at2_upd2_eq. apply (shape2_at2 _ _ _ _ _ Hshape). lia.
    + rewrite at2_upd2_ne by lia. apply Hcells; lia.
Qed.

Lemma naive_row_inv (i : nat) (mat : array2) :
  (1 ≤ i < length A)%nat →
  naive_inv nu lam A B i 1 mat →
  ∃ mat', for_each (range 1 (length B))
            (TWED.cell nu lam A B (arange 1 (length A + 1))
               (arange 1 (length B + 1)) i) mat = Ok mat'
          ∧ naive_inv nu lam A B (S i) 1 mat'.
Proof.
  intros Hi Hinv.
  destruct (decide (length B ≤ 1)%nat) as [Hle|Hgt].
  { exists mat. rewrite range_nil by done. split; [done|].
    destruct Hinv as [Hshape Hcells]. split; [done|].
    intros a b Ha Hb Hcond. apply Hcells; lia. }
  destruct (for_range_inv (λ j, naive_inv nu lam A B i j)
              (TWED.cell nu lam A B (arange 1 (length A + 1))
                 (arange 1 (length B + 1)) i) 1 (length B) mat)
    as (mat' & Hrun & Hshape & Hcells); [lia|done| |].
  { intros j mat1 Hj Hinv1. by apply naive_cell_inv. }
  exists mat'. split; [done|]. split; [done|].
  intros a b Ha Hb Hcond. apply Hcells; lia.
Qed.

Lemma naive_sweep_inv (mat : array2) :
  (1 ≤ length A)%nat →
  naive_inv nu lam A B 1 1 mat →
  ∃ mat', for_each (range 1 (length A)) (λ i,
            for_each (range 1 (length B))
              (TWED.cell nu lam A B (arange 1 (length A + 1))
                 (arange 1 (length B + 1)) i)) mat = Ok mat'
          ∧ naive_inv nu lam A B (length A) 1 mat'.
Proof.
  intros HA Hinv.
  apply (for_range_inv (λ i, naive_inv nu lam A B i 1)); [lia|done|].
  intros i mat1 Hi Hinv1. by apply naive_row_inv.
Qed.

End NaiveSweep.

(** For series of one common length the full-matrix engine returns the
    corner of the conceptual matrix. *)
Lemma TWED_run_twed (nu lam : Qc) (A B : list scalar) :
  0 ≤ nu → length A = length B → (1 ≤ length A)%nat →
  TWED.run A B lam nu
  = Ok (twed nu lam A B (length A - 1) (length B - 1)).
Proof.
  intros Hnu Hlen HA. unfold TWED.run, TWED.__init__.
  rewrite bool_decide_eq_true_2 by done. cbn [py_assert]. rsimpl.
  unfold TWED.calculateCosts.
  cbn [TWED.n TWED.m TWED._nu TWED._lambda TWED.t1 TWED.t2].
  destruct (TWED_init_matrix_cells (length A) (length B))
    as (mat0 & -> & Hshape0 & Hcells0); [lia|].
  rsimpl.
  destruct (naive_sweep_inv nu lam A B mat0 HA) as (mat & -> & Hshape & Hcells).
  { split; [done|]. intros a b Ha Hb Hcond. rewrite Hcells0 by done.
    f_equal. unfold TWED_sentinel, TWED_init_cell.
    destruct a as [|a], b as [|b]; try done.
    - rewrite decide_False, decide_True by lia. done.
    - rewrite decide_False, decide_True by lia. done.
    - lia. }
  rsimpl.
  replace (Z.of_nat (length A) - 1)%Z with (Z.of_nat (length A - 1)) by lia.
  replace (Z.of_nat (length B) - 1)%Z with (Z.of_nat (length B - 1)) by lia.
  apply get2_int_at2. apply Hcells; lia.
Qed.

(** ** The batch engine, plane by plane *)

Lemma cost_leb_ltb (a b : cost) : cost_leb a b = negb (cost_ltb b a).
Proof.
  destruct a as [x|], b as [y|]; cbn; try done.
  destruct (Qclt_le_dec y x) as [Hlt|Hle].
  - rewrite (bool_decide_eq_true_2 (y < x)) by done.
    apply bool_decide_eq_false_2. by apply Qclt_not_le.
  - rewrite (bool_decide_eq_false_2 (y < x)) by (by apply Qcle_not_lt).
    by apply bool_decide_eq_true_2.
Qed.

(** On costs the reduction of [np.min] and Python's [min] agree. *)
Lemma np_min3_py_min3 (a b c : cost) : np_min3 a b c = py_min3 a b c.
Proof.
  unfold np_min3, py_min3. rewrite !cost_leb_ltb.
  destruct (cost_ltb b a); cbn.
  - destruct (cost_ltb c b); done.
  - destruct (cost_ltb c a); done.
Qed.

Lemma map_result_Forall2 {X Y Z : Type} (g : Y → result Z) (f : X → Z)
    (xs : list X) (ys : list Y) :
  Forall2 (λ x y, g y = Ok (f x)) xs ys → map_result g ys = Ok (f <$> xs).
Proof.
  induction 1 as [|x y xs ys Hxy _ IH]; [done|].
  cbn. rewrite Hxy. rsimpl. by rewrite IH.
Qed.

Lemma get_slice_planes {X : Type} (n r j : nat) (f : X → cost)
    (xs : list X) (mat : array3) :
  (r < 2)%nat → (j < n)%nat →
  Forall2 (λ x buf, at2 buf r j = Some (f x)) xs mat →
  get_slice n mat r j = Ok (f <$> xs).
Proof.
  intros Hr Hj H. unfold get_slice, check_axis.
  rewrite !decide_True by done. rsimpl.
  apply map_result_Forall2. eapply Forall2_impl; [|exact H].
  intros x buf Hx. cbn beta in *. by rewrite get2_at2, Hx.
Qed.

Lemma np_column_samples (ncols j : nat) (rows : list (list scalar)) :
  (j < ncols)%nat → Forall (λ B, length B = ncols) rows →
  np_column (Array2D ncols rows) j = Ok ((λ B, sample B j) <$> rows).
Proof.
  intros Hj Hrows. unfold np_column, check_axis.
  rewrite decide_True by done. rsimpl.
  apply map_result_Forall2. apply Forall_Forall2_diag.
  eapply Forall_impl; [|exact Hrows]. intros B HB. cbn beta in *.
  apply getitem_sample. lia.
Qed.

Lemma set_slice_planes {X : Type} (n r j : nat) (g : X → cost)
    (xs : list X) (mat : array3) :
  (r < 2)%nat → (j < n)%nat →
  Forall2 (λ x buf, is_Some (at2 buf r j)) xs mat →
  set_slice n mat r j (g <$> xs)
  = Ok (zip_with (λ buf x, upd2 buf r j (g x)) mat xs).
Proof.
  intros Hr Hj H. unfold set_slice, check_axis.
  rewrite !decide_True by done. rsimpl.
  induction H as [|x buf xs mat [old Hold] _ IH]; [done|].
  cbn. rewrite set2_at2, Hold. rsimpl. by rewrite IH.
Qed.

Lemma multi_cell_entry (n : nat) (nu lam : Qc) (A : list scalar)
    (rows : list (list scalar)) (mi ai i j : nat) (mat : array3)
    (up left diag : list scalar → cost) :
  (1 ≤ i < length A)%nat → (1 ≤ j < n)%nat → (mi < 2)%nat → (ai < 2)%nat →
  Forall (λ B, length B = n) rows →
  Forall2 (λ B buf,
      at2 buf ai j = Some (up B) ∧
      at2 buf mi (j - 1) = Some (left B) ∧
      at2 buf ai (j - 1) = Some (diag B) ∧
      is_Some (at2 buf mi j)) rows mat →
  multiTWED.cell n nu lam A (Array2D n rows) mi ai i j mat
  = Ok (zip_with (λ buf B,
          upd2 buf mi j (entry nu lam A B i j (up B) (left B) (diag B)))
          mat rows).
Proof.
  intros Hi Hj Hmi Hai Hrows Hmat. unfold multiTWED.cell.
  rewrite (get_slice_planes n ai j up rows), (get_slice_planes n mi (j - 1) left rows),
    (get_slice_planes n ai (j - 1) diag rows);
    try lia; try (eapply Forall2_impl; [|exact Hmat]; by intros ?? (?&?&?&?)).
  rsimpl. rewrite !getitem_sample by lia. rsimpl.
  rewrite !np_column_samples by (done || lia). rsimpl.
  repeat rewrite ?zip_with_fmap_l, ?zip_with_fmap_r, ?zip_with_diag,
    <- ?list_fmap_compose.
  rewrite set_slice_planes;
    try lia; try (eapply Forall2_impl; [|exact Hmat]; by intros ?? (?&?&?&?)).
  f_equal. apply zip_with_ext; try done. intros buf B. f_equal.
  cbn. rewrite np_min3_py_min3. unfold entry, cell_value.
  replace (Z.of_nat i - (Z.of_nat i - 1))%Z with 1%Z by lia.
  replace (Z.of_nat j - (Z.of_nat j - 1))%Z with 1%Z by lia.
  replace (Z.abs (Z.of_nat i - Z.of_nat j)
           + Z.abs (Z.of_nat i - 1 - (Z.of_nat j - 1)))%Z
    with (2 * Z.abs (Z.of_nat i - Z.of_nat j))%Z by lia.
  done.
Qed.

Lemma Forall2_zip_with_l {X Y : Type} (P Q : X → Y → Prop) (f : Y → X → Y)
    (xs : list X) (ys : list Y) :
  Forall2 P xs ys → (∀ x y, P x y → Q x (f y x)) →
  Forall2 Q xs (zip_with f ys xs).
Proof. induction 1; intros Hf; cbn; constructor; auto. Qed.

Lemma map_result_replicate {Y Z : Type} (g : Y → result Z) (k : nat)
    (y : Y) (z : Z) :
  g y = Ok z → map_result g (replicate k y) = Ok (replicate k z).
Proof.
  intros Hy. induction k as [|k IH]; [done|].
  cbn. rewrite Hy. rsimpl. by rewrite IH.
Qed.

Section MultiSweep.

Variables (nu lam : Qc) (A : list scalar) (rows : list (list scalar)).

Lemma multi_cell_inv (i j : nat) (mat : array3) :
  (1 ≤ i < length A)%nat → (1 ≤ j < length A)%nat →
  Forall2 (plane_inv nu lam A i j) rows mat →
  ∃ mat', multiTWED.cell (length A) nu lam A (Array2D (length A) rows)
            (multiTWED.row_of i) (multiTWED.other_row (multiTWED.row_of i))
            i j mat = Ok mat'
          ∧ Forall2 (plane_inv nu lam A i (S j)) rows mat'.
Proof.
  intros Hi Hj Hmat.
  change (multiTWED.row_of i) with (memTWED.row_of i).
  change (multiTWED.other_row (memTWED.row_of i))
    with (memTWED.other_row (memTWED.row_of i)).
  pose proof (row_of_lt i) as Hmi.
  pose proof (other_row_spec _ Hmi) as Hai.
  eexists. split.
  - apply (multi_cell_entry _ _ _ _ _ _ _ _ _ _
             (λ B, twed nu lam A B (i - 1) j)
             (λ B, twed nu lam A B i (j - 1))
             (λ B, twed nu lam A B (i - 1) (j - 1))); try lia.
    + clear -Hmat. induction Hmat as [|B buf ?? [HB _] _ IH]; by constructor.
    + eapply Forall2_impl; [|exact Hmat].
      intros B buf [HB (Hshape & Hprev & Hcur & Hcol)]. split_and!.
      * apply Hprev. lia.
      * apply Hcur. lia.
      * apply Hprev. lia.
      * apply (shape2_at2 _ _ _ _ _ Hshape). lia.
  - eapply Forall2_zip_with_l; [exact Hmat|].
    intros B buf [HB Hinv]. split; [done|].
    rewrite <- twed_unfold by lia. apply mem_inv_step; (done || lia).
Qed.

Lemma multi_inner_inv (i : nat) (mat : array3) :
  (1 ≤ i < length A)%nat →
  Forall2 (plane_inv nu lam A i 1) rows mat →
  ∃ mat', multiTWED.inner (length A) nu lam A (Array2D (length A) rows) i
            (range 1 (length A)) mat = Ok mat'
          ∧ Forall2 (plane_inv nu lam A i (length A)) rows mat'.
Proof.
  intros Hi Hmat. unfold multiTWED.inner.
  apply (for_range_inv (λ j, Forall2 (plane_inv nu lam A i j) rows));
    [lia|done|].
  intros j mat1 Hj Hmat1. by apply multi_cell_inv; [|lia|].
Qed.

Lemma multi_outer_step (i : nat) (st : array3 * option nat) :
  (1 ≤ i < length A)%nat →
  multi_outer_inv nu lam A rows i st →
  ∃ st', multiTWED.outer (length A) (length A) nu lam A
           (Array2D (length A) rows) i st = Ok st'
         ∧ multi_outer_inv nu lam A rows (S i) st'.
Proof.
  intros Hi [Hmat Hmi]. unfold multiTWED.outer.
  destruct (multi_inner_inv i st.1 Hi Hmat) as (mat & -> & Hmat').
  rsimpl.
  replace (replicate (length mat) Inf)
    with ((λ _ : list scalar, Inf) <$> rows).
  2:{ replace (length mat) with (length rows)
        by (clear -Hmat'; induction Hmat'; cbn; congruence).
      by apply const_fmap. }
  rewrite set_slice_planes; [|lia|lia|].
  2:{ eapply Forall2_impl; [|exact Hmat'].
      intros B buf [_ (Hshape & _)]. apply (shape2_at2 _ _ _ _ _ Hshape). lia. }
  rsimpl. eexists. split; [done|]. split; cbn [fst snd].
  - eapply Forall2_zip_with_l; [exact Hmat'|].
    intros B buf [HB Hinv]. split; [done|].
    apply mem_else_inv; [lia|lia|].
    by rewrite HB, Nat.max_r by lia.
  - rewrite decide_False by lia.
    by replace (S i - 1)%nat with i by lia.
Qed.

Lemma multi_init_matrix_eq (self : multiTWED.t) (w : nat) :
  multiTWED.n self = S w →
  multiTWED._init_matrix self
  = Ok (replicate (multiTWED.numSeries self)
          [Fin 0 :: replicate w Inf; Inf :: replicate w (Fin 0)]).
Proof.
  intros Hn. unfold multiTWED._init_matrix, zeros3. rewrite Hn.
  rewrite (map_result_replicate _ _ _
             [Inf :: replicate w Inf; Fin 0 :: replicate w (Fin 0)]).
  2:{ cbn. rewrite length_replicate.
      by repeat first [rewrite setitem_lt by (cbn; lia) | progress cbn]. }
  rsimpl. unfold check_axis at 1. rewrite decide_True by lia. rsimpl.
  rewrite (map_result_replicate _ _ _
             [Inf :: replicate w Inf; Inf :: replicate w (Fin 0)]).
  2:{ by repeat first [rewrite setitem_lt by (cbn; lia) | progress cbn]. }
  rsimpl. unfold set_slice, check_axis. rewrite !decide_True by lia. rsimpl.
  rewrite length_replicate, zip_with_replicate.
  apply map_result_replicate.
  by repeat first [rewrite setitem_lt by (cbn; lia) | progress cbn].
Qed.

End MultiSweep.

(** For target series as long as the reference series, the batch engine
    returns the corner of the conceptual matrix of every pair. *)
Lemma multi_run_twed (nu lam : Qc) (A : list scalar) (rows : list (list scalar)) :
  0 ≤ nu → (2 ≤ length A)%nat →
  Forall (λ B, length B = length A) rows →
  multiTWED.run A (Array2D (length A) rows) lam nu
  = Ok ((λ B, twed nu lam A B (length A - 1) (length A - 1)) <$> rows).
Proof.
  intros Hnu HA Hrows. unfold multiTWED.run, multiTWED.__init__.
  rewrite bool_decide_eq_true_2 by done. cbn [py_assert np_shape length].
  rewrite bool_decide_eq_true_2 by done. cbn [py_assert]. rsimpl.
  unfold multiTWED.calculateCosts.
  assert (∃ w, length A = S w) as [w Hlen] by (exists (length A - 1)%nat; lia).
  rewrite (multi_init_matrix_eq _ w) by done. rsimpl.
  cbn [multiTWED.n multiTWED.m multiTWED._nu multiTWED._lambda multiTWED.t1
       multiTWED.t2 multiTWED.numSeries np_len].
  unfold multiTWED.sweep.
  destruct (for_range_inv (multi_outer_inv nu lam A rows)
              (multiTWED.outer (length A) (length A) nu lam A
                 (Array2D (length A) rows)) 1 (length A)
              (replicate (length rows)
                 [Fin 0 :: replicate w Inf; Inf :: replicate w (Fin 0)], None))
    as ([mat mi] & -> & Hmat & Hmi); [lia| | |].
  - split; [|done]. cbn [fst].
    clear -Hrows Hlen. induction Hrows as [|B rows HB _ IH]; cbn; constructor;
      [|done].
    split; [done|]. apply mem_init_inv; [lia|done].
  - intros i st Hi Hinv. by apply multi_outer_step.
  - rsimpl. cbn [fst snd] in *. rewrite Hmi, decide_False by lia.
    rewrite py_index_nat by apply row_of_lt. rsimpl.
    replace (Z.of_nat (length A) - 1)%Z with (Z.of_nat (length A - 1)) by lia.
    rewrite py_index_nat by lia. rsimpl.
    apply map_result_Forall2. eapply Forall2_impl; [|exact Hmat].
    intros B buf [HB (Hshape & Hprev & _ & _)]. cbn beta.
    rewrite get2_at2.
    pose proof (row_of_S (length A - 1)) as HS.
    replace (S (length A - 1)) with (length A) in HS by lia.
    pose proof (row_of_lt (length A - 1)) as Hlt.
    specialize (Hprev (length A - 1)%nat).
    rewrite other_row_spec, HS in Hprev by apply row_of_lt.
    replace (1 - (1 - memTWED.row_of (length A - 1)))%nat
      with (memTWED.row_of (length A - 1)) in Hprev by lia.
    by rewrite Hprev by lia.
Qed.

Lemma multi_run_nu_negative (A : list scalar) (t2 : ndarray) (lam nu : Qc) :
  nu < 0 → multiTWED.run A t2 lam nu = Raise (AssertionError NuNegative).
Proof.
  intros Hnu. unfold multiTWED.run, multiTWED.__init__.
  rewrite (bool_decide_eq_false_2 (0 ≤ nu)) by (by apply Qclt_not_le).
  reflexivity.
Qed.

Lemma multi_run_empty (ncols : nat) (rows : list (list scalar)) (lam nu : Qc) :
  0 ≤ nu → multiTWED.run [] (Array2D ncols rows) lam nu = Raise IndexError.
Proof.
  intros Hnu. unfold multiTWED.run, multiTWED.__init__.
  rewrite bool_decide_eq_true_2 by done. cbn [py_assert np_shape length].
  rewrite bool_decide_eq_true_2 by done. cbn [py_assert]. rsimpl.
  unfold multiTWED.calculateCosts, multiTWED._init_matrix, zeros3.
  cbn [multiTWED.n multiTWED.numSeries np_len length].
  by rewrite (map_result_replicate _ _ _ [[]; []]).
Qed.

Lemma multi_run_one (a : scalar) (ncols : nat) (rows : list (list scalar))
    (lam nu : Qc) :
  0 ≤ nu →
  multiTWED.run [a] (Array2D ncols rows) lam nu = Raise UnboundLocalError.
Proof.
  intros Hnu. unfold multiTWED.run, multiTWED.__init__.
  rewrite bool_decide_eq_true_2 by done. cbn [py_assert np_shape length].
  rewrite bool_decide_eq_true_2 by done. cbn [py_assert]. rsimpl.
  unfold multiTWED.calculateCosts.
  by rewrite (multi_init_matrix_eq _ 0).
Qed.

(** ** Monotonicity in the deletion penalty *)

Lemma cost_le_refl (a : cost) : cost_le a a.
Proof. destruct a; cbn; [apply Qcle_refl|done]. Qed.

Lemma cost_le_trans (a b c : cost) : cost_le a b → cost_le b c → cost_le a c.
Proof.
  destruct a, b, c; cbn; try done. apply Qcle_trans.
Qed.

Lemma cost_ltb_le (a b : cost) : cost_ltb a b = true → cost_le a b.
Proof.
  destruct a, b; cbn; try done.
  intros H%bool_decide_eq_true_1. by apply Qclt_le_weak.
Qed.

Lemma cost_ltb_ge (a b : cost) : cost_ltb a b = false → cost_le b a.
Proof.
  destruct a, b; cbn; try done.
  intros H%bool_decide_eq_false_1. by apply Qcnot_lt_le.
Qed.

Lemma cost_add_mono (a b : cost) (x y : Qc) :
  cost_le a b → x ≤ y → cost_le (cost_add a x) (cost_add b y).
Proof.
  destruct a, b; cbn; try done. intros. by apply Qcplus_le_compat.
Qed.

(** Python's [min] returns one of its arguments, below all of them. *)
Lemma py_min3_least (a b c : cost) :
  (py_min3 a b c = a ∨ py_min3 a b c = b ∨ py_min3 a b c = c) ∧
  cost_le (py_min3 a b c) a ∧ cost_le (py_min3 a b c) b ∧
  cost_le (py_min3 a b c) c.
Proof.
  unfold py_min3.
  destruct (cost_ltb b a) eqn:Hba.
  - apply cost_ltb_le in Hba. destruct (cost_ltb c b) eqn:Hcb.
    + apply cost_ltb_le in Hcb.
      split_and!; eauto using cost_le_refl, cost_le_trans.
    + apply cost_ltb_ge in Hcb.
      split_and!; eauto using cost_le_refl, cost_le_trans.
  - apply cost_ltb_ge in Hba. destruct (cost_ltb c a) eqn:Hca.
    + apply cost_ltb_le in Hca.
      split_and!; eauto using cost_le_refl, cost_le_trans.
    + apply cost_ltb_ge in Hca.
      split_and!; eauto using cost_le_refl, cost_le_trans.
Qed.

Lemma py_min3_mono (a1 b1 c1 a2 b2 c2 : cost) :
  cost_le a1 a2 → cost_le b1 b2 → cost_le c1 c2 →
  cost_le (py_min3 a1 b1 c1) (py_min3 a2 b2 c2).
Proof.
  intros Ha Hb Hc.
  destruct (py_min3_least a1 b1 c1) as (_ & Ha1 & Hb1 & Hc1).
  destruct (py_min3_least a2 b2 c2) as ([->|[->| ->]] & _);
    eauto using cost_le_trans.
Qed.






















(** ** Where the engines return and where they raise *)

Lemma TWED_cell_shape (nu lam : Qc) (A B : list scalar) (i j : nat)
    (mat : array2) :
  shape2 (length A) (length B) mat →
  (1 ≤ i < length A)%nat → (1 ≤ j < length B)%nat →
  ∃ mat', TWED.cell nu lam A B (arange 1 (length A + 1))
            (arange 1 (length B + 1)) i j mat = Ok mat'
          ∧ shape2 (length A) (length B) mat'.
Proof.
  intros Hshape Hi Hj.
  destruct (proj2 (shape2_at2 _ _ _ (i - 1) j Hshape)) as [up Hup]; [lia|].
  destruct (proj2 (shape2_at2 _ _ _ i (j - 1) Hshape)) as [left Hleft]; [lia|].
  destruct (proj2 (shape2_at2 _ _ _ (i - 1) (j - 1) Hshape)) as [diag Hdiag];
    [lia|].
  eexists. split.
  - apply (TWED_cell_entry _ _ _ _ _ _ _ up left diag); try done.
    apply (shape2_at2 _ _ _ _ _ Hshape). lia.
  - by apply shape2_upd2.
Qed.

(** The full-matrix engine returns a cost whenever the reference series is
    not longer than the target series. *)
Lemma TWED_run_Ok (A B : list scalar) (lam nu : Qc) :
  0 ≤ nu → (1 ≤ length A ≤ length B)%nat → is_Ok (TWED.run A B lam nu).
Proof.
  intros Hnu Hlen. unfold TWED.run, TWED.__init__.
  rewrite bool_decide_eq_true_2 by done. cbn [py_assert]. rsimpl.
  unfold TWED.calculateCosts.
  cbn [TWED.n TWED.m TWED._nu TWED._lambda TWED.t1 TWED.t2].
  destruct (TWED_init_matrix_cells (length A) (length B))
    as (mat0 & -> & Hshape0 & _); [lia|].
  rsimpl.
  destruct (for_range_inv (λ _, shape2 (length A) (length B))
              (λ i, for_each (range 1 (length B))
                 (TWED.cell nu lam A B (arange 1 (length A + 1))
                    (arange 1 (length B + 1)) i)) 1 (length A) mat0)
    as (mat & -> & Hshape); [lia|done| |].
  { intros i mat1 Hi Hshape1.
    apply (for_range_inv (λ _, shape2 (length A) (length B))); [lia|done|].
    intros j mat2 Hj Hshape2. by apply TWED_cell_shape. }
  rsimpl.
  replace (Z.of_nat (length A) - 1)%Z with (Z.of_nat (length A - 1)) by lia.
  replace (Z.of_nat (length B) - 1)%Z with (Z.of_nat (length B - 1)) by lia.
  destruct (proj2 (shape2_at2 _ _ _ (length A - 1) (length B - 1) Hshape))
    as [c Hc]; [lia|].
  exists c. by apply get2_int_at2.
Qed.

(** More reference samples than target samples: the full-matrix engine
    raises while it initialises its matrix. *)
Lemma TWED_run_wide (A B : list scalar) (lam nu : Qc) :
  0 ≤ nu → (length B < length A)%nat → TWED.run A B lam nu = Raise IndexError.
Proof.
  intros Hnu Hlen. unfold TWED.run, TWED.__init__.
  rewrite bool_decide_eq_true_2 by done. cbn [py_assert]. rsimpl.
  unfold TWED.calculateCosts. cbn [TWED.n TWED.m].
  by rewrite TWED_init_matrix_wide.
Qed.

(** On series of one common length, of one sample or more, the rolling
    engine and the full-matrix engine return the same cost. *)
Lemma engines_agree_on_equal_lengths (heap : nat → cost)
    (A B : list scalar) (lam nu : Qc) (strict : bool) :
  0 ≤ nu → length A = length B → (1 ≤ length A)%nat →
  memTWED.run heap A B lam nu strict = ([], TWED.run A B lam nu).
Proof.
  intros Hnu Hlen HA.
  rewrite mem_run_equal_lengths, TWED_run_twed by (done || lia). done.
Qed.

(** ** Behind the buffer *)

Lemma cost_le_Fin (c : cost) (y : Qc) : cost_le c (Fin y) → finite c.
Proof. destruct c; [by eexists|done]. Qed.

Lemma py_min3_finite (a b c : cost) :
  finite a ∨ finite b ∨ finite c → finite (py_min3 a b c).
Proof.
  intros H. destruct (py_min3_least a b c) as (_ & Ha & Hb & Hc).
  destruct H as [[x ->]|[[x ->]|[x ->]]]; by eapply cost_le_Fin.
Qed.

Lemma cost_add_finite (c : cost) (x : Qc) : finite c → finite (cost_add c x).
Proof. intros [y ->]. by eexists. Qed.

(** An entry is finite as soon as one of the cells it is computed from
    is. *)
Lemma entry_finite (nu lam : Qc) (A B : list scalar) (i j : nat)
    (up left diag : cost) :
  finite up ∨ finite left ∨ finite diag →
  finite (entry nu lam A B i j up left diag).
Proof.
  intros H. unfold entry, cell_value. apply py_min3_finite.
  destruct H as [H|[H|H]]; [left|right; left|right; right];
    by repeat apply cost_add_finite.
Qed.

Lemma finite_from_set (lo hi r c : nat) (a : carray) (v : cost) :
  finite_from lo hi a →
  (finite v ∨ (r * shape1 a + c < lo)%nat ∨ (hi ≤ r * shape1 a + c)%nat) →
  finite_from lo hi (jit_set a r c v).
Proof.
  intros Ha Hv k Hk. destruct (decide (r * shape1 a + c = k)%nat) as [<-|Hne].
  - unfold jit_set. cbn [cells]. rewrite fn_lookup_insert.
    destruct Hv as [?|?]; [done|lia].
  - rewrite cells_set_ne by done. by apply Ha.
Qed.

Ltac inv_bind H :=
  let a := fresh "a" in
  let Ha := fresh "Ha" in
  apply bind_Ok in H as (a & Ha & H).

Section Sweeps.

Variables (nu lam : Qc) (A B : list scalar).

(** A property of the buffer that no store of an inner loop breaks holds
    when that loop ends. *)
Lemma mem_inner_preserves (P : carray → Prop) (i : nat) (js : list nat)
    (a : carray) :
  (1 ≤ i < length A)%nat →
  (∀ j, j ∈ js → (1 ≤ j < length B)%nat) →
  (∀ j a v, j ∈ js → P a → P (jit_set a (memTWED.row_of i) j v)) →
  P a →
  ∃ a', memTWED.inner nu lam A B i js a = Ok a' ∧ P a'.
Proof.
  intros Hi. unfold memTWED.inner. revert a.
  induction js as [|j js IH]; intros a Hjs Hstep HP; [by exists a|].
  cbn [for_each]. rewrite jit_cell_entry by (done || apply Hjs; by left).
  rsimpl. apply IH.
  - intros j' Hj'. apply Hjs. by right.
  - intros j' a' v Hj'. apply Hstep. by right.
  - apply Hstep; [by left|done].
Qed.

(** The same for an outer iteration, which ends with a store to the
    origin, and for a whole sweep. *)
Lemma mem_outer_preserves (P : carray → Prop) (i : nat)
    (st : carray * nat) :
  (1 ≤ i < length A)%nat →
  (∀ j a v, (1 ≤ j < length B)%nat → P a →
     P (jit_set a (memTWED.row_of i) j v)) →
  (∀ a, P a → P (jit_set a 0 0 Inf)) →
  P st.1 →
  ∃ a, memTWED.outer (length B) nu lam A B i st
       = Ok (a, memTWED.row_of i) ∧ P a.
Proof.
  intros Hi Hstep Helse HP. unfold memTWED.outer.
  destruct (mem_inner_preserves P i (range 1 (length B)) st.1)
    as (a & -> & Ha); [done| | |done|].
  { by intros j Hj%elem_of_range. }
  { intros j a v Hj%elem_of_range. by apply Hstep. }
  rsimpl. eexists. split; [done|]. by apply Helse.
Qed.

Lemma mem_sweep_preserves (P : carray → Prop) (rows : list nat)
    (st : carray * nat) :
  (∀ i, i ∈ rows → (1 ≤ i < length A)%nat) →
  (∀ i j a v, i ∈ rows → (1 ≤ j < length B)%nat → P a →
     P (jit_set a (memTWED.row_of i) j v)) →
  (∀ a, P a → P (jit_set a 0 0 Inf)) →
  P st.1 →
  ∃ st', for_each rows (memTWED.outer (length B) nu lam A B) st = Ok st'
         ∧ P st'.1.
Proof.
  revert st. induction rows as [|i rows IH]; intros st Hrows Hstep Helse HP;
    [by exists st|].
  cbn [for_each].
  destruct (mem_outer_preserves P i st) as (a & -> & Ha);
    [apply Hrows; by left| |done|done|].
  { intros j a v. apply Hstep. by left. }
  rsimpl. apply IH; [| |done|done].
  - intros i' Hi'. apply Hrows. by right.
  - intros i' j a' v Hi'. apply Hstep. by right.
Qed.

(** With a target series that is not longer than the reference series
    the sweep stays inside the buffer. *)
Lemma mem_sweep_frame (heap : nat → cost) (rows : list nat)
    (st : carray * nat) :
  (length B ≤ length A)%nat → (1 ≤ length A)%nat →
  (∀ i, i ∈ rows → (1 ≤ i < length A)%nat) →
  shape1 st.1 = length A →
  heap_intact (2 * length A) heap st.1 →
  ∃ st', for_each rows (memTWED.outer (length B) nu lam A B) st = Ok st'
         ∧ shape1 st'.1 = length A
         ∧ heap_intact (2 * length A) heap st'.1.
Proof.
  intros Hwidth HA Hrows Hshape Hheap.
  apply (mem_sweep_preserves
           (λ a, shape1 a = length A ∧ heap_intact (2 * length A) heap a));
    [done| | |done].
  - intros i j a v _ Hj [Ha Hcells]. split; [done|].
    intros k. rewrite cells_set_ne; [apply Hcells|].
    rewrite Ha. pose proof (row_of_lt i). nia.
  - intros a [Ha Hcells]. split; [done|].
    intros k. rewrite cells_set_ne; [apply Hcells|]. lia.
Qed.

End Sweeps.

Lemma finite_from_extend (lo hi r c : nat) (a : carray) (v : cost) :
  finite_from lo hi a → finite v → (r * shape1 a + c = hi)%nat →
  finite_from lo (S hi) (jit_set a r c v).
Proof.
  intros Ha Hv Hrc k Hk. destruct (decide (k = hi)) as [->|Hne].
  - unfold jit_set. cbn [cells]. rewrite Hrc. by rewrite fn_lookup_insert.
  - rewrite cells_set_ne by lia. apply Ha. lia.
Qed.

(** With fewer reference samples than target samples the sweep runs over
    the end of its rows.  What it stores is finite: the cells it has
    passed, inside the buffer and behind it, hold finite costs. *)
Section Overrun.

Variables (nu lam : Qc) (A B : list scalar).

(** Outer iteration [1] writes physical row [1], from the origin of row
    [0]. *)
Lemma overrun_row1 (a : carray) :
  (2 ≤ length A)%nat → shape1 a = length A → cells a 0 = Fin 0 →
  ∃ a', memTWED.inner nu lam A B 1 (range 1 (length B)) a = Ok a'
        ∧ shape1 a' = length A
        ∧ finite_from (length A + 1) (length A + length B) a'.
Proof.
  intros HA Hshape Horigin. unfold memTWED.inner.
  change (memTWED.row_of 1) with 1%nat.
  change (memTWED.other_row 1) with 0%nat.
  destruct (decide (length B ≤ 1)%nat) as [Hle|Hgt].
  { exists a. rewrite range_nil by done. split_and!; [done..|].
    intros k Hk. lia. }
  destruct (for_range_inv
              (λ j a, shape1 a = length A ∧ cells a 0 = Fin 0
                      ∧ finite_from (length A + 1) (length A + j) a)
              (memTWED.cell nu lam A B 1 0 1) 1 (length B) a)
    as (a' & Hrun & Hshape' & _ & Hfin); [lia| | |by exists a'].
  { split_and!; [done..|]. intros k Hk. lia. }
  intros j a1 Hj (Hshape1 & Horigin1 & Hfin1).
  rewrite jit_cell_entry by lia. eexists. split; [reflexivity|].
  split_and!; [done| |].
  - rewrite cells_set_ne by lia. done.
  - replace (length A + S j)%nat with (S (length A + j)) by lia.
    apply finite_from_extend; [done| |lia].
    apply entry_finite. destruct (decide (j = 1)%nat) as [->|Hne].
    + right; right. unfold jit_get. cbn. rewrite Horigin1. by eexists.
    + right; left. apply Hfin1. lia.
Qed.

(** Outer iteration [2] writes physical row [0], below a finite
    row [1]. *)
Lemma overrun_row2 (a : carray) :
  (3 ≤ length A)%nat → shape1 a = length A →
  finite_from (length A + 1) (length A + length B) a →
  ∃ a', memTWED.inner nu lam A B 2 (range 1 (length B)) a = Ok a'
        ∧ shape1 a' = length A
        ∧ finite_from 1 (Nat.max 1 (length B)) a'
        ∧ finite_from (length A + 1) (length A + length B) a'.
Proof.
  intros HA Hshape Hrow1. unfold memTWED.inner.
  change (memTWED.row_of 2) with 0%nat.
  change (memTWED.other_row 0) with 1%nat.
  destruct (decide (length B ≤ 1)%nat) as [Hle|Hgt].
  { exists a. rewrite range_nil by done. split_and!; [done..| |done].
    intros k Hk. lia. }
  rewrite Nat.max_r by lia.
  apply (for_range_inv
           (λ j a, shape1 a = length A ∧ finite_from 1 j a
                   ∧ finite_from (length A + 1) (length A + length B) a));
    [lia| |].
  { split_and!; [done| |done]. intros k Hk. lia. }
  intros j a1 Hj (Hshape1 & Hcur & Hprev).
  rewrite jit_cell_entry by lia. eexists. split; [reflexivity|].
  assert (finite (entry nu lam A B 2 j (jit_get a1 1 j)
                    (jit_get a1 0 (j - 1)) (jit_get a1 1 (j - 1)))) as Hv.
  { apply entry_finite. left. apply Hprev. lia. }
  split_and!; [done| |].
  - apply finite_from_extend; [done|done|lia].
  - apply finite_from_set; [done|by left].
Qed.

(** Any outer iteration keeps the cells it has passed finite. *)
Lemma overrun_row (i : nat) (a : carray) :
  (1 ≤ i < length A)%nat → shape1 a = length A →
  finite_from 1 (length A + length B) a →
  ∃ a', memTWED.inner nu lam A B i (range 1 (length B)) a = Ok a'
        ∧ shape1 a' = length A
        ∧ finite_from 1 (length A + length B) a'.
Proof.
  intros Hi Hshape Hfin. unfold memTWED.inner.
  pose proof (row_of_lt i) as Hmi.
  pose proof (other_row_spec _ Hmi) as Hai.
  destruct (decide (length B ≤ 1)%nat) as [Hle|Hgt].
  { exists a. by rewrite range_nil by done. }
  apply (for_range_inv
           (λ _ a, shape1 a = length A
                   ∧ finite_from 1 (length A + length B) a));
    [lia|done|].
  intros j a1 Hj (Hshape1 & Hfin1).
  rewrite jit_cell_entry by lia. eexists. split; [reflexivity|].
  split; [done|]. apply finite_from_set; [done|]. left.
  apply entry_finite. left. apply Hfin1.
  rewrite Hai, Hshape1. destruct (memTWED.row_of i) as [|[|?]]; lia.
Qed.

Lemma overrun_outer1 (st : carray * nat) :
  (2 ≤ length A)%nat → shape1 st.1 = length A → cells st.1 0 = Fin 0 →
  ∃ a, memTWED.outer (length B) nu lam A B 1 st = Ok (a, 1%nat)
       ∧ shape1 a = length A
       ∧ finite_from (length A + 1) (length A + length B) a.
Proof.
  intros HA Hshape Horigin. unfold memTWED.outer.
  destruct (overrun_row1 st.1 HA Hshape Horigin) as (a & -> & Ha & Hfin).
  rsimpl. eexists. split; [done|]. split; [done|].
  apply finite_from_set; [done|]. right; left. lia.
Qed.

Lemma overrun_outer2 (st : carray * nat) :
  (3 ≤ length A < length B)%nat → shape1 st.1 = length A →
  finite_from (length A + 1) (length A + length B) st.1 →
  ∃ a, memTWED.outer (length B) nu lam A B 2 st = Ok (a, 0%nat)
       ∧ shape1 a = length A
       ∧ finite_from 1 (length A + length B) a.
Proof.
  intros Hlen Hshape Hrow1. unfold memTWED.outer.
  destruct (overrun_row2 st.1 ltac:(lia) Hshape Hrow1)
    as (a & -> & Ha & Hcur & Hprev).
  rsimpl. eexists. split; [done|]. split; [done|].
  apply finite_from_set; [|right; left; lia].
  intros k Hk. destruct (decide (k < length B)%nat) as [Hlt|Hge].
  - apply Hcur. lia.
  - apply Hprev. lia.
Qed.

Lemma overrun_outer (i : nat) (st : carray * nat) :
  (1 ≤ i < length A)%nat → shape1 st.1 = length A →
  finite_from 1 (length A + length B) st.1 →
  ∃ a, memTWED.outer (length B) nu lam A B i st
       = Ok (a, memTWED.row_of i)
       ∧ shape1 a = length A
       ∧ finite_from 1 (length A + length B) a.
Proof.
  intros Hi Hshape Hfin. unfold memTWED.outer.
  destruct (overrun_row i st.1 Hi Hshape Hfin) as (a & -> & Ha & Hfin').
  rsimpl. eexists. split; [done|]. split; [done|].
  apply finite_from_set; [done|]. right; left. lia.
Qed.

(** After two outer iterations every cell from [1] up to [n + m] is
    finite: so is cell [n], the sentinel of physical row [1]. *)
Lemma overrun_two_rows (a0 : carray) :
  (3 ≤ length A < length B)%nat → shape1 a0 = length A →
  cells a0 0 = Fin 0 →
  ∃ a, memTWED.sweep (length B) nu lam A B (range 1 3) a0 = Ok (a, 0%nat)
       ∧ shape1 a = length A
       ∧ finite_from 1 (length A + length B) a.
Proof.
  intros Hlen Hshape Horigin. unfold memTWED.sweep.
  change (range 1 3) with [1; 2]%nat. cbn [for_each].
  destruct (overrun_outer1 (a0, 0%nat)) as (a1 & -> & Ha1 & Hfin1);
    [lia|done|done|].
  rsimpl.
  destruct (overrun_outer2 (a1, 1%nat)) as (a2 & -> & Ha2 & Hfin2);
    [lia|done|done|].
  rsimpl. by exists a2.
Qed.

(** After the whole sweep the cells behind the buffer that the sweep has
    passed hold finite costs, whatever they held before. *)
Lemma overrun_sweep (a0 : carray) :
  (2 ≤ length A < length B)%nat → shape1 a0 = length A →
  cells a0 0 = Fin 0 →
  ∃ a, memTWED.sweep (length B) nu lam A B (range 1 (length A)) a0
       = Ok (a, memTWED.row_of (length A - 1))
       ∧ shape1 a = length A
       ∧ finite_from (length A + 1) (length A + length B) a.
Proof.
  intros Hlen Hshape Horigin.
  destruct (decide (length A = 2)%nat) as [Htwo|Hmore].
  { unfold memTWED.sweep.
    replace (range 1 (length A)) with [1]%nat by (by rewrite Htwo).
    replace (memTWED.row_of (length A - 1)) with 1%nat by (by rewrite Htwo).
    cbn [for_each].
    destruct (overrun_outer1 (a0, 0%nat)) as (a1 & -> & Ha1 & Hfin1);
      [lia|done|done|].
    rsimpl. by exists a1. }
  unfold memTWED.sweep.
  assert (range 1 (length A) = range 1 3 ++ range 3 (length A)) as ->.
  { unfold range. replace (length A - 1)%nat
      with (2 + (length A - 3))%nat by lia.
    by rewrite seq_app. }
  rewrite for_each_app.
  destruct (overrun_two_rows a0) as (a2 & Hrun & Ha2 & Hfin2);
    [lia|done|done|].
  unfold memTWED.sweep in Hrun. rewrite Hrun. rsimpl.
  destruct (for_range_inv
              (λ k st, shape1 st.1 = length A
                       ∧ finite_from 1 (length A + length B) st.1
                       ∧ st.2 = memTWED.row_of (k - 1))
              (memTWED.outer (length B) nu lam A B) 3 (length A)
              (a2, 0%nat))
    as ([a mi] & -> & Ha & Hfin & Hmi); [lia|done| |].
  - intros k st Hk (Hst & Hfin & _).
    destruct (overrun_outer k st) as (a & -> & Ha & Hfin');
      [lia|done|done|].
    eexists. split; [done|]. cbn [fst snd]. split_and!; [done..|].
    by replace (S k - 1)%nat with k by lia.
  - cbn [fst snd] in *. subst mi. exists a. split_and!; [done..|].
    intros k Hk. apply Hfin. lia.
Qed.

End Overrun.

(** ** Column 0 of the rolling buffer *)

(** The state of the rolling engine at the start of outer iteration [i],
    for a target series that is not longer than the reference series. *)
Lemma jit_sweep_upto (heap : nat → cost) (nu lam : Qc) (A B : list scalar)
    (w i : nat) :
  (length B ≤ length A)%nat → length A = S w → (1 ≤ i ≤ length A)%nat →
  ∃ st, memTWED.sweep (length B) nu lam A B (range 1 i)
          (to_carray [Fin 0 :: replicate w Inf; Inf :: replicate w (Fin 0)]
             heap) = Ok st
        ∧ jit_outer_inv nu lam A B i st.
Proof.
  intros Hwidth Hn Hi. unfold memTWED.sweep.
  apply (for_range_inv (jit_outer_inv nu lam A B)); [lia| |].
  - by apply jit_init_inv.
  - intros k st Hk Hinv. apply jit_outer_step; (done || lia).
Qed.

(** The origin of the initial buffer, and its shape in compiled code. *)
Lemma init_carray (heap : nat → cost) (w : nat) :
  shape1 (to_carray [Fin 0 :: replicate w Inf; Inf :: replicate w (Fin 0)]
            heap) = S w
  ∧ cells (to_carray [Fin 0 :: replicate w Inf; Inf :: replicate w (Fin 0)]
             heap) 0 = Fin 0.
Proof. split; [|done]. cbn. by rewrite length_replicate. Qed.

(** * The claims of the specification *)

(** Closed goals are settled by evaluation; equality of rationals in
    canonical form is decided. *)
Ltac by_evaluation :=
  first [ by vm_compute | apply (bool_decide_unpack _); by vm_compute ].

(** Claim C1: naive-vs-optimized equivalence, for every pair of series of
    lengths [n >= 1] and [m >= 1].  The engines do not agree on every such
    pair: whenever the reference series is longer than the target series,
    the full-matrix engine raises [IndexError] while it initialises its
    matrix, and the rolling engine returns the corner of the conceptual
    matrix.  ([engines_agree_on_equal_lengths] is the part that holds.) *)
Theorem naive_and_rolling_disagree (heap : nat → cost) (A B : list scalar)
    (lam nu : Qc) :
  0 ≤ nu → (1 ≤ length B < length A)%nat →
  TWED.run A B lam nu = Raise IndexError
  ∧ memTWED.run heap A B lam nu false
    = ([], Ok (twed nu lam A B (length A - 1) (length B - 1))).
Proof.
  intros Hnu Hlen. split.
  - apply TWED_run_wide; [done|lia].
  - apply mem_run_twed; (done || lia).
Qed.

Lemma naive_and_rolling_disagree_witness :
  twed _NU _LAMBDA (int64 [1; 2; 3]%Z) (int64 [1; 2]%Z) 2 1
  = Fin (Q2Qc (1501 # 1000))
  ∧ TWED.run (int64 [1; 2; 3]%Z) (int64 [1; 2]%Z) _LAMBDA _NU
    = Raise IndexError
  ∧ memTWED.run (λ _, Inf) (int64 [1; 2; 3]%Z) (int64 [1; 2]%Z) _LAMBDA _NU
      false
    = ([], Ok (twed _NU _LAMBDA (int64 [1; 2; 3]%Z) (int64 [1; 2]%Z) 2 1)).
Proof.
  split; [by_evaluation|].
  apply (naive_and_rolling_disagree (λ _, Inf) (int64 [1; 2; 3]%Z)
           (int64 [1; 2]%Z) _LAMBDA _NU).
  - by vm_compute.
  - cbn. lia.
Defined.

(** Claim C2: cross-engine equivalence, for a reference series [A] and a
    rectangular batch whose rows all have the length of [A].  From two
    samples on, entry [p] of what the batch engine returns is the cost the
    pairwise engine returns for [(A, batch[p])].  For a reference series
    of one sample the claim fails: the pairwise engine returns [0] and the
    batch engine raises [UnboundLocalError].  For an empty reference
    series both raise [IndexError]. *)
Theorem batch_entry_vs_pairwise (heap : nat → cost) (A : list scalar)
    (rows : list (list scalar)) (lam nu : Qc) (strict : bool) (p : nat)
    (B : list scalar) :
  0 ≤ nu →
  Forall (λ B, length B = length A) rows →
  rows !! p = Some B →
  ((2 ≤ length A)%nat →
   ∃ v c, multiTWED.run A (Array2D (length A) rows) lam nu = Ok v
          ∧ length v = length rows ∧ v !! p = Some c
          ∧ memTWED.run heap A B lam nu strict = ([], Ok c))
  ∧ (length A = 1%nat →
     multiTWED.run A (Array2D (length A) rows) lam nu
     = Raise UnboundLocalError
     ∧ memTWED.run heap A B lam nu strict = ([], Ok (Fin 0)))
  ∧ (length A = 0%nat →
     multiTWED.run A (Array2D (length A) rows) lam nu = Raise IndexError
     ∧ memTWED.run heap A B lam nu strict = ([], Raise IndexError)).
Proof.
  intros Hnu Hrows Hp.
  assert (length B = length A) as HB.
  { rewrite Forall_lookup in Hrows. by apply (Hrows p). }
  split_and!.
  - intros HA. eexists _, _. split_and!.
    + by apply multi_run_twed.
    + by rewrite length_fmap.
    + by rewrite list_lookup_fmap, Hp.
    + rewrite mem_run_twed by (done || lia). by rewrite HB.
  - intros HA. split.
    + destruct A as [|a [|??]]; try done. by apply multi_run_one.
    + rewrite mem_run_equal_lengths by (done || lia).
      by rewrite HB, HA.
  - intros HA. destruct A, B; try done. split.
    + by apply multi_run_empty.
    + unfold memTWED.run, memTWED.__init__.
      rewrite bool_decide_eq_true_2 by done. by destruct strict.
Qed.

Lemma batch_entry_vs_pairwise_witness :
  (∃ v c, multiTWED.run (int64 [1; 2; 3]%Z)
            (Array2D 3 [int64 [1; 2; 3]%Z; int64 [3; 2; 1]%Z]) _LAMBDA _NU
          = Ok v
          ∧ length v = 2%nat ∧ v !! 1%nat = Some c
          ∧ memTWED.run (λ _, Inf) (int64 [1; 2; 3]%Z) (int64 [3; 2; 1]%Z)
              _LAMBDA _NU false = ([], Ok c))
  ∧ multiTWED.run (int64 [5]%Z) (Array2D 1 [int64 [7]%Z]) _LAMBDA _NU
    = Raise UnboundLocalError
  ∧ memTWED.run (λ _, Inf) (int64 [5]%Z) (int64 [7]%Z) _LAMBDA _NU false
    = ([], Ok (Fin 0)).
Proof.
  split.
  - apply (batch_entry_vs_pairwise (λ _, Inf) (int64 [1; 2; 3]%Z)
             [int64 [1; 2; 3]%Z; int64 [3; 2; 1]%Z] _LAMBDA _NU false 1
             (int64 [3; 2; 1]%Z)).
    + by vm_compute.
    + by repeat constructor.
    + reflexivity.
    + cbn. lia.
  - apply (batch_entry_vs_pairwise (λ _, Inf) (int64 [5]%Z)
             [int64 [7]%Z] _LAMBDA _NU false 0 (int64 [7]%Z)).
    + by vm_compute.
    + by repeat constructor.
    + reflexivity.
    + reflexivity.
Defined.

(** Claim C3: a non-strict pairwise call with fewer reference samples than
    target samples is said to print its warning and then return a valid
    cost.  For a reference series that is not empty the constructor prints
    the warning and the call returns, but not a valid cost: the buffer has
    [len(t1)] columns, the inner loop runs over [len(t2)] of them, and the
    compiled sweep stores the costs of the further columns behind the row,
    that is, in the other row and behind the buffer.  After the sweep the
    [len(t2) - len(t1)] cells behind the buffer hold finite costs, whatever
    they held before; with one reference sample and three target samples
    or more the value returned is read from behind the buffer without
    having been written.  For [t1 = [1, 2]] and [t2 = [1, 2, 3, 4]] the
    call returns [1.501] where the recurrence gives [3.002]. *)
Theorem nonstrict_short_reference_overruns :
  (∀ (heap : nat → cost) (A B : list scalar) (lam nu : Qc),
     0 ≤ nu → (1 ≤ length A < length B)%nat →
     (memTWED.run heap A B lam nu false).1 = [memTWED.warning]
     ∧ is_Ok (memTWED.run heap A B lam nu false).2
     ∧ ((2 ≤ length A)%nat →
        ∃ buf st,
          memTWED._init_matrix
            (memTWED.Build A B lam nu (length A) (length B)) = Ok buf
          ∧ shape2 2 (length A) buf
          ∧ memTWED.sweep (length B) nu lam A B (range 1 (length A))
              (to_carray buf heap) = Ok st
          ∧ ∀ k, (k < length B - length A)%nat →
              finite (cells st.1 (2 * length A + k)))
     ∧ (length A = 1%nat → (3 ≤ length B)%nat →
        (memTWED.run heap A B lam nu false).2
        = Ok (heap (length B - 3)%nat)))
  ∧ (∀ heap : nat → cost,
       memTWED.run heap (int64 [1; 2]%Z) (int64 [1; 2; 3; 4]%Z) _LAMBDA _NU
         false
       = ([memTWED.warning], Ok (Fin (Q2Qc (1501 # 1000)))))
  ∧ twed _NU _LAMBDA (int64 [1; 2]%Z) (int64 [1; 2; 3; 4]%Z) 1 3
    = Fin (Q2Qc (3002 # 1000)).
Proof.
  split_and!; [|intros heap; by_evaluation|by_evaluation].
  intros heap A B lam nu Hnu Hlen.
  rewrite mem_run_nonstrict by done.
  rewrite bool_decide_eq_true_2 by lia. cbn [fst snd]. split_and!.
  - done.
  - apply mem_calc_is_Ok. lia.
  - intros HA.
    assert (∃ w, length A = S w) as [w Hw] by (exists (length A - 1)%nat; lia).
    rewrite (mem_init_matrix_eq _ w) by done.
    destruct (init_carray heap w) as [Hshape Horigin].
    destruct (overrun_sweep nu lam A B
                (to_carray [Fin 0 :: replicate w Inf;
                            Inf :: replicate w (Fin 0)] heap))
      as (a & Hrun & Ha & Hfin); [lia|congruence|done|].
    eexists _, _. split_and!; [done| |exact Hrun|].
    + rewrite Hw. apply init_buffer_shape.
    + intros k Hk. apply Hfin. lia.
  - intros HA HB. rewrite mem_calc_one_sample by done. cbn [memTWED.m].
    destruct (length B) as [|[|[|k]]]; try lia.
    cbn [one_sample_cost]. do 2 f_equal. lia.
Qed.

Lemma nonstrict_short_reference_overruns_witness :
  (memTWED.run (λ _, Inf) (int64 [1; 2]%Z) (int64 [1; 2; 3]%Z) _LAMBDA _NU
     false).1 = [memTWED.warning]
  ∧ is_Ok (memTWED.run (λ _, Inf) (int64 [1; 2]%Z) (int64 [1; 2; 3]%Z)
             _LAMBDA _NU false).2
  ∧ (memTWED.run (λ _, Fin 1) (int64 [5]%Z) (int64 [7; 8; 9]%Z)
       _LAMBDA _NU false).2 = Ok (Fin 1).
Proof.
  destruct nonstrict_short_reference_overruns as (H & _ & _).
  destruct (H (λ _, Inf) (int64 [1; 2]%Z) (int64 [1; 2; 3]%Z) _LAMBDA _NU)
    as (Hout & Hret & _ & _); [by vm_compute|cbn; lia|].
  destruct (H (λ _, Fin 1) (int64 [5]%Z) (int64 [7; 8; 9]%Z) _LAMBDA _NU)
    as (_ & _ & _ & Hheap); [by vm_compute|cbn; lia|].
  split_and!; [exact Hout|exact Hret|].
  apply Hheap; [reflexivity|cbn; lia].
Defined.

(** Claim C4, as the specification states it, fails: the constructor of the
    batch engine accepts a rectangular batch whose rows are longer than the
    reference series, and the call then returns a cost that ignores the
    samples beyond [len(t1)]; it also accepts rows that are shorter, and
    the call then raises in the middle of the sweep. *)
Lemma batch_length_mismatch_accepted :
  is_Ok (multiTWED.__init__ (int64 [1; 2]%Z)
           (Array2D 3 [int64 [1; 2; 3]%Z]) _LAMBDA _NU)
  ∧ multiTWED.run (int64 [1; 2]%Z) (Array2D 3 [int64 [1; 2; 3]%Z])
      _LAMBDA _NU
    = Ok [Fin 0]
  ∧ multiTWED.run (int64 [1; 2]%Z) (Array2D 3 [int64 [1; 2; 99]%Z])
      _LAMBDA _NU
    = Ok [Fin 0]
  ∧ is_Ok (multiTWED.__init__ (int64 [1; 2; 3]%Z)
             (Array2D 2 [int64 [1; 2]%Z]) _LAMBDA _NU)
  ∧ multiTWED.run (int64 [1; 2; 3]%Z) (Array2D 2 [int64 [1; 2]%Z])
      _LAMBDA _NU
    = Raise IndexError.
Proof.
  split_and!; try by_evaluation; eexists; by vm_compute.
Qed.

(** Claim C4, amended: with [nu >= 0] the constructor of the batch engine
    raises at once, before any work on the matrix, for a batch that is not
    a two-dimensional array, as a batch of rows of differing lengths is,
    and accepts every two-dimensional batch, whatever the length of its
    rows and whatever the reference series.  A rectangular batch whose rows
    have the length of the reference series, two samples or more, is
    processed at full length: entry [p] of the result is the pairwise cost
    of [(A, batch[p])]. *)
Theorem batch_construction_checks_dimension (A : list scalar) (lam nu : Qc)
    (items : list (list scalar)) (ncols : nat) (any : list (list scalar)) :
  0 ≤ nu →
  multiTWED.__init__ A (Array1D items) lam nu
  = Raise (AssertionError NotAMatrix)
  ∧ multiTWED.run A (Array1D items) lam nu
    = Raise (AssertionError NotAMatrix)
  ∧ multiTWED.__init__ A (Array2D ncols any) lam nu
    = Ok (multiTWED.Build A (Array2D ncols any) lam nu (length A) (length A)
            (length any))
  ∧ ∀ (heap : nat → cost) (rows : list (list scalar)) (p : nat)
      (B : list scalar),
      (2 ≤ length A)%nat →
      Forall (λ B, length B = length A) rows →
      rows !! p = Some B →
      ∃ v c, multiTWED.run A (Array2D (length A) rows) lam nu = Ok v
             ∧ v !! p = Some c
             ∧ memTWED.run heap A B lam nu false = ([], Ok c).
Proof.
  intros Hnu. split_and!.
  - unfold multiTWED.__init__.
    by rewrite (bool_decide_eq_true_2 (0 ≤ nu)) by done.
  - unfold multiTWED.run, multiTWED.__init__.
    by rewrite (bool_decide_eq_true_2 (0 ≤ nu)) by done.
  - unfold multiTWED.__init__.
    by rewrite (bool_decide_eq_true_2 (0 ≤ nu)) by done.
  - intros heap rows p B HA Hrows Hp.
    assert (length B = length A) as HB.
    { rewrite Forall_lookup in Hrows. by apply (Hrows p). }
    eexists _, _. split_and!.
    + by apply multi_run_twed.
    + by rewrite list_lookup_fmap, Hp.
    + rewrite mem_run_twed by (done || lia). by rewrite HB.
Qed.

Lemma batch_construction_checks_dimension_witness :
  multiTWED.__init__ (int64 [1; 2; 3]%Z)
    (Array1D [int64 [1; 2]%Z; int64 [3]%Z]) _LAMBDA _NU
  = Raise (AssertionError NotAMatrix)
  ∧ is_Ok (multiTWED.__init__ (int64 [1; 2; 3]%Z)
             (Array2D 2 [int64 [1; 2]%Z]) _LAMBDA _NU)
  ∧ ∃ v c, multiTWED.run (int64 [1; 2; 3]%Z)
             (Array2D 3 [int64 [1; 2; 3]%Z; int64 [3; 2; 1]%Z]) _LAMBDA _NU
           = Ok v
           ∧ v !! 1%nat = Some c
           ∧ memTWED.run (λ _, Inf) (int64 [1; 2; 3]%Z) (int64 [3; 2; 1]%Z)
               _LAMBDA _NU false
             = ([], Ok c).
Proof.
  destruct (batch_construction_checks_dimension (int64 [1; 2; 3]%Z)
              _LAMBDA _NU [int64 [1; 2]%Z; int64 [3]%Z] 2 [int64 [1; 2]%Z])
    as (Hflat & _ & Hmatrix & Hrun); [by vm_compute|].
  split_and!; [exact Hflat|by eexists|].
  apply (Hrun (λ _, Inf) [int64 [1; 2; 3]%Z; int64 [3; 2; 1]%Z] 1%nat
           (int64 [3; 2; 1]%Z)).
  - cbn. lia.
  - by repeat constructor.
  - reflexivity.
Defined.

(** Claim C5: the initial matrix of the full-matrix engine is said to have
    an infinite row [0] and column [0], apart from the origin, for every
    [n] and [m], also when they differ.  The loop of [_init_matrix] runs
    over [range(n)] for both: with [n < m] the cell [(0, n)] of row [0]
    stays [0], and with [n > m] the loop leaves row [0] and raises. *)
Theorem TWED_init_matrix_unequal_lengths (n m : nat) :
  (1 ≤ n)%nat → (1 ≤ m)%nat → n ≠ m →
  ((n < m)%nat ∧
   ∃ mat, TWED._init_matrix n m = Ok mat ∧ at2 mat 0 n = Some (Fin 0))
  ∨ ((m < n)%nat ∧ TWED._init_matrix n m = Raise IndexError).
Proof.
  intros Hn Hm Hne. destruct (decide (n < m)%nat) as [Hlt|Hge].
  - left. split; [done|].
    destruct (TWED_init_matrix_cells n m) as (mat & Hmat & _ & Hcells); [lia|].
    exists mat. split; [done|]. rewrite Hcells by lia.
    unfold TWED_sentinel, TWED_init_cell.
    by rewrite !decide_False by lia.
  - right. split; [lia|]. apply TWED_init_matrix_wide. lia.
Qed.

Lemma TWED_init_matrix_unequal_lengths_witness :
  TWED._init_matrix 2 3 = Ok [[Fin 0; Inf; Fin 0]; [Inf; Fin 0; Fin 0]]
  ∧ TWED._init_matrix 3 2 = Raise IndexError
  ∧ (((2 < 3)%nat ∧
      ∃ mat, TWED._init_matrix 2 3 = Ok mat ∧ at2 mat 0 2 = Some (Fin 0))
     ∨ ((3 < 2)%nat ∧ TWED._init_matrix 2 3 = Raise IndexError)).
Proof.
  split; [reflexivity|]. split; [reflexivity|].
  apply (TWED_init_matrix_unequal_lengths 2 3); lia.
Defined.

(** Claim C6: every constructor raises the invalid-parameter error exactly
    when [nu < 0]; it is the first statement of each constructor, so
    nothing that needs the engine is evaluated: whatever a caller does next
    with the engine, the outcome is that error, and the rolling engine has
    printed nothing. *)
Theorem nu_validated_at_construction (t1 t2 : list scalar) (batch : ndarray)
    (lam nu : Qc) (strict : bool) :
  (TWED.__init__ t1 t2 lam nu = Raise (AssertionError NuNegative) ↔ nu < 0)
  ∧ ((memTWED.__init__ t1 t2 lam nu strict).2
     = Raise (AssertionError NuNegative) ↔ nu < 0)
  ∧ (multiTWED.__init__ t1 batch lam nu
     = Raise (AssertionError NuNegative) ↔ nu < 0)
  ∧ (nu < 0 →
     (∀ (X : Type) (k : TWED.t → result X),
        TWED.__init__ t1 t2 lam nu ≫= k = Raise (AssertionError NuNegative))
     ∧ (∀ (X : Type) (k : memTWED.t → result X),
          (memTWED.__init__ t1 t2 lam nu strict).1 = [] ∧
          (memTWED.__init__ t1 t2 lam nu strict).2 ≫= k
          = Raise (AssertionError NuNegative))
     ∧ (∀ (X : Type) (k : multiTWED.t → result X),
          multiTWED.__init__ t1 batch lam nu ≫= k
          = Raise (AssertionError NuNegative))).
Proof.
  unfold TWED.__init__, memTWED.__init__, multiTWED.__init__.
  destruct (Qclt_le_dec nu 0) as [Hneg|Hnu].
  - rewrite !(bool_decide_eq_false_2 (0 ≤ nu)) by (by apply Qclt_not_le).
    cbn [py_assert]. rsimpl. cbn [fst snd]. by split_and!.
  - rewrite !(bool_decide_eq_true_2 (0 ≤ nu)) by done.
    cbn [py_assert]. rsimpl.
    assert (¬ nu < 0) as Hnot by (by apply Qcle_not_lt).
    split_and!; try done.
    + split; [|done]. intros H. exfalso. revert H.
      destruct strict; [|by destruct (bool_decide _)].
      cbn [memTWED.n memTWED.m]. by destruct (bool_decide _).
    + split; [|done]. intros H. exfalso. revert H.
      by destruct (bool_decide _).
Qed.

Lemma nu_validated_at_construction_witness :
  TWED.run (int64 [10; 20]%Z) (int64 [15; 25]%Z) _LAMBDA (Q2Qc (-1 # 10))
  = Raise (AssertionError NuNegative)
  ∧ memTWED.run (λ _, Inf) (int64 [10; 20]%Z) (int64 [15; 25]%Z) _LAMBDA
      (Q2Qc (-1 # 10)) false
    = ([], Raise (AssertionError NuNegative))
  ∧ multiTWED.run (int64 [10; 20]%Z) (Array2D 2 [int64 [15; 25]%Z]) _LAMBDA
      (Q2Qc (-1 # 10))
    = Raise (AssertionError NuNegative).
Proof.
  destruct (nu_validated_at_construction (int64 [10; 20]%Z)
              (int64 [15; 25]%Z) (Array2D 2 [int64 [15; 25]%Z]) _LAMBDA
              (Q2Qc (-1 # 10)) false)
    as (_ & _ & _ & H).
  destruct (H ltac:(by vm_compute)) as (H1 & H2 & H3).
  split_and!.
  - apply H1.
  - unfold memTWED.run.
    destruct (H2 _ (memTWED.calculateCosts (λ _, Inf))) as [Hout Hres].
    destruct (memTWED.__init__ _ _ _ _ _) as [out r]. cbn [fst snd] in *.
    rewrite Hout. f_equal. exact Hres.
  - apply H3.
Defined.

(** Claim C7: symmetry.  For series [A] and [B] of one common length, one
    sample or more, with [nu >= 0], the pairwise call on [(A, B)] and the
    pairwise call on [(B, A)] return the same cost, whatever lies behind
    their buffers. *)
Theorem memTWED_symmetric (heap1 heap2 : nat → cost) (A B : list scalar)
    (lam nu : Qc) (strict : bool) :
  length A = length B → (1 ≤ length A)%nat → 0 ≤ nu →
  memTWED.run heap1 A B lam nu strict = memTWED.run heap2 B A lam nu strict
  ∧ ∃ c, memTWED.run heap1 A B lam nu strict = ([], Ok c)
         ∧ memTWED.run heap2 B A lam nu strict = ([], Ok c).
Proof.
  intros Hlen HA Hnu. split; [by apply mem_run_swap|].
  eexists. split.
  - by apply mem_run_equal_lengths.
  - rewrite mem_run_equal_lengths by (done || lia).
    by rewrite twed_transpose, Hlen.
Qed.

Lemma memTWED_symmetric_witness :
  memTWED.run (λ _, Inf) (int64 [10; 20; 30; 40; 50]%Z)
    (int64 [15; 25; 35; 45; 55]%Z) _LAMBDA _NU false
  = memTWED.run (λ _, Fin 0) (int64 [15; 25; 35; 45; 55]%Z)
      (int64 [10; 20; 30; 40; 50]%Z) _LAMBDA _NU false
  ∧ (memTWED.run (λ _, Inf) (int64 [10; 20; 30; 40; 50]%Z)
       (int64 [15; 25; 35; 45; 55]%Z) _LAMBDA _NU false).2
    = Ok (Fin (q 40)).
Proof.
  split; [|by_evaluation].
  apply (memTWED_symmetric (λ _, Inf) (λ _, Fin 0)
           (int64 [10; 20; 30; 40; 50]%Z) (int64 [15; 25; 35; 45; 55]%Z)
           _LAMBDA _NU false).
  - reflexivity.
  - cbn. lia.
  - by vm_compute.
Defined.



(** Claim C9: the sentinel column of the rolling buffer, from the buffer
    [_init_matrix] builds for a reference series of two samples or more.
    All through the inner loop of iteration [1] the origin cell of the
    previous row holds [0], and after every completed outer iteration the
    origin cell is infinite.  That column [0] of the row about to be
    written is infinite when outer iteration [i >= 1] starts holds for a
    target series that is not longer than the reference series.  For a
    longer one it fails: outer iteration [2] stores the cost of column
    [len(t1)] of physical row [0] in the cell behind that row, which is
    column [0] of physical row [1], and outer iteration [3] starts with a
    finite cost there. *)
Theorem sentinel_column_invariant (heap : nat → cost) (self : memTWED.t)
    (nu lam : Qc) (A B : list scalar) (buf0 : array2) :
  memTWED.n self = length A → (2 ≤ length A)%nat →
  memTWED._init_matrix self = Ok buf0 →
  ((length B ≤ length A)%nat →
   ∀ i, (1 ≤ i ≤ length A)%nat →
     ∃ st, memTWED.sweep (length B) nu lam A B (range 1 i)
             (to_carray buf0 heap) = Ok st
           ∧ jit_get st.1 (memTWED.row_of i) 0 = Inf)
  ∧ (∀ j, (j ≤ length B)%nat →
       ∃ a, memTWED.inner nu lam A B 1 (range 1 j) (to_carray buf0 heap)
            = Ok a
            ∧ jit_get a (memTWED.other_row (memTWED.row_of 1)) 0 = Fin 0)
  ∧ (∀ i, (1 ≤ i < length A)%nat →
       ∃ st, memTWED.sweep (length B) nu lam A B (range 1 (S i))
               (to_carray buf0 heap) = Ok st
             ∧ jit_get st.1 0 0 = Inf)
  ∧ ((4 ≤ length A < length B)%nat →
     ∃ st, memTWED.sweep (length B) nu lam A B (range 1 3)
             (to_carray buf0 heap) = Ok st
           ∧ finite (jit_get st.1 (memTWED.row_of 3) 0)).
Proof.
  intros Hn HA Hinit.
  assert (∃ w, length A = S w) as [w Hw] by (exists (length A - 1)%nat; lia).
  rewrite (mem_init_matrix_eq self w) in Hinit by congruence.
  injection Hinit as <-.
  destruct (init_carray heap w) as [Hshape Horigin].
  split_and!.
  - intros Hwidth i Hi.
    destruct (jit_sweep_upto heap nu lam A B w i Hwidth Hw Hi)
      as (st & Hrun & (_ & _ & _ & Hcur & _) & _).
    exists st. split; [done|]. rewrite Hcur by lia. apply twed_col0. lia.
  - intros j Hj.
    destruct (mem_inner_preserves nu lam A B
                (λ a, shape1 a = length A ∧ jit_get a 0 0 = Fin 0) 1
                (range 1 j)
                (to_carray [Fin 0 :: replicate w Inf;
                            Inf :: replicate w (Fin 0)] heap))
      as (a & Hrun & _ & H00); [lia| | | |by exists a].
    + intros j' Hj'%elem_of_range. lia.
    + intros j' a v Hj'%elem_of_range [Ha H00]. split; [done|].
      rewrite jit_get_set_ne; [done|]. change (memTWED.row_of 1) with 1%nat.
      lia.
    + split; [congruence|done].
  - intros i Hi. unfold memTWED.sweep.
    rewrite range_S, for_each_app by lia.
    destruct (mem_sweep_is_Ok nu lam A B (range 1 i)
                (to_carray [Fin 0 :: replicate w Inf;
                            Inf :: replicate w (Fin 0)] heap, 0%nat))
      as [st1 ->].
    { intros k Hk%elem_of_range. lia. }
    rsimpl. cbn [for_each].
    destruct (mem_inner_preserves nu lam A B (λ _, True) i
                (range 1 (length B)) st1.1) as (a1 & Hinner & _);
      [lia|by intros j Hj%elem_of_range|done|done|].
    unfold memTWED.outer. rewrite Hinner. rsimpl.
    eexists. split; [done|]. cbn [fst]. apply jit_get_set_eq.
  - intros Hlen.
    destruct (overrun_two_rows nu lam A B
                (to_carray [Fin 0 :: replicate w Inf;
                            Inf :: replicate w (Fin 0)] heap))
      as (a & Hrun & Ha & Hfin); [lia|congruence|done|].
    eexists. split; [exact Hrun|]. cbn [fst].
    change (memTWED.row_of 3) with 1%nat. unfold jit_get.
    apply Hfin. lia.
Qed.

Lemma sentinel_column_invariant_witness :
  (∃ st, memTWED.sweep 3 _NU _LAMBDA (int64 [1; 2; 3]%Z) (int64 [3; 2; 1]%Z)
           (range 1 3)
           (to_carray [[Fin 0; Inf; Inf]; [Inf; Fin 0; Fin 0]] (λ _, Inf))
         = Ok st
         ∧ jit_get st.1 (memTWED.row_of 3) 0 = Inf)
  ∧ (∃ st, memTWED.sweep 5 _NU _LAMBDA (int64 [1; 2; 3; 4]%Z)
             (int64 [1; 2; 3; 4; 5]%Z) (range 1 3)
             (to_carray [[Fin 0; Inf; Inf; Inf]; [Inf; Fin 0; Fin 0; Fin 0]]
                (λ _, Inf))
           = Ok st
           ∧ finite (jit_get st.1 (memTWED.row_of 3) 0)
           ∧ jit_get st.1 1 0 = Fin (Q2Qc (3002 # 1000))).
Proof.
  split.
  - destruct (sentinel_column_invariant (λ _, Inf)
                (memTWED.Build (int64 [1; 2; 3]%Z) (int64 [3; 2; 1]%Z)
                   _LAMBDA _NU 3 3)
                _NU _LAMBDA (int64 [1; 2; 3]%Z) (int64 [3; 2; 1]%Z)
                [[Fin 0; Inf; Inf]; [Inf; Fin 0; Fin 0]])
      as (Hstart & _); [reflexivity|cbn; lia|reflexivity|].
    apply (Hstart ltac:(cbn; lia) 3%nat). cbn. lia.
  - destruct (sentinel_column_invariant (λ _, Inf)
                (memTWED.Build (int64 [1; 2; 3; 4]%Z)
                   (int64 [1; 2; 3; 4; 5]%Z) _LAMBDA _NU 4 5)
                _NU _LAMBDA (int64 [1; 2; 3; 4]%Z) (int64 [1; 2; 3; 4; 5]%Z)
                [[Fin 0; Inf; Inf; Inf]; [Inf; Fin 0; Fin 0; Fin 0]])
      as (_ & _ & _ & Hover); [reflexivity|cbn; lia|reflexivity|].
    destruct (Hover ltac:(cbn; lia)) as (st & Hrun & Hfin).
    assert (memTWED.sweep 5 _NU _LAMBDA (int64 [1; 2; 3; 4]%Z)
              (int64 [1; 2; 3; 4; 5]%Z) (range 1 3)
              (to_carray [[Fin 0; Inf; Inf; Inf]; [Inf; Fin 0; Fin 0; Fin 0]]
                 (λ _, Inf)) = Ok st) as Hrun5 by exact Hrun.
    exists st. split; [exact Hrun5|]. split; [exact Hfin|].
    assert (memTWED.sweep 5 _NU _LAMBDA (int64 [1; 2; 3; 4]%Z)
              (int64 [1; 2; 3; 4; 5]%Z) (range 1 3)
              (to_carray [[Fin 0; Inf; Inf; Inf]; [Inf; Fin 0; Fin 0; Fin 0]]
                 (λ _, Inf)) ≫= (λ st, Ok (jit_get st.1 1 0))
            = Ok (Fin (Q2Qc (3002 # 1000)))) as Hval by by_evaluation.
    rewrite Hrun5 in Hval. by injection Hval.
Defined.

(** Claim C10: for series of one sample every engine is said to return a
    value fixed by the boundary sentinels.  The full-matrix engine returns
    the origin cell, [0], and so does the rolling engine, whose compiled
    code reads the row index [mi], which no iteration has assigned, as
    [0].  The batch engine raises: its outer loop is empty too, and the
    interpreter finds [mi] unbound. *)
Theorem length_one_inputs (heap : nat → cost) (a b : scalar) (lam nu : Qc)
    (strict : bool) :
  0 ≤ nu →
  TWED.run [a] [b] lam nu = Ok (Fin 0)
  ∧ memTWED.run heap [a] [b] lam nu strict = ([], Ok (Fin 0))
  ∧ multiTWED.run [a] (Array2D 1 [[b]]) lam nu = Raise UnboundLocalError.
Proof.
  intros Hnu. split_and!.
  - by rewrite TWED_run_twed by (done || cbn; lia).
  - by rewrite mem_run_equal_lengths by (done || cbn; lia).
  - by apply multi_run_one.
Qed.

Lemma length_one_inputs_witness :
  TWED.run [I64 5] [I64 7] _LAMBDA _NU = Ok (Fin 0)
  ∧ memTWED.run (λ _, Inf) [I64 5] [I64 7] _LAMBDA _NU false
    = ([], Ok (Fin 0))
  ∧ multiTWED.run [I64 5] (Array2D 1 [[I64 7]]) _LAMBDA _NU
    = Raise UnboundLocalError.
Proof.
  apply (length_one_inputs (λ _, Inf) (I64 5) (I64 7) _LAMBDA _NU false).
  by vm_compute.
Defined.

(** * Further properties of the engines *)

(** ** When the engines return *)

Lemma TWED_run_nu_negative (A B : list scalar) (lam nu : Qc) :
  nu < 0 → TWED.run A B lam nu = Raise (AssertionError NuNegative).
Proof.
  intros Hnu. unfold TWED.run, TWED.__init__.
  rewrite bool_decide_eq_false_2 by (by apply Qclt_not_le). reflexivity.
Qed.

Lemma TWED_run_no_reference (B : list scalar) (lam nu : Qc) :
  0 ≤ nu → TWED.run [] B lam nu = Raise IndexError.
Proof.
  intros Hnu. unfold TWED.run, TWED.__init__.
  rewrite bool_decide_eq_true_2 by done. reflexivity.
Qed.

(** Property X1: the full-matrix engine returns a cost exactly when
    [nu >= 0] and [1 <= len(t1) <= len(t2)].  With [nu < 0] it raises the
    assertion of the constructor; otherwise, with an empty reference
    series or a reference series longer than the target series, it raises
    [IndexError] while it initialises the matrix. *)
Theorem TWED_outcome (A B : list scalar) (lam nu : Qc) :
  (is_Ok (TWED.run A B lam nu)
   ↔ 0 ≤ nu ∧ (1 ≤ length A ≤ length B)%nat)
  ∧ (nu < 0 ↔ TWED.run A B lam nu = Raise (AssertionError NuNegative))
  ∧ (0 ≤ nu ∧ (length A = 0 ∨ length B < length A)%nat
     ↔ TWED.run A B lam nu = Raise IndexError).
Proof.
  destruct (Qclt_le_dec nu 0) as [Hneg|Hnu].
  - rewrite TWED_run_nu_negative by done.
    assert (¬ 0 ≤ nu) by (by apply Qclt_not_le).
    split_and!; split; try done; try (by intros [? ?]); by intros [? [=]].
  - assert (¬ nu < 0) by (by apply Qcle_not_lt).
    destruct (decide (1 ≤ length A ≤ length B)%nat) as [Hlen|Hlen].
    + destruct (TWED_run_Ok A B lam nu Hnu Hlen) as [c Hc]. rewrite Hc.
      split_and!; split; try done; try lia; by eexists.
    + assert (TWED.run A B lam nu = Raise IndexError) as ->.
      { destruct (decide (length A = 0)%nat) as [Hzero|Hpos].
        - destruct A; [|done]. by apply TWED_run_no_reference.
        - apply TWED_run_wide; [done|lia]. }
      split_and!; split; try done; try (by intros [? [=]]);
        try (by intros [? ?]).
      intros _. split; [done|lia].
Qed.

(** An empty target series: the cell returned is the last one of a row of
    the initial buffer. *)
Lemma mem_run_no_target (heap : nat → cost) (A : list scalar) (lam nu : Qc) :
  0 ≤ nu → (2 ≤ length A)%nat →
  memTWED.run heap A [] lam nu false
  = ([], Ok (if decide (length A mod 2 = 0)%nat then Fin 0 else Inf)).
Proof.
  intros Hnu HA. rewrite mem_run_nonstrict by done.
  rewrite bool_decide_eq_false_2 by (cbn; lia). f_equal.
  by rewrite (mem_calc_no_target heap _ (length A - 2)) by (cbn; lia).
Qed.

(** Property X2: in the model, where the cells behind the buffer can be
    read and written, a non-strict call of the rolling engine returns
    exactly when [nu >= 0] and the reference series is not empty.  It
    raises the assertion of the constructor for [nu < 0], and [IndexError]
    for an empty reference series, from the interpreted [_init_matrix];
    the compiled sweep raises nothing, whatever the lengths are. *)
Theorem memTWED_outcome (heap : nat → cost) (A B : list scalar)
    (lam nu : Qc) :
  (is_Ok (memTWED.run heap A B lam nu false).2
   ↔ 0 ≤ nu ∧ (1 ≤ length A)%nat)
  ∧ ((memTWED.run heap A B lam nu false).2
     = Raise (AssertionError NuNegative) ↔ nu < 0)
  ∧ ((memTWED.run heap A B lam nu false).2 = Raise IndexError
     ↔ 0 ≤ nu ∧ length A = 0%nat)
  ∧ (memTWED.run heap A B lam nu false).2 ≠ Raise UnboundLocalError.
Proof.
  destruct (Qclt_le_dec nu 0) as [Hneg|Hnu].
  { rewrite mem_run_nu_negative by done. cbn [snd].
    assert (¬ 0 ≤ nu) by (by apply Qclt_not_le).
    split_and!; [split| |split|]; try done; try (by intros [? ?]);
      by intros [? [=]]. }
  assert (¬ nu < 0) by (by apply Qcle_not_lt).
  rewrite mem_run_nonstrict by done. cbn [snd].
  destruct (decide (length A = 0)%nat) as [Hzero|Hpos].
  - rewrite mem_calc_no_reference by done.
    split_and!; [split| |split|]; try done; try (by intros [? [=]]).
    intros [_ ?]. lia.
  - destruct (mem_calc_is_Ok heap A B lam nu) as [c ->]; [lia|].
    split_and!; [split| |split|]; try done; try (by intros [? ?]).
    + intros _. split; [done|lia].
    + by exists c.
Qed.

(** ** The strict flag of the rolling engine *)

(** Property X3: with [failOnDifferingLengths] the rolling engine raises
    the length assertion, and prints nothing, when the lengths differ;
    when they are equal the flag changes nothing.  The warning is printed
    exactly by a non-strict constructor with [nu >= 0] and
    [len(t1) < len(t2)]. *)
Theorem memTWED_strict_flag (heap : nat → cost) (A B : list scalar)
    (lam nu : Qc) (strict : bool) :
  0 ≤ nu →
  memTWED.run heap A B lam nu true
  = (if decide (length A = length B)
     then memTWED.run heap A B lam nu false
     else ([], Raise (AssertionError LengthsDiffer)))
  ∧ ((memTWED.__init__ A B lam nu strict).1 = [memTWED.warning]
     ↔ strict = false ∧ (length A < length B)%nat)
  ∧ ((memTWED.__init__ A B lam nu strict).1 = []
     ∨ (memTWED.__init__ A B lam nu strict).1 = [memTWED.warning]).
Proof.
  intros Hnu. unfold memTWED.run, memTWED.__init__.
  rewrite !(bool_decide_eq_true_2 (0 ≤ nu)) by done.
  cbn [py_assert memTWED.n memTWED.m]. split_and!.
  - destruct (decide (length A = length B)) as [Heq|Hne].
    + rewrite bool_decide_eq_true_2 by done.
      by rewrite bool_decide_eq_false_2 by lia.
    + by rewrite bool_decide_eq_false_2 by done.
  - destruct strict; cbn [fst].
    + split; [done|]. by intros [[=] _].
    + destruct (decide (length A < length B)%nat) as [Hlt|Hge].
      * by rewrite bool_decide_eq_true_2 by done.
      * rewrite bool_decide_eq_false_2 by done. cbn [fst].
        split; [done|]. by intros [_ ?].
  - destruct strict; cbn [fst]; [by left|].
    destruct (bool_decide _); cbn [fst]; [by right|by left].
Qed.

Lemma memTWED_strict_flag_witness :
  memTWED.run (λ _, Inf) (int64 [1; 2]%Z) (int64 [1; 2; 3]%Z) _LAMBDA _NU
    true
  = ([], Raise (AssertionError LengthsDiffer))
  ∧ (memTWED.__init__ (int64 [1; 2]%Z) (int64 [1; 2; 3]%Z) _LAMBDA _NU
       false).1
    = [memTWED.warning].
Proof.
  destruct (memTWED_strict_flag (λ _, Inf) (int64 [1; 2]%Z)
              (int64 [1; 2; 3]%Z) _LAMBDA _NU false)
    as (Hrun & Hwarn & _); [by vm_compute|].
  split; [exact Hrun|]. apply Hwarn. split; [done|cbn; lia].
Defined.

(** ** The engines and the recurrence *)

(** Property X4: for a reference series of two samples or more and a
    target series that is neither empty nor longer, the rolling engine
    returns the corner entry [(n - 1, m - 1)] of the matrix of the
    recurrence; its two rows stand for all [n] rows. *)
Theorem memTWED_computes_recurrence (heap : nat → cost) (A B : list scalar)
    (lam nu : Qc) (strict : bool) :
  0 ≤ nu → (2 ≤ length A)%nat → (1 ≤ length B ≤ length A)%nat →
  (strict = true → length A = length B) →
  memTWED.run heap A B lam nu strict
  = ([], Ok (twed nu lam A B (length A - 1) (length B - 1))).
Proof.
  intros Hnu HA HB Hstrict. unfold memTWED.run, memTWED.__init__.
  rewrite bool_decide_eq_true_2 by done. cbn [py_assert memTWED.n memTWED.m].
  assert (memTWED.calculateCosts heap
            (memTWED.Build A B lam nu (length A) (length B))
          = Ok (twed nu lam A B (length A - 1) (length B - 1))) as Hcalc.
  { apply mem_calculateCosts_twed; first [done | lia]. }
  destruct strict.
  - rewrite bool_decide_eq_true_2 by auto. cbn [py_assert]. rsimpl.
    by rewrite Hcalc.
  - rewrite bool_decide_eq_false_2 by lia. rsimpl. by rewrite Hcalc.
Qed.

Lemma memTWED_computes_recurrence_witness :
  memTWED.run (λ _, Inf) (int64 [1; 2; 3]%Z) (int64 [1; 2]%Z) _LAMBDA _NU
    false
  = ([], Ok (twed _NU _LAMBDA (int64 [1; 2; 3]%Z) (int64 [1; 2]%Z) 2 1))
  ∧ twed _NU _LAMBDA (int64 [1; 2; 3]%Z) (int64 [1; 2]%Z) 2 1
    = Fin (Q2Qc (1501 # 1000)).
Proof.
  split; [|by_evaluation].
  apply (memTWED_computes_recurrence (λ _, Inf) (int64 [1; 2; 3]%Z)
           (int64 [1; 2]%Z) _LAMBDA _NU false).
  - by vm_compute.
  - cbn. lia.
  - cbn. lia.
  - done.
Defined.

(** Property X5: for series of one common length, one sample or more,
    the full-matrix engine returns the corner entry of the matrix of the
    recurrence. *)
Theorem TWED_computes_recurrence (A B : list scalar) (lam nu : Qc) :
  0 ≤ nu → length A = length B → (1 ≤ length A)%nat →
  TWED.run A B lam nu
  = Ok (twed nu lam A B (length A - 1) (length B - 1)).
Proof. intros. by apply TWED_run_twed. Qed.

Lemma TWED_computes_recurrence_witness :
  TWED.run (int64 [10; 20; 30; 40; 50]%Z) (int64 [15; 25; 35; 45; 55]%Z)
    _LAMBDA _NU
  = Ok (twed _NU _LAMBDA (int64 [10; 20; 30; 40; 50]%Z)
          (int64 [15; 25; 35; 45; 55]%Z) 4 4)
  ∧ twed _NU _LAMBDA (int64 [10; 20; 30; 40; 50]%Z)
      (int64 [15; 25; 35; 45; 55]%Z) 4 4 = Fin (q 40).
Proof.
  split; [|by_evaluation].
  apply (TWED_computes_recurrence (int64 [10; 20; 30; 40; 50]%Z)
           (int64 [15; 25; 35; 45; 55]%Z) _LAMBDA _NU).
  - by vm_compute.
  - done.
  - cbn. lia.
Defined.

(** Property X6: for a reference series of two samples or more and a
    rectangular batch of rows of the same length, the batch engine
    returns, in the order of the rows, the corner entry of the matrix of
    the recurrence of every pair; an empty batch gives an empty result. *)
Theorem multiTWED_computes_recurrence (A : list scalar)
    (rows : list (list scalar))
    (lam nu : Qc) :
  0 ≤ nu → (2 ≤ length A)%nat →
  Forall (λ B, length B = length A) rows →
  multiTWED.run A (Array2D (length A) rows) lam nu
  = Ok ((λ B, twed nu lam A B (length A - 1) (length A - 1)) <$> rows).
Proof. apply multi_run_twed. Qed.

Lemma multiTWED_computes_recurrence_witness :
  multiTWED.run (int64 [1; 2; 3]%Z)
    (Array2D 3 [int64 [1; 2; 3]%Z; int64 [3; 2; 1]%Z]) _LAMBDA _NU
  = Ok [twed _NU _LAMBDA (int64 [1; 2; 3]%Z) (int64 [1; 2; 3]%Z) 2 2;
        twed _NU _LAMBDA (int64 [1; 2; 3]%Z) (int64 [3; 2; 1]%Z) 2 2]
  ∧ multiTWED.run (int64 [1; 2; 3]%Z) (Array2D 3 []) _LAMBDA _NU = Ok [].
Proof.
  split.
  - apply (multiTWED_computes_recurrence (int64 [1; 2; 3]%Z)
             [int64 [1; 2; 3]%Z; int64 [3; 2; 1]%Z] _LAMBDA _NU).
    + by vm_compute.
    + cbn. lia.
    + by repeat constructor.
  - apply (multiTWED_computes_recurrence (int64 [1; 2; 3]%Z) [] _LAMBDA _NU).
    + by vm_compute.
    + cbn. lia.
    + constructor.
Defined.

(** Property X7: on series of one common length, one sample or more, the
    rolling engine and the full-matrix engine return the same cost. *)
Theorem equal_lengths_same_cost (heap : nat → cost) (A B : list scalar)
    (lam nu : Qc) (strict : bool) :
  0 ≤ nu → length A = length B → (1 ≤ length A)%nat →
  ∃ c, TWED.run A B lam nu = Ok c
       ∧ memTWED.run heap A B lam nu strict = ([], Ok c).
Proof.
  intros Hnu Hlen HA. eexists. split.
  - by apply TWED_run_twed.
  - by apply mem_run_equal_lengths.
Qed.

Lemma equal_lengths_same_cost_witness :
  ∃ c, TWED.run (int64 [1; 2; 3]%Z) (int64 [3; 2; 1]%Z) _LAMBDA _NU = Ok c
       ∧ memTWED.run (λ _, Inf) (int64 [1; 2; 3]%Z) (int64 [3; 2; 1]%Z)
           _LAMBDA _NU true
         = ([], Ok c).
Proof.
  apply (equal_lengths_same_cost (λ _, Inf) (int64 [1; 2; 3]%Z)
           (int64 [3; 2; 1]%Z) _LAMBDA _NU true).
  - by vm_compute.
  - done.
  - cbn. lia.
Defined.

(** ** Sign, identity and finiteness of the cost *)

Lemma cost_le_antisym (a b : cost) : cost_le a b → cost_le b a → a = b.
Proof.
  destruct a, b; cbn; try done. intros. f_equal. by apply Qcle_antisym.
Qed.

Lemma cost_add_nonneg (c : cost) (x : Qc) :
  cost_le (Fin 0) c → 0 ≤ x → cost_le (Fin 0) (cost_add c x).
Proof. destruct c; cbn; [|done]. apply Qcplus_nonneg_nonneg. Qed.

Lemma cost_add2_nonneg (c : cost) (x y : Qc) :
  cost_le (Fin 0) c → 0 ≤ x + y →
  cost_le (Fin 0) (cost_add (cost_add c x) y).
Proof.
  destruct c as [v|]; cbn; [|done]. intros Hv Hxy.
  replace (v + x + y) with (v + (x + y)) by ring.
  by apply Qcplus_nonneg_nonneg.
Qed.

Section Sign.

Variables (nu lam : Qc) (A B : list scalar).
Hypothesis Hnu : 0 ≤ nu.
Hypothesis Hsum : 0 ≤ nu + lam.
Hypothesis HA : Forall small A.
Hypothesis HB : Forall small B.

Lemma entry_nonneg (i j : nat) (up left diag : cost) :
  cost_le (Fin 0) up → cost_le (Fin 0) left → cost_le (Fin 0) diag →
  cost_le (Fin 0) (entry nu lam A B i j up left diag).
Proof.
  intros Hup Hleft Hdiag. unfold entry, cell_value.
  assert (0 ≤ nu * Z2Qc 1 + lam) as Hstep.
  { change (Z2Qc 1) with 1. by replace (nu * 1 + lam) with (nu + lam) by ring. }
  match goal with |- cost_le _ (py_min3 ?a ?b ?c) =>
    destruct (py_min3_least a b c) as ([->|[->| ->]] & _) end.
  - apply cost_add2_nonneg; [|done].
    apply cost_add_nonneg; [done|].
    apply absdiff_nonneg; by apply sample_small.
  - apply cost_add2_nonneg; [|done].
    apply cost_add_nonneg; [done|].
    apply absdiff_nonneg; by apply sample_small.
  - repeat apply cost_add_nonneg; try done;
      try (apply absdiff_nonneg; by apply sample_small).
    apply Qcmult_nonneg_nonneg; [done|]. apply Z2Qc_nonneg. lia.
Qed.

Lemma twed_nonneg (i j : nat) : cost_le (Fin 0) (twed nu lam A B i j).
Proof.
  revert j. induction i as [|i IHi]; intros j.
  - destruct j; cbn; [apply Qcle_refl|done].
  - induction j as [|j IHj]; [done|].
    rewrite twed_unfold by lia. apply entry_nonneg.
    + replace (S i - 1)%nat with i by lia. apply IHi.
    + replace (S j - 1)%nat with j by lia. apply IHj.
    + replace (S i - 1)%nat with i by lia. apply IHi.
Qed.

End Sign.

(** Along the diagonal a series matches itself at no cost, as long as the
    deletions cost nothing negative. *)
Lemma twed_diagonal (nu lam : Qc) (A : list scalar) (i : nat) :
  0 ≤ nu → 0 ≤ nu + lam → Forall small A → twed nu lam A A i i = Fin 0.
Proof.
  intros Hnu Hsum HA. induction i as [|i IH]; [done|].
  rewrite twed_unfold by lia.
  replace (S i - 1)%nat with i by lia. rewrite IH.
  unfold entry, cell_value. rewrite !absdiff_self.
  replace (2 * Z.abs (Z.of_nat (S i) - Z.of_nat (S i)))%Z with 0%Z by lia.
  change (Z2Qc 0) with (0 : Qc). cbn [cost_add].
  replace (0 + 0 + 0 + nu * 0) with (0 : Qc) by ring.
  apply cost_le_antisym.
  - match goal with |- cost_le (py_min3 ?a ?b ?c) _ =>
      by destruct (py_min3_least a b c) as (_ & _ & _ & ?) end.
  - match goal with |- cost_le _ (py_min3 ?a ?b ?c) =>
      destruct (py_min3_least a b c) as ([->|[->| ->]] & _) end.
    + apply cost_add2_nonneg.
      * apply cost_add_nonneg; [by apply twed_nonneg|].
        apply absdiff_nonneg; by apply sample_small.
      * change (Z2Qc 1) with 1.
        by replace (nu * 1 + lam) with (nu + lam) by ring.
    + apply cost_add2_nonneg.
      * apply cost_add_nonneg; [by apply twed_nonneg|].
        apply absdiff_nonneg; by apply sample_small.
      * change (Z2Qc 1) with 1.
        by replace (nu * 1 + lam) with (nu + lam) by ring.
    + apply Qcle_refl.
Qed.

(** Off the boundary every entry of the recurrence is finite. *)
Lemma twed_finite (nu lam : Qc) (A B : list scalar) (i j : nat) :
  finite (twed nu lam A B (S i) (S j)).
Proof.
  revert j. induction i as [|i IHi]; intros j; induction j as [|j IHj];
    rewrite twed_unfold by lia; apply entry_finite.
  - right. right. cbn. by eexists.
  - right. left. by replace (S (S j) - 1)%nat with (S j) by lia.
  - left. replace (S (S i) - 1)%nat with (S i) by lia. apply IHi.
  - right. left. by replace (S (S j) - 1)%nat with (S j) by lia.
Qed.

(** Property X8: identity.  With [nu >= 0] and [nu + lambda >= 0] the
    cost of a series of two samples or more against itself is [0], for
    the three engines, when no difference of two samples overflows: the
    samples are [float64], or [int64] from [-2^62] up to, not including,
    [2^62]. *)
Theorem self_distance_zero (heap : nat → cost) (A : list scalar)
    (lam nu : Qc) (strict : bool) (k : nat) :
  0 ≤ nu → 0 ≤ nu + lam → (2 ≤ length A)%nat → Forall small A →
  TWED.run A A lam nu = Ok (Fin 0)
  ∧ memTWED.run heap A A lam nu strict = ([], Ok (Fin 0))
  ∧ multiTWED.run A (Array2D (length A) (replicate k A)) lam nu
    = Ok (replicate k (Fin 0)).
Proof.
  intros Hnu Hsum HA Hsmall. split_and!.
  - rewrite TWED_run_twed by (done || lia). by rewrite twed_diagonal.
  - rewrite mem_run_twed by (done || lia). by rewrite twed_diagonal.
  - rewrite multi_run_twed; [|done|done|by apply Forall_replicate].
    rewrite fmap_replicate. by rewrite twed_diagonal.
Qed.

Lemma self_distance_zero_witness :
  TWED.run (int64 [1; 2; 3]%Z) (int64 [1; 2; 3]%Z) _LAMBDA _NU = Ok (Fin 0)
  ∧ memTWED.run (λ _, Inf) (int64 [1; 2; 3]%Z) (int64 [1; 2; 3]%Z) _LAMBDA
      _NU false
    = ([], Ok (Fin 0))
  ∧ multiTWED.run (int64 [1; 2; 3]%Z)
      (Array2D 3 [int64 [1; 2; 3]%Z; int64 [1; 2; 3]%Z]) _LAMBDA _NU
    = Ok [Fin 0; Fin 0].
Proof.
  apply (self_distance_zero (λ _, Inf) (int64 [1; 2; 3]%Z) _LAMBDA _NU
           false 2).
  - by vm_compute.
  - by vm_compute.
  - cbn. lia.
  - repeat constructor; cbn; lia.
Defined.

(** Property X9: with [nu >= 0] and [nu + lambda >= 0] the rolling engine
    returns no negative cost for a reference series of two samples or more
    and a target series that is not longer, when no difference of two
    samples overflows. *)
Theorem memTWED_cost_nonnegative (heap : nat → cost) (A B : list scalar)
    (lam nu : Qc) :
  0 ≤ nu → 0 ≤ nu + lam →
  (2 ≤ length A)%nat → (length B ≤ length A)%nat →
  Forall small A → Forall small B →
  ∃ c, memTWED.run heap A B lam nu false = ([], Ok c) ∧ cost_le (Fin 0) c.
Proof.
  intros Hnu Hsum HA HB HsA HsB.
  destruct (decide (length B = 0)%nat) as [Hzero|Hpos].
  - destruct B; [|done]. rewrite mem_run_no_target by done.
    eexists. split; [done|]. destruct (decide _); cbn; [apply Qcle_refl|done].
  - rewrite mem_run_twed by (done || lia).
    eexists. split; [done|]. by apply twed_nonneg.
Qed.

Lemma memTWED_cost_nonnegative_witness :
  ∃ c, memTWED.run (λ _, Inf) (int64 [1; 2; 3]%Z) (int64 [3; 2; 1]%Z)
         _LAMBDA _NU false
       = ([], Ok c) ∧ cost_le (Fin 0) c.
Proof.
  apply (memTWED_cost_nonnegative (λ _, Inf) (int64 [1; 2; 3]%Z)
           (int64 [3; 2; 1]%Z) _LAMBDA _NU).
  - by vm_compute.
  - by vm_compute.
  - cbn. lia.
  - cbn. lia.
  - repeat constructor; cbn; lia.
  - repeat constructor; cbn; lia.
Defined.

(** Property X10: where the rolling engine returns for a target series
    that is not empty, the cost is infinite exactly for a target series of
    one sample: the inner loop is then empty and the cell returned is the
    sentinel of column [0]. *)
Theorem memTWED_cost_infinite_iff (heap : nat → cost) (A B : list scalar)
    (lam nu : Qc) :
  0 ≤ nu → (2 ≤ length A)%nat → (1 ≤ length B ≤ length A)%nat →
  (length B = 1%nat → memTWED.run heap A B lam nu false = ([], Ok Inf))
  ∧ ((2 ≤ length B)%nat →
     ∃ x, memTWED.run heap A B lam nu false = ([], Ok (Fin x))).
Proof.
  intros Hnu HA HB. rewrite mem_run_twed by (done || lia). split.
  - intros ->. by rewrite twed_col0 by lia.
  - intros HB2.
    destruct (twed_finite nu lam A B (length A - 2) (length B - 2)) as [x Hx].
    exists x. do 3 f_equal. rewrite <- Hx. f_equal; lia.
Qed.

Lemma memTWED_cost_infinite_iff_witness :
  memTWED.run (λ _, Fin 0) (int64 [1; 2; 3]%Z) (int64 [4]%Z) _LAMBDA _NU
    false = ([], Ok Inf)
  ∧ (memTWED.run (λ _, Fin 0) (int64 [1; 2; 3]%Z) (int64 [3; 2]%Z) _LAMBDA
       _NU false).2
    = Ok (Fin (Q2Qc (3501 # 1000))).
Proof.
  split; [|by_evaluation].
  apply (memTWED_cost_infinite_iff (λ _, Fin 0) (int64 [1; 2; 3]%Z)
           (int64 [4]%Z) _LAMBDA _NU).
  - by vm_compute.
  - cbn. lia.
  - cbn. lia.
  - done.
Defined.

(** Property X11: an empty target series is not rejected by a non-strict
    call: for a reference series of two samples or more no inner loop
    runs, and [matrix[mi, m-1]] with [m - 1 = -1] reads the last column of
    the untouched buffer, which holds [0] in row [1] and infinity in row
    [0].  The call returns [0] for an even number of reference samples and
    infinity for an odd number. *)
Theorem memTWED_empty_target (heap : nat → cost) (A : list scalar)
    (lam nu : Qc) :
  0 ≤ nu → (2 ≤ length A)%nat →
  memTWED.run heap A [] lam nu false
  = ([], Ok (if decide (length A mod 2 = 0)%nat then Fin 0 else Inf)).
Proof. apply mem_run_no_target. Qed.

Lemma memTWED_empty_target_witness :
  memTWED.run (λ _, Inf) (int64 [1; 2]%Z) [] _LAMBDA _NU false
  = ([], Ok (Fin 0))
  ∧ memTWED.run (λ _, Fin 0) (int64 [1; 2; 3]%Z) [] _LAMBDA _NU false
    = ([], Ok Inf).
Proof.
  split.
  - apply (memTWED_empty_target (λ _, Inf) (int64 [1; 2]%Z) _LAMBDA _NU);
      [by vm_compute|cbn; lia].
  - apply (memTWED_empty_target (λ _, Fin 0) (int64 [1; 2; 3]%Z) _LAMBDA
             _NU);
      [by vm_compute|cbn; lia].
Defined.

(** ** Monotonicity in the elasticity *)

Lemma twed_mono (nu1 nu2 lam1 lam2 : Qc) (A B : list scalar) (i j : nat) :
  nu1 ≤ nu2 → lam1 ≤ lam2 →
  cost_le (twed nu1 lam1 A B i j) (twed nu2 lam2 A B i j).
Proof.
  intros Hnu Hlam. revert j. induction i as [|i IHi]; intros j.
  - destruct j; cbn; [apply Qcle_refl|done].
  - induction j as [|j IHj]; [done|].
    rewrite (twed_unfold nu1 lam1), (twed_unfold nu2 lam2) by lia.
    unfold entry, cell_value.
    replace (S i - 1)%nat with i by lia.
    replace (S j - 1)%nat with j by lia.
    apply py_min3_mono; repeat apply cost_add_mono;
      try done; try apply Qcle_refl;
      (apply Qcmult_le_compat_r; [done|apply Z2Qc_nonneg; lia]).
Qed.

(** Property X12: for fixed series and fixed [lambda], raising [nu] never
    lowers the cost, for the rolling engine wherever it computes the
    recurrence and for the full-matrix engine on series of one common
    length. *)
Theorem cost_monotone_in_nu (heap : nat → cost) (A B : list scalar)
    (lam nu1 nu2 : Qc) :
  0 ≤ nu1 → nu1 ≤ nu2 →
  (2 ≤ length A)%nat → (1 ≤ length B ≤ length A)%nat →
  (∃ c1 c2, memTWED.run heap A B lam nu1 false = ([], Ok c1)
            ∧ memTWED.run heap A B lam nu2 false = ([], Ok c2)
            ∧ cost_le c1 c2)
  ∧ (length A = length B →
     ∃ c1 c2, TWED.run A B lam nu1 = Ok c1
              ∧ TWED.run A B lam nu2 = Ok c2
              ∧ cost_le c1 c2).
Proof.
  intros Hnu1 Hnu HA HB.
  assert (0 ≤ nu2) as Hnu2 by (by eapply Qcle_trans).
  split.
  - eexists _, _. rewrite !mem_run_twed by (done || lia).
    split_and!; [done..|]. apply twed_mono; [done|apply Qcle_refl].
  - intros Hlen. eexists _, _. rewrite !TWED_run_twed by (done || lia).
    split_and!; [done..|]. apply twed_mono; [done|apply Qcle_refl].
Qed.

Lemma cost_monotone_in_nu_witness :
  (memTWED.run (λ _, Inf) (int64 [1; 2; 3]%Z) (int64 [3; 2]%Z) _LAMBDA 0
     false).2
  = Ok (Fin (Q2Qc (3001 # 1000)))
  ∧ (memTWED.run (λ _, Inf) (int64 [1; 2; 3]%Z) (int64 [3; 2]%Z) _LAMBDA
       _NU false).2
    = Ok (Fin (Q2Qc (3501 # 1000)))
  ∧ ∃ c1 c2, memTWED.run (λ _, Inf) (int64 [1; 2; 3]%Z) (int64 [3; 2]%Z)
               _LAMBDA 0 false
             = ([], Ok c1)
             ∧ memTWED.run (λ _, Inf) (int64 [1; 2; 3]%Z) (int64 [3; 2]%Z)
                 _LAMBDA _NU false
               = ([], Ok c2)
             ∧ cost_le c1 c2.
Proof.
  split; [by_evaluation|]. split; [by_evaluation|].
  apply (cost_monotone_in_nu (λ _, Inf) (int64 [1; 2; 3]%Z)
           (int64 [3; 2]%Z) _LAMBDA 0 _NU).
  - by vm_compute.
  - by vm_compute.
  - cbn. lia.
  - cbn. lia.
Defined.

(** ** Batches whose rows are longer or shorter than the reference *)

Lemma for_each_ext {S : Type} (xs : list nat)
    (body1 body2 : nat → S → result S) (s : S) :
  (∀ x s, x ∈ xs → body1 x s = body2 x s) →
  for_each xs body1 s = for_each xs body2 s.
Proof.
  revert s. induction xs as [|x xs IH]; intros s Hext; cbn; [done|].
  rewrite Hext by left. destruct (body2 x s) as [s'|e]; rsimpl; [|done].
  apply IH. intros y s0 Hy. apply Hext. by right.
Qed.

Lemma sample_take (n j : nat) (B : list scalar) :
  (j < n)%nat → sample (take n B) j = sample B j.
Proof. intros Hj. unfold sample. by rewrite lookup_take_lt. Qed.

(** The columns the sweep reads are columns of the truncated batch. *)
Lemma np_column_take (ncols n j : nat) (rows : list (list scalar)) :
  (j < n ≤ ncols)%nat → Forall (λ B, length B = ncols) rows →
  np_column (Array2D ncols rows) j
  = np_column (Array2D n (take n <$> rows)) j.
Proof.
  intros Hj Hrows. rewrite !np_column_samples; try lia; try done.
  - f_equal. rewrite <- list_fmap_compose. apply list_fmap_ext.
    intros k B _. cbn. by rewrite sample_take by lia.
  - apply Forall_fmap. eapply Forall_impl; [|exact Hrows].
    intros B HB. unfold compose. rewrite length_take, HB. lia.
Qed.

Lemma multi_cell_take (ncols n : nat) (nu lam : Qc) (A : list scalar)
    (rows : list (list scalar)) (mi ai i j : nat) (mat : array3) :
  (1 ≤ j < n)%nat → (n ≤ ncols)%nat →
  Forall (λ B, length B = ncols) rows →
  multiTWED.cell n nu lam A (Array2D ncols rows) mi ai i j mat
  = multiTWED.cell n nu lam A (Array2D n (take n <$> rows)) mi ai i j mat.
Proof.
  intros Hj Hn Hrows. unfold multiTWED.cell.
  by rewrite (np_column_take ncols n (j - 1)), (np_column_take ncols n j)
    by (done || lia).
Qed.

Lemma multi_sweep_take (ncols n : nat) (nu lam : Qc) (A : list scalar)
    (rows : list (list scalar)) (mat : array3) :
  (n ≤ ncols)%nat → Forall (λ B, length B = ncols) rows →
  multiTWED.sweep n n nu lam A (Array2D ncols rows) (range 1 n) mat
  = multiTWED.sweep n n nu lam A (Array2D n (take n <$> rows)) (range 1 n)
      mat.
Proof.
  intros Hn Hrows. unfold multiTWED.sweep. apply for_each_ext.
  intros i st _. unfold multiTWED.outer, multiTWED.inner.
  rewrite (for_each_ext _ _
             (multiTWED.cell n nu lam A (Array2D n (take n <$> rows))
                (multiTWED.row_of i)
                (multiTWED.other_row (multiTWED.row_of i)) i)); [done|].
  intros j mat' Hj%elem_of_range. by apply multi_cell_take.
Qed.

Lemma multi_run_take (A : list scalar) (ncols : nat) (rows : list (list scalar))
    (lam nu : Qc) :
  (length A ≤ ncols)%nat → Forall (λ B, length B = ncols) rows →
  multiTWED.run A (Array2D ncols rows) lam nu
  = multiTWED.run A (Array2D (length A) (take (length A) <$> rows)) lam nu.
Proof.
  intros Hn Hrows. unfold multiTWED.run, multiTWED.__init__.
  destruct (bool_decide (0 ≤ nu)); cbn [py_assert]; rsimpl; [|done].
  cbn [np_shape length]. rewrite !bool_decide_eq_true_2 by done.
  cbn [py_assert]. rsimpl. cbn [np_len]. rewrite length_fmap.
  unfold multiTWED.calculateCosts, multiTWED._init_matrix.
  cbn [multiTWED.n multiTWED.m multiTWED._nu multiTWED._lambda multiTWED.t1
       multiTWED.t2 multiTWED.numSeries].
  match goal with |- ?x ≫= _ = _ => destruct x as [mat|e] end;
    rsimpl; [|done].
  by rewrite (multi_sweep_take ncols) by done.
Qed.

Lemma map_result_is_Ok {Y Z : Type} (g : Y → result Z) (ys : list Y) :
  Forall (λ y, is_Ok (g y)) ys → is_Ok (map_result g ys).
Proof.
  induction 1 as [|y ys [z Hz] _ [zs IH]]; [by eexists|].
  cbn. rewrite Hz. rsimpl. rewrite IH. by eexists.
Qed.

Lemma get_slice_is_Ok (n r j : nat) (mat : array3) :
  Forall (shape2 2 n) mat → (r < 2)%nat → (j < n)%nat →
  is_Ok (get_slice n mat r j).
Proof.
  intros Hmat Hr Hj. unfold get_slice, check_axis.
  rewrite !decide_True by done. rsimpl. apply map_result_is_Ok.
  eapply Forall_impl; [|exact Hmat]. intros buf Hshape. cbn beta.
  rewrite get2_at2.
  destruct (proj2 (shape2_at2 _ _ _ r j Hshape)) as [x ->]; [lia|].
  by eexists.
Qed.

Lemma set_slice_shape (n r j : nat) (mat : array3) (v : list cost) :
  Forall (shape2 2 n) mat → (r < 2)%nat → (j < n)%nat →
  ∃ mat', set_slice n mat r j v = Ok mat' ∧ Forall (shape2 2 n) mat'.
Proof.
  intros Hmat Hr Hj. unfold set_slice, check_axis.
  rewrite !decide_True by done. rsimpl. revert v.
  induction Hmat as [|buf mat Hshape _ IH]; intros v.
  { exists []. by split. }
  destruct v as [|x v]; [exists []; by split|].
  cbn. rewrite set2_at2.
  destruct (proj2 (shape2_at2 _ _ _ r j Hshape)) as [old ->]; [lia|].
  rsimpl. destruct (IH v) as (mat' & -> & Hmat'). rsimpl.
  eexists. split; [done|]. constructor; [by apply shape2_upd2|done].
Qed.

(** A step of the batch engine inside the columns of the batch. *)
Lemma multi_cell_shape (ncols n : nat) (nu lam : Qc) (A : list scalar)
    (rows : list (list scalar)) (mi ai i j : nat) (mat : array3) :
  Forall (shape2 2 n) mat → Forall (λ B, length B = ncols) rows →
  (1 ≤ i < length A)%nat → (1 ≤ j < n)%nat → (j < ncols)%nat →
  (mi < 2)%nat → (ai < 2)%nat →
  ∃ mat', multiTWED.cell n nu lam A (Array2D ncols rows) mi ai i j mat
          = Ok mat'
          ∧ Forall (shape2 2 n) mat'.
Proof.
  intros Hmat Hrows Hi Hj Hcol Hmi Hai. unfold multiTWED.cell.
  destruct (get_slice_is_Ok n ai j mat) as [a ->]; [done|lia|lia|]. rsimpl.
  rewrite !getitem_sample by lia. rsimpl.
  destruct (get_slice_is_Ok n mi (j - 1) mat) as [b ->]; [done|lia|lia|].
  rsimpl. rewrite !np_column_samples by (done || lia). rsimpl.
  destruct (get_slice_is_Ok n ai (j - 1) mat) as [c ->]; [done|lia|lia|].
  rsimpl. apply set_slice_shape; (done || lia).
Qed.

(** A step of the batch engine at a column the batch does not have. *)
Lemma multi_cell_outside (ncols n : nat) (nu lam : Qc) (A : list scalar)
    (rows : list (list scalar)) (mi ai i j : nat) (mat : array3) :
  Forall (shape2 2 n) mat → Forall (λ B, length B = ncols) rows →
  (1 ≤ i < length A)%nat → (1 ≤ j < n)%nat → (ncols ≤ j)%nat →
  (mi < 2)%nat → (ai < 2)%nat →
  multiTWED.cell n nu lam A (Array2D ncols rows) mi ai i j mat
  = Raise IndexError.
Proof.
  intros Hmat Hrows Hi Hj Hcol Hmi Hai. unfold multiTWED.cell.
  destruct (get_slice_is_Ok n ai j mat) as [a ->]; [done|lia|lia|]. rsimpl.
  rewrite !getitem_sample by lia. rsimpl.
  destruct (get_slice_is_Ok n mi (j - 1) mat) as [b ->]; [done|lia|lia|].
  rsimpl.
  destruct (decide (j - 1 < ncols)%nat) as [Hprev|Hprev].
  - rewrite (np_column_samples ncols (j - 1)) by done. rsimpl.
    unfold np_column, check_axis. rewrite decide_False by lia. reflexivity.
  - assert (np_column (Array2D ncols rows) (j - 1) = Raise IndexError)
      as ->; [|done].
    unfold np_column, check_axis. by rewrite decide_False by lia.
Qed.

Lemma multi_run_short_rows (A : list scalar) (ncols : nat)
    (rows : list (list scalar)) (lam nu : Qc) :
  0 ≤ nu → (2 ≤ length A)%nat → (ncols < length A)%nat →
  Forall (λ B, length B = ncols) rows →
  multiTWED.run A (Array2D ncols rows) lam nu = Raise IndexError.
Proof.
  intros Hnu HA Hcols Hrows. unfold multiTWED.run, multiTWED.__init__.
  rewrite bool_decide_eq_true_2 by done. cbn [py_assert np_shape length].
  rewrite bool_decide_eq_true_2 by done. cbn [py_assert]. rsimpl.
  unfold multiTWED.calculateCosts.
  assert (∃ w, length A = S w) as [w Hlen] by (exists (length A - 1)%nat; lia).
  rewrite (multi_init_matrix_eq _ w) by done. rsimpl.
  cbn [multiTWED.n multiTWED.m multiTWED._nu multiTWED._lambda multiTWED.t1
       multiTWED.t2 multiTWED.numSeries np_len].
  unfold multiTWED.sweep. rewrite (range_cons 1 (length A)) by lia.
  cbn [for_each].
  match goal with |- (?x ≫= _) ≫= _ = _ =>
    assert (x = Raise IndexError) as ->; [|done] end.
  unfold multiTWED.outer, multiTWED.inner. cbn [fst].
  assert (∃ j0, j0 = Nat.max 1 ncols) as [j0 Hj0] by by eexists.
  assert (range 1 (length A) = range 1 j0 ++ j0 :: range (S j0) (length A))
    as ->.
  { unfold range.
    replace (length A - 1)%nat
      with ((j0 - 1) + S (length A - S j0))%nat by lia.
    rewrite seq_app. by replace (1 + (j0 - 1))%nat with j0 by lia. }
  rewrite for_each_app.
  destruct (for_range_inv (λ _, Forall (shape2 2 (length A)))
              (multiTWED.cell (length A) nu lam A (Array2D ncols rows)
                 (multiTWED.row_of 1)
                 (multiTWED.other_row (multiTWED.row_of 1)) 1)
              1 j0
              (replicate (length rows)
                 [Fin 0 :: replicate w Inf; Inf :: replicate w (Fin 0)]))
    as (mat & -> & Hmat); [lia| | |].
  - apply Forall_replicate. split; [done|]. rewrite Hlen.
    repeat constructor; cbn; by rewrite length_replicate.
  - intros j mat Hj Hmat.
    change (multiTWED.row_of 1) with 1%nat.
    change (multiTWED.other_row 1) with 0%nat.
    apply multi_cell_shape; try done; lia.
  - rsimpl. cbn [for_each].
    change (multiTWED.row_of 1) with 1%nat.
    change (multiTWED.other_row 1) with 0%nat.
    rewrite multi_cell_outside; try done; lia.
Qed.

(** Property X13: the batch engine compares the length of the rows with
    nothing.  Rows longer than the reference series are silently cut: the
    result is that of the batch truncated to [len(t1)] columns, whatever
    the samples beyond. *)
Theorem multiTWED_ignores_extra_columns (A : list scalar) (ncols : nat)
    (rows : list (list scalar)) (lam nu : Qc) :
  (length A ≤ ncols)%nat → Forall (λ B, length B = ncols) rows →
  multiTWED.run A (Array2D ncols rows) lam nu
  = multiTWED.run A (Array2D (length A) (take (length A) <$> rows)) lam nu.
Proof. apply multi_run_take. Qed.

Lemma multiTWED_ignores_extra_columns_witness :
  multiTWED.run (int64 [1; 2]%Z) (Array2D 3 [int64 [1; 2; 99]%Z]) _LAMBDA _NU
  = multiTWED.run (int64 [1; 2]%Z) (Array2D 2 [int64 [1; 2]%Z]) _LAMBDA _NU.
Proof.
  apply (multiTWED_ignores_extra_columns (int64 [1; 2]%Z) 3 [int64 [1; 2; 99]%Z]
           _LAMBDA _NU).
  - cbn. lia.
  - by repeat constructor.
Defined.

(** Property X14: the batch engine, complete.  A batch that is not
    two-dimensional is refused by the constructor.  For a two-dimensional
    batch the call returns exactly when [nu >= 0], the reference series
    has two samples or more and the rows have at least as many columns;
    with fewer columns the constructor accepts the batch and the sweep
    raises [IndexError], also for a batch without rows. *)
Theorem multiTWED_outcome (A : list scalar) (ncols : nat)
    (rows items : list (list scalar)) (lam nu : Qc) :
  Forall (λ B, length B = ncols) rows →
  (is_Ok (multiTWED.run A (Array2D ncols rows) lam nu)
   ↔ 0 ≤ nu ∧ (2 ≤ length A ≤ ncols)%nat)
  ∧ (0 ≤ nu → (2 ≤ length A)%nat → (ncols < length A)%nat →
     is_Ok (multiTWED.__init__ A (Array2D ncols rows) lam nu)
     ∧ multiTWED.run A (Array2D ncols rows) lam nu = Raise IndexError)
  ∧ (0 ≤ nu →
     multiTWED.run A (Array1D items) lam nu
     = Raise (AssertionError NotAMatrix)).
Proof.
  intros Hrows. split_and!.
  - split.
    + intros [v Hv]. destruct (Qclt_le_dec nu 0) as [Hneg|Hnu].
      { by rewrite multi_run_nu_negative in Hv. }
      split; [done|].
      destruct (decide (2 ≤ length A)%nat) as [Hbig|Hsmall].
      * destruct (decide (ncols < length A)%nat) as [Hcols|?]; [|lia].
        by rewrite multi_run_short_rows in Hv.
      * destruct A as [|a [|??]]; [| |cbn in Hsmall; lia].
        -- by rewrite multi_run_empty in Hv.
        -- by rewrite multi_run_one in Hv.
    + intros [Hnu [HA Hcols]]. rewrite multi_run_take by done.
      rewrite multi_run_twed; [by eexists|done|done|].
      apply Forall_fmap. eapply Forall_impl; [|exact Hrows].
      intros B HB. unfold compose. rewrite length_take, HB. lia.
  - intros Hnu HA Hcols. split; [|by apply multi_run_short_rows].
    unfold multiTWED.__init__.
    rewrite (bool_decide_eq_true_2 (0 ≤ nu)) by done. by eexists.
  - intros Hnu. unfold multiTWED.run, multiTWED.__init__.
    by rewrite (bool_decide_eq_true_2 (0 ≤ nu)) by done.
Qed.

Lemma multiTWED_outcome_witness :
  is_Ok (multiTWED.__init__ (int64 [1; 2; 3]%Z) (Array2D 2 [int64 [1; 2]%Z])
           _LAMBDA _NU)
  ∧ multiTWED.run (int64 [1; 2; 3]%Z) (Array2D 2 [int64 [1; 2]%Z]) _LAMBDA _NU
    = Raise IndexError.
Proof.
  destruct (multiTWED_outcome (int64 [1; 2; 3]%Z) 2 [int64 [1; 2]%Z] [] _LAMBDA _NU)
    as (_ & H & _); [by repeat constructor|].
  apply H; [by vm_compute|cbn; lia|cbn; lia].
Defined.

(** ** The initial matrices *)

(** Property X15: [TWED._init_matrix(n, m)] returns exactly when
    [1 <= n <= m], and raises [IndexError] otherwise.  The matrix it
    returns has [n] rows of [m] entries: [0] at the origin, infinity in
    the rest of column [0] and in the columns [1 .. n-1] of row [0], and
    [0] everywhere else. *)
Theorem TWED_init_matrix_spec (n m : nat) :
  (is_Ok (TWED._init_matrix n m) ↔ (1 ≤ n ≤ m)%nat)
  ∧ (¬ (1 ≤ n ≤ m)%nat → TWED._init_matrix n m = Raise IndexError)
  ∧ (∀ mat, TWED._init_matrix n m = Ok mat →
       shape2 n m mat ∧
       ∀ a b, (a < n)%nat → (b < m)%nat →
         at2 mat a b
         = Some (if decide (a = 0 ∧ b = 0)%nat then Fin 0
                 else if decide (b = 0 ∨ (a = 0 ∧ b < n))%nat then Inf
                 else Fin 0)).
Proof.
  destruct (decide (1 ≤ n ≤ m)%nat) as [Hnm|Hnm].
  - destruct (TWED_init_matrix_cells n m Hnm) as (mat & Hmat & Hshape & Hcells).
    rewrite Hmat. split_and!.
    + split; [done|]. by eexists.
    + done.
    + intros ? [= <-]. split; [done|]. intros a b Ha Hb.
      rewrite Hcells by done. f_equal. unfold TWED_sentinel, TWED_init_cell.
      repeat destruct (decide _); try done; lia.
  - assert (TWED._init_matrix n m = Raise IndexError) as ->.
    { destruct (decide (n = 0)%nat) as [->|Hpos]; [done|].
      apply TWED_init_matrix_wide. lia. }
    split_and!; [|done|done]. split; [by intros [? [=]]|done].
Qed.

Lemma TWED_init_matrix_spec_witness :
  TWED._init_matrix 3 3
  = Ok [[Fin 0; Inf; Inf]; [Inf; Fin 0; Fin 0]; [Inf; Fin 0; Fin 0]]
  ∧ is_Ok (TWED._init_matrix 3 3)
  ∧ TWED._init_matrix 0 3 = Raise IndexError.
Proof.
  destruct (TWED_init_matrix_spec 3 3) as (Hok & _ & _).
  destruct (TWED_init_matrix_spec 0 3) as (_ & Hraise & _).
  split; [reflexivity|]. split; [apply Hok; lia|apply Hraise; lia].
Defined.

(** Property X16: the buffer of the batch engine is [numSeries] copies of
    the buffer of the rolling engine for the same number of reference
    samples; both raise [IndexError] for an empty reference series. *)
Theorem multiTWED_init_matrix_planes (batch : multiTWED.t)
    (single : memTWED.t) :
  multiTWED.n batch = memTWED.n single →
  multiTWED._init_matrix batch
  = (matrix ← memTWED._init_matrix single;
     Ok (replicate (multiTWED.numSeries batch) matrix)).
Proof.
  intros Hn. destruct (decide (memTWED.n single = 0)%nat) as [Hzero|Hpos].
  - rewrite mem_init_matrix_empty by done. rsimpl.
    unfold multiTWED._init_matrix, zeros3. rewrite Hn, Hzero.
    by rewrite (map_result_replicate _ _ _ [[]; []]).
  - assert (∃ w, memTWED.n single = S w) as [w Hw]
      by (exists (memTWED.n single - 1)%nat; lia).
    rewrite (mem_init_matrix_eq single w Hw). rsimpl.
    apply multi_init_matrix_eq. congruence.
Qed.

Lemma multiTWED_init_matrix_planes_witness :
  multiTWED._init_matrix
    (multiTWED.Build (int64 [1; 2]%Z) (Array2D 2 [int64 [1; 2]%Z; int64 [2; 1]%Z])
       _LAMBDA _NU 2 2 2)
  = Ok [[[Fin 0; Inf]; [Inf; Fin 0]]; [[Fin 0; Inf]; [Inf; Fin 0]]].
Proof.
  rewrite (multiTWED_init_matrix_planes _
             (memTWED.Build (int64 [1; 2]%Z) (int64 [1; 2]%Z) _LAMBDA _NU 2 2));
    reflexivity.
Defined.

(** ** The cells behind the buffer *)

(** Property X17: with a target series that is not longer than the
    reference series the rolling engine stays inside its buffer: the sweep
    returns with every cell behind the buffer as it found it, and the cost
    returned does not depend on those cells. *)
Theorem memTWED_stays_in_buffer (heap heap' : nat → cost)
    (A B : list scalar) (lam nu : Qc) :
  0 ≤ nu → (1 ≤ length A)%nat → (length B ≤ length A)%nat →
  (∃ buf st,
     memTWED._init_matrix (memTWED.Build A B lam nu (length A) (length B))
     = Ok buf
     ∧ memTWED.sweep (length B) nu lam A B (range 1 (length A))
         (to_carray buf heap) = Ok st
     ∧ ∀ k, cells st.1 (2 * length A + k) = heap k)
  ∧ memTWED.run heap A B lam nu false = memTWED.run heap' A B lam nu false.
Proof.
  intros Hnu HA Hwidth. split.
  - assert (∃ w, length A = S w) as [w Hw] by (exists (length A - 1)%nat; lia).
    rewrite (mem_init_matrix_eq _ w) by done.
    destruct (init_carray heap w) as [Hshape _].
    destruct (mem_sweep_frame nu lam A B heap (range 1 (length A))
                (to_carray [Fin 0 :: replicate w Inf;
                            Inf :: replicate w (Fin 0)] heap, 0%nat))
      as (st & Hrun & _ & Hheap); [done|done| |cbn [fst]; congruence| |].
    + by intros i Hi%elem_of_range.
    + cbn [fst]. rewrite Hw. apply to_carray_heap, init_buffer_shape.
    + eexists _, st. split; [done|]. split; [exact Hrun|exact Hheap].
  - destruct (decide (length A = 1)%nat) as [Hone|Hmore].
    { rewrite !mem_run_nonstrict by done. f_equal.
      rewrite !mem_calc_one_sample by done. cbn [memTWED.m].
      by destruct (length B) as [|[|?]]; [..|lia]. }
    destruct (decide (length B = 0)%nat) as [Hzero|Hpos].
    { destruct B; [|done]. by rewrite !mem_run_no_target by (done || lia). }
    by rewrite !mem_run_twed by (done || lia).
Qed.

Lemma memTWED_stays_in_buffer_witness :
  memTWED.run (λ _, Inf) (int64 [1; 2; 3]%Z) (int64 [3; 2]%Z) _LAMBDA _NU
    false
  = memTWED.run (λ _, Fin 1) (int64 [1; 2; 3]%Z) (int64 [3; 2]%Z) _LAMBDA
      _NU false.
Proof.
  apply (memTWED_stays_in_buffer (λ _, Inf) (λ _, Fin 1) (int64 [1; 2; 3]%Z)
           (int64 [3; 2]%Z) _LAMBDA _NU).
  - by vm_compute.
  - cbn. lia.
  - cbn. lia.
Defined.

(** Property X21: a reference series of one sample.  The outer loop of the
    rolling engine is empty and the compiled code returns
    [matrix[0, m-1]] of the initial buffer, whose two cells are [0] and
    infinity: [0] for a target series of at most one sample, infinity for
    two samples, and from three samples on the cell [m - 3] behind the
    buffer, which the call has not written. *)
Theorem memTWED_one_sample_reference (heap : nat → cost) (a : scalar)
    (B : list scalar) (lam nu : Qc) :
  0 ≤ nu →
  (memTWED.run heap [a] B lam nu false).2
  = Ok (one_sample_cost heap (length B))
  ∧ ((length B ≤ 1)%nat →
     (memTWED.run heap [a] B lam nu false).2 = Ok (Fin 0))
  ∧ (length B = 2%nat → (memTWED.run heap [a] B lam nu false).2 = Ok Inf)
  ∧ ((3 ≤ length B)%nat →
     (memTWED.run heap [a] B lam nu false).2
     = Ok (heap (length B - 3)%nat)).
Proof.
  intros Hnu. rewrite mem_run_nonstrict by done. cbn [snd].
  rewrite mem_calc_one_sample by done. cbn [memTWED.m].
  split_and!; [done|..].
  - intros HB. by destruct (length B) as [|[|?]]; [..|lia].
  - by intros ->.
  - intros HB. destruct (length B) as [|[|[|k]]]; try lia.
    cbn [one_sample_cost]. do 2 f_equal. lia.
Qed.

Lemma memTWED_one_sample_reference_witness :
  (memTWED.run (λ k, Fin (q (Z.of_nat k))) [I64 5]
     (int64 [7; 8; 9; 10]%Z) _LAMBDA _NU false).2
  = Ok (Fin (q 1)).
Proof.
  destruct (memTWED_one_sample_reference (λ k, Fin (q (Z.of_nat k)))
              (I64 5) (int64 [7; 8; 9; 10]%Z) _LAMBDA _NU)
    as (_ & _ & _ & H); [by vm_compute|].
  apply H. cbn. lia.
Defined.

(** ** Offsets and symmetry *)

Lemma sample_fmap (f : scalar → scalar) (l : list scalar) (i : nat) :
  (i < length l)%nat → sample (f <$> l) i = f (sample l i).
Proof.
  intros Hi. unfold sample. rewrite list_lookup_fmap.
  by destruct (lookup_lt_is_Some_2 l i Hi) as [x ->].
Qed.

(** The recurrence reads the samples only through their distances. *)
Lemma twed_ext (nu lam : Qc) (P : scalar → Prop) (f : scalar → scalar)
    (A B : list scalar) (i j : nat) :
  (∀ x y, P x → P y → absdiff (f x) (f y) = absdiff x y) →
  Forall P A → Forall P B →
  (i < length A)%nat → (j < length B)%nat →
  twed nu lam (f <$> A) (f <$> B) i j = twed nu lam A B i j.
Proof.
  intros Hf HA HB.
  assert (∀ k, (k < length A)%nat → P (sample A k)) as HPA.
  { intros k Hk. unfold sample.
    destruct (lookup_lt_is_Some_2 A k Hk) as [x Hx]. rewrite Hx.
    rewrite Forall_lookup in HA. by apply (HA k). }
  assert (∀ k, (k < length B)%nat → P (sample B k)) as HPB.
  { intros k Hk. unfold sample.
    destruct (lookup_lt_is_Some_2 B k Hk) as [x Hx]. rewrite Hx.
    rewrite Forall_lookup in HB. by apply (HB k). }
  revert j. induction i as [|i IHi]; intros j Hi Hj.
  - by destruct j.
  - induction j as [|j IHj]; [done|].
    rewrite !(twed_unfold _ _ _ _ (S i) (S j)) by lia.
    replace (S i - 1)%nat with i by lia.
    replace (S j - 1)%nat with j by lia.
    rewrite IHj, !IHi by lia. unfold entry, cell_value.
    replace (S i - 1)%nat with i by lia.
    replace (S j - 1)%nat with j by lia.
    rewrite !sample_fmap by lia.
    rewrite !Hf by (apply HPA || apply HPB; lia). done.
Qed.

(** [int64] samples shifted by an integer, with wrap-around, and [float64]
    samples shifted by a rational. *)
Lemma absdiff_shift_int (c a b : Z) :
  absdiff (I64 (wrap64 (a + c))) (I64 (wrap64 (b + c)))
  = absdiff (I64 a) (I64 b).
Proof.
  unfold absdiff. cbn. do 3 f_equal.
  unfold wrap64. Z.to_euclidean_division_equations. lia.
Qed.

Lemma absdiff_shift_float (c p r : Qc) :
  absdiff (F64 (p + c)) (F64 (r + c)) = absdiff (F64 p) (F64 r).
Proof. unfold absdiff. cbn. f_equal. ring. Qed.

(** Property X18: adding one constant to every sample of both series
    leaves the cost of the rolling engine unchanged: a rational added to
    [float64] samples, and an integer added to [int64] samples, also where
    the sums wrap around. *)
Theorem memTWED_offset_invariant (heap : nat → cost) (lam nu : Qc) :
  0 ≤ nu →
  (∀ (A B : list Qc) (c : Qc),
     (2 ≤ length A)%nat → (1 ≤ length B ≤ length A)%nat →
     memTWED.run heap (float64 ((λ x, x + c) <$> A))
       (float64 ((λ x, x + c) <$> B)) lam nu false
     = memTWED.run heap (float64 A) (float64 B) lam nu false)
  ∧ (∀ (A B : list Z) (c : Z),
       (2 ≤ length A)%nat → (1 ≤ length B ≤ length A)%nat →
       memTWED.run heap (int64 ((λ z, wrap64 (z + c)) <$> A))
         (int64 ((λ z, wrap64 (z + c)) <$> B)) lam nu false
       = memTWED.run heap (int64 A) (int64 B) lam nu false).
Proof.
  intros Hnu. split.
  - intros A B c HA HB. unfold float64.
    rewrite !mem_run_twed by (rewrite ?length_fmap; (done || lia)).
    rewrite !length_fmap. do 2 f_equal.
    assert (∀ l : list Qc,
              F64 <$> ((λ x, x + c) <$> l)
              = (λ x, match x with F64 p => F64 (p + c) | _ => x end)
                <$> (F64 <$> l)) as Hmap.
    { intros l. by rewrite <- !list_fmap_compose. }
    rewrite !Hmap.
    apply (twed_ext nu lam (λ x, ∃ p, x = F64 p));
      try (rewrite length_fmap; lia).
    + intros x y [p ->] [r ->]. apply absdiff_shift_float.
    + apply Forall_fmap, Forall_forall. intros p _. by exists p.
    + apply Forall_fmap, Forall_forall. intros p _. by exists p.
  - intros A B c HA HB. unfold int64.
    rewrite !mem_run_twed by (rewrite ?length_fmap; (done || lia)).
    rewrite !length_fmap. do 2 f_equal.
    assert (∀ l : list Z,
              I64 <$> ((λ z, wrap64 (z + c)) <$> l)
              = (λ x, match x with I64 a => I64 (wrap64 (a + c)) | _ => x end)
                <$> (I64 <$> l)) as Hmap.
    { intros l. by rewrite <- !list_fmap_compose. }
    rewrite !Hmap.
    apply (twed_ext nu lam (λ x, ∃ a, x = I64 a));
      try (rewrite length_fmap; lia).
    + intros x y [a ->] [b ->]. apply absdiff_shift_int.
    + apply Forall_fmap, Forall_forall. intros a _. by exists a.
    + apply Forall_fmap, Forall_forall. intros a _. by exists a.
Qed.

Lemma memTWED_offset_invariant_witness :
  memTWED.run (λ _, Inf) (int64 ((λ z, wrap64 (z + 100)) <$> [1; 2; 3]%Z))
    (int64 ((λ z, wrap64 (z + 100)) <$> [3; 2; 1]%Z)) _LAMBDA _NU false
  = memTWED.run (λ _, Inf) (int64 [1; 2; 3]%Z) (int64 [3; 2; 1]%Z) _LAMBDA
      _NU false.
Proof.
  destruct (memTWED_offset_invariant (λ _, Inf) _LAMBDA _NU) as [_ H];
    [by vm_compute|].
  apply (H [1; 2; 3]%Z [3; 2; 1]%Z 100%Z); cbn; lia.
Defined.

(** Property X19: the full-matrix engine is symmetric on series of one
    common length: swapping the two series gives the same outcome, a cost
    when [nu >= 0] and the series are not empty. *)
Theorem TWED_symmetric (A B : list scalar) (lam nu : Qc) :
  length A = length B →
  TWED.run A B lam nu = TWED.run B A lam nu
  ∧ (0 ≤ nu → (1 ≤ length A)%nat → is_Ok (TWED.run A B lam nu)).
Proof.
  intros Hlen. split.
  - destruct (Qclt_le_dec nu 0) as [Hneg|Hnu].
    { by rewrite !TWED_run_nu_negative. }
    destruct (decide (length A = 0)%nat) as [Hzero|Hpos].
    { destruct A, B; try done. }
    rewrite !TWED_run_twed by (done || lia).
    by rewrite twed_transpose, Hlen.
  - intros Hnu HA. apply TWED_run_Ok; [done|lia].
Qed.

Lemma TWED_symmetric_witness :
  TWED.run (int64 [1; 2; 3]%Z) (int64 [3; 2; 1]%Z) _LAMBDA _NU
  = TWED.run (int64 [3; 2; 1]%Z) (int64 [1; 2; 3]%Z) _LAMBDA _NU.
Proof.
  apply (TWED_symmetric (int64 [1; 2; 3]%Z) (int64 [3; 2; 1]%Z) _LAMBDA
           _NU).
  reflexivity.
Defined.

(** Property X20: for two series of two samples the only finite candidate
    of the single cell is the match, whose time gaps are [0]: the three
    engines return [_abs(a1 - b1) + _abs(a0 - b0)], whatever [lambda] and
    [nu >= 0] are.  For [float64] samples, and for [int64] samples from
    [-2^62] up to, not including, [2^62], this is [|a1 - b1| + |a0 - b0|];
    where a difference of [int64] samples overflows it need not be. *)
Theorem two_sample_cost (heap : nat → cost) (a0 a1 b0 b1 : scalar)
    (lam nu : Qc) (strict : bool) :
  0 ≤ nu →
  TWED.run [a0; a1] [b0; b1] lam nu
  = Ok (Fin (absdiff a1 b1 + absdiff a0 b0))
  ∧ memTWED.run heap [a0; a1] [b0; b1] lam nu strict
    = ([], Ok (Fin (absdiff a1 b1 + absdiff a0 b0)))
  ∧ multiTWED.run [a0; a1] (Array2D 2 [[b0; b1]]) lam nu
    = Ok [Fin (absdiff a1 b1 + absdiff a0 b0)]
  ∧ (small a0 → small a1 → small b0 → small b1 →
     absdiff a1 b1 + absdiff a0 b0
     = Qcabs (to_float a1 - to_float b1) + Qcabs (to_float a0 - to_float b0)).
Proof.
  intros Hnu.
  assert (twed nu lam [a0; a1] [b0; b1] 1 1
          = Fin (absdiff a1 b1 + absdiff a0 b0)) as Hcell.
  { cbn. unfold entry, cell_value, py_min3. cbn. f_equal.
    change (Z2Qc (2 * Z.abs (Z.of_nat 1 - Z.of_nat 1))) with (0 : Qc).
    ring. }
  split_and!.
  - rewrite TWED_run_twed by (done || cbn; lia).
    change (length [a0; a1] - 1)%nat with 1%nat.
    change (length [b0; b1] - 1)%nat with 1%nat. by rewrite Hcell.
  - rewrite mem_run_twed by (done || cbn; lia).
    change (length [a0; a1] - 1)%nat with 1%nat.
    change (length [b0; b1] - 1)%nat with 1%nat. by rewrite Hcell.
  - change 2%nat with (length [a0; a1]) at 1.
    rewrite (multi_run_twed nu lam [a0; a1] [[b0; b1]]);
      [|done|cbn; lia|by repeat constructor].
    change (length [a0; a1] - 1)%nat with 1%nat.
    cbn [fmap list_fmap]. by rewrite Hcell.
  - intros H0 H1 H0' H1'. by rewrite !absdiff_exact.
Qed.

Lemma two_sample_cost_witness :
  TWED.run [I64 10; I64 20] [I64 15; I64 27] (q 1000) _NU = Ok (Fin (q 12))
  ∧ TWED.run [I64 0; I64 (2 ^ 62)] [I64 0; I64 (- 2 ^ 62)] _LAMBDA _NU
    = Ok (Fin (q (- 2 ^ 63)))
  ∧ TWED.run [I64 10; I64 20] [I64 15; I64 27] (q 1000) _NU
    = Ok (Fin (absdiff (I64 20) (I64 27) + absdiff (I64 10) (I64 15))).
Proof.
  split; [by_evaluation|]. split; [by_evaluation|].
  apply (two_sample_cost (λ _, Inf) (I64 10) (I64 20) (I64 15) (I64 27)
           (q 1000) _NU false).
  by vm_compute.
Defined.

(** ** What the rolling engine reads behind its buffer *)

(** Loop invariant rule for two runs of one loop. *)
Lemma for_range_inv2 {S : Type} (P : nat → S → S → Prop)
    (body : nat → S → result S) (a b : nat) (s1 s2 : S) :
  (a ≤ b)%nat →
  P a s1 s2 →
  (∀ k s1 s2, (a ≤ k < b)%nat → P k s1 s2 →
     ∃ s1' s2', body k s1 = Ok s1' ∧ body k s2 = Ok s2'
                ∧ P (Datatypes.S k) s1' s2') →
  ∃ s1' s2', for_each (range a b) body s1 = Ok s1'
             ∧ for_each (range a b) body s2 = Ok s2' ∧ P b s1' s2'.
Proof.
  intros Hab H0 Hstep. induction b as [|b IH].
  - assert (a = 0)%nat as -> by lia. exists s1, s2. by rewrite range_nil.
  - destruct (decide (a = Datatypes.S b)) as [->|Hne].
    { exists s1, s2. by rewrite range_nil. }
    destruct IH as (t1 & t2 & Ht1 & Ht2 & HP); [lia| |].
    { intros k u1 u2 Hk. apply Hstep. lia. }
    destruct (Hstep b t1 t2) as (t1' & t2' & Ht1' & Ht2' & HP'); [lia|done|].
    exists t1', t2'. rewrite range_S, !for_each_app, Ht1, Ht2 by lia. rsimpl.
    cbn [for_each]. rewrite Ht1', Ht2'. done.
Qed.

Lemma agree_below_get (limit r c : nat) (a1 a2 : carray) :
  agree_below limit a1 a2 → (r * shape1 a1 + c < limit)%nat →
  jit_get a1 r c = jit_get a2 r c.
Proof.
  intros (_ & H1 & Hcells) Hlt. unfold jit_get. rewrite <- H1. by apply Hcells.
Qed.

Lemma agree_below_set (limit limit' r c : nat) (a1 a2 : carray) (v : cost) :
  agree_below limit a1 a2 →
  (limit' ≤ limit
   ∨ limit' = S (r * shape1 a1 + c) ∧ r * shape1 a1 + c ≤ limit)%nat →
  agree_below limit' (jit_set a1 r c v) (jit_set a2 r c v).
Proof.
  intros (H0 & H1 & Hcells) Hlimit. split_and!; [done|done|].
  intros k Hk. unfold jit_set. cbn [cells]. rewrite <- H1.
  destruct (decide (r * shape1 a1 + c = k)%nat) as [<-|Hne].
  - by rewrite !fn_lookup_insert.
  - rewrite !fn_lookup_insert_ne by done. apply Hcells. lia.
Qed.

Section Heap.

Variables (nu lam : Qc) (A B : list scalar).

(** Outer iteration [1] reads behind the buffer only what it has written
    there. *)
Lemma agree_row1 (a1 a2 : carray) :
  (2 ≤ length A)%nat → shape1 a1 = length A →
  agree_below (2 * length A) a1 a2 →
  ∃ a1' a2',
    memTWED.inner nu lam A B 1 (range 1 (length B)) a1 = Ok a1'
    ∧ memTWED.inner nu lam A B 1 (range 1 (length B)) a2 = Ok a2'
    ∧ shape1 a1' = length A ∧ agree_below (reach A B) a1' a2'.
Proof.
  intros HA Hshape Hagree. unfold memTWED.inner.
  change (memTWED.row_of 1) with 1%nat.
  change (memTWED.other_row 1) with 0%nat.
  destruct (decide (length B ≤ 1)%nat) as [Hle|Hgt].
  { exists a1, a2. rewrite range_nil by done. split_and!; [done..|].
    unfold reach. by rewrite Nat.max_l by lia. }
  destruct (for_range_inv2
              (λ j a1 a2, shape1 a1 = length A
                          ∧ agree_below
                              (Nat.max (2 * length A) (length A + j)) a1 a2)
              (memTWED.cell nu lam A B 1 0 1) 1 (length B) a1 a2)
    as (a1' & a2' & Hrun1 & Hrun2 & Hshape' & Hagree'); [lia| | |].
  { split; [done|]. by rewrite Nat.max_l by lia. }
  { intros j b1 b2 Hj [Hb Hagree1].
    rewrite !jit_cell_entry by lia. eexists _, _.
    split; [reflexivity|]. split; [reflexivity|]. split; [done|].
    rewrite <- (agree_below_get _ 0 j b1 b2 Hagree1) by lia.
    rewrite <- (agree_below_get _ 1 (j - 1) b1 b2 Hagree1) by lia.
    rewrite <- (agree_below_get _ 0 (j - 1) b1 b2 Hagree1) by lia.
    eapply agree_below_set; [exact Hagree1|]. lia. }
  by exists a1', a2'.
Qed.

(** Every later outer iteration stays below [reach]. *)
Lemma agree_row (i : nat) (a1 a2 : carray) :
  (1 ≤ i < length A)%nat → shape1 a1 = length A →
  agree_below (reach A B) a1 a2 →
  ∃ a1' a2',
    memTWED.inner nu lam A B i (range 1 (length B)) a1 = Ok a1'
    ∧ memTWED.inner nu lam A B i (range 1 (length B)) a2 = Ok a2'
    ∧ shape1 a1' = length A ∧ agree_below (reach A B) a1' a2'.
Proof.
  intros Hi Hshape Hagree. unfold memTWED.inner.
  pose proof (row_of_lt i) as Hmi.
  pose proof (other_row_spec _ Hmi) as Hai.
  destruct (decide (length B ≤ 1)%nat) as [Hle|Hgt].
  { exists a1, a2. by rewrite range_nil by done. }
  apply (for_range_inv2
           (λ _ a1 a2, shape1 a1 = length A ∧ agree_below (reach A B) a1 a2));
    [lia|done|].
  intros j b1 b2 Hj [Hb Hagree1].
  rewrite !jit_cell_entry by lia. eexists _, _.
  split; [reflexivity|]. split; [reflexivity|]. split; [done|].
  assert (∀ r c, (r < 2)%nat → (c < length B)%nat →
            (r * shape1 b1 + c < (reach A B))%nat) as Hreach.
  { intros r c Hr Hc. rewrite Hb. unfold reach.
    destruct r as [|[|?]]; lia. }
  rewrite <- (agree_below_get _ _ j b1 b2 Hagree1)
    by (apply Hreach; lia).
  rewrite <- (agree_below_get _ _ (j - 1) b1 b2 Hagree1)
    by (apply Hreach; lia).
  rewrite <- (agree_below_get _ (memTWED.other_row _) (j - 1) b1 b2
                Hagree1) by (apply Hreach; lia).
  eapply agree_below_set; [exact Hagree1|]. by left.
Qed.

Lemma agree_sweep (a1 a2 : carray) :
  (2 ≤ length A)%nat → shape1 a1 = length A →
  agree_below (2 * length A) a1 a2 →
  ∃ b1 b2,
    memTWED.sweep (length B) nu lam A B (range 1 (length A)) a1
    = Ok (b1, memTWED.row_of (length A - 1))
    ∧ memTWED.sweep (length B) nu lam A B (range 1 (length A)) a2
      = Ok (b2, memTWED.row_of (length A - 1))
    ∧ shape1 b1 = length A ∧ agree_below (reach A B) b1 b2.
Proof.
  intros HA Hshape Hagree. unfold memTWED.sweep.
  rewrite (range_cons 1 (length A)) by lia. cbn [for_each].
  destruct (agree_row1 a1 a2 HA Hshape Hagree)
    as (c1 & c2 & Hc1 & Hc2 & Hc & Hagree1).
  assert (memTWED.outer (length B) nu lam A B 1 (a1, 0%nat)
          = Ok (jit_set c1 0 0 Inf, memTWED.row_of 1)) as ->.
  { unfold memTWED.outer. cbn [fst]. by rewrite Hc1. }
  assert (memTWED.outer (length B) nu lam A B 1 (a2, 0%nat)
          = Ok (jit_set c2 0 0 Inf, memTWED.row_of 1)) as ->.
  { unfold memTWED.outer. cbn [fst]. by rewrite Hc2. }
  rsimpl.
  destruct (for_range_inv2
              (λ k st1 st2,
                 shape1 st1.1 = length A ∧ agree_below (reach A B) st1.1 st2.1
                 ∧ st1.2 = memTWED.row_of (k - 1) ∧ st2.2 = st1.2)
              (memTWED.outer (length B) nu lam A B) 2 (length A)
              (jit_set c1 0 0 Inf, memTWED.row_of 1)
              (jit_set c2 0 0 Inf, memTWED.row_of 1))
    as ([b1 m1] & [b2 m2] & Hrun1 & Hrun2 & Hb & Hagree2 & Hm1 & Hm2);
    [lia| | |].
  { cbn [fst snd]. split_and!; [done| |done|done].
    eapply agree_below_set; [exact Hagree1|]. by left. }
  { intros k st1 st2 Hk (Hst & Hagree2 & _ & _). unfold memTWED.outer.
    destruct (agree_row k st1.1 st2.1 ltac:(lia) Hst Hagree2)
      as (d1 & d2 & -> & -> & Hd & Hagree3).
    rsimpl. eexists _, _. split; [reflexivity|]. split; [reflexivity|].
    cbn [fst snd].
    split_and!; [done| |by replace (S k - 1)%nat with k by lia|done].
    eapply agree_below_set; [exact Hagree3|]. by left. }
  cbn [fst snd] in *. subst m1 m2. exists b1, b2. by rewrite Hrun1, Hrun2.
Qed.

End Heap.

(** Property X22: for a reference series of two samples or more the
    outcome of the rolling engine does not depend on what lies behind its
    buffer, whatever the length of the target series: where the sweep
    overruns the buffer it reads only cells it has written before. *)
Theorem memTWED_ignores_heap (heap1 heap2 : nat → cost) (A B : list scalar)
    (lam nu : Qc) (strict : bool) :
  (2 ≤ length A)%nat →
  memTWED.run heap1 A B lam nu strict = memTWED.run heap2 A B lam nu strict.
Proof.
  intros HA. unfold memTWED.run.
  destruct (memTWED.__init__ A B lam nu strict) as [out [self|e]] eqn:Hinit;
    [|done].
  f_equal. rsimpl.
  assert (memTWED.t1 self = A ∧ memTWED.t2 self = B
          ∧ memTWED.n self = length A ∧ memTWED.m self = length B
          ∧ memTWED._nu self = nu ∧ memTWED._lambda self = lam)
    as (Ht1 & Ht2 & Hn & Hm & Hnu & Hlam).
  { unfold memTWED.__init__ in Hinit.
    destruct (py_assert _ _); [|done].
    destruct strict; [destruct (py_assert _ _); [|done]|destruct (bool_decide _)];
      rsimpl; by injection Hinit as _ <-. }
  unfold memTWED.calculateCosts.
  assert (∃ w, length A = S w) as [w Hw] by (exists (length A - 1)%nat; lia).
  rewrite (mem_init_matrix_eq self w) by congruence. rsimpl.
  unfold memTWED._calculateCosts. rewrite Ht1, Ht2, Hn, Hm, Hnu, Hlam.
  pose proof (init_buffer_shape w) as Hbuf.
  destruct (init_carray heap1 w) as [Hshape _].
  destruct (agree_sweep nu lam A B
              (to_carray [Fin 0 :: replicate w Inf;
                          Inf :: replicate w (Fin 0)] heap1)
              (to_carray [Fin 0 :: replicate w Inf;
                          Inf :: replicate w (Fin 0)] heap2))
    as (b1 & b2 & -> & -> & Hb & Hagree); [done|congruence| |].
  { split_and!; [done|done|]. intros k Hk. cbn [cells to_carray].
    destruct (lookup_lt_is_Some_2
                (concat [Fin 0 :: replicate w Inf;
                         Inf :: replicate w (Fin 0)]) k) as [x ->]; [|done].
    rewrite (concat_length_rows 2 (S w)) by done. lia. }
  rsimpl. cbn [fst snd]. f_equal.
  pose proof (row_of_lt (length A - 1)) as Hlt.
  destruct Hagree as (H0 & H1 & Hcells).
  unfold jit_get_int, jit_get. rewrite <- H0, <- H1. apply Hcells.
  rewrite Hb. unfold jit_index, reach.
  destruct (decide (Z.of_nat (memTWED.row_of (length A - 1)) < 0)%Z); [lia|].
  rewrite Nat2Z.id.
  destruct (decide (Z.of_nat (length B) - 1 < 0)%Z).
  - replace (Z.to_nat (Z.of_nat (length B) - 1 + Z.of_nat (length A)))
      with (length A - 1)%nat by lia.
    destruct (memTWED.row_of (length A - 1)) as [|[|?]]; lia.
  - replace (Z.to_nat (Z.of_nat (length B) - 1)) with (length B - 1)%nat
      by lia.
    destruct (memTWED.row_of (length A - 1)) as [|[|?]]; lia.
Qed.

Lemma memTWED_ignores_heap_witness :
  memTWED.run (λ _, Inf) (int64 [1; 2]%Z) (int64 [1; 2; 3; 4]%Z) _LAMBDA _NU
    false
  = memTWED.run (λ k, Fin (q (Z.of_nat k))) (int64 [1; 2]%Z)
      (int64 [1; 2; 3; 4]%Z) _LAMBDA _NU false.
Proof.
  apply (memTWED_ignores_heap (λ _, Inf) (λ k, Fin (q (Z.of_nat k)))
           (int64 [1; 2]%Z) (int64 [1; 2; 3; 4]%Z) _LAMBDA _NU false).
  cbn. lia.
Defined.
